(** * Relightable Gaussian codec avatar: model and test driver

    A shallow embedding of [ca_body/models/rgca.py] (classes [AutoEncoder],
    [Encoder], [GeomDecoder], [PrimDecoder], [RGCASummary]) and of
    [ca_code/scripts/run_test.py] ([main]).

    Conventions.
    - Tensor entries are real numbers: the embedding describes the
      arithmetic the code asks for, not its rounding.  A tensor of rank
      [k] is a [k]-fold nested list, outermost dimension first.
    - Python dictionaries are finite maps keyed by strings; a missing key
      or an index out of range makes the enclosing function return [None]
      (the exception the interpreter would raise).
    - Elementwise tensor operations pair entries with [zip_with]; the
      tensor library rejects operands whose shapes do not agree, so the
      two coincide on every input the library accepts.  Broadcasts the
      source relies on ([expand], [[:, None]]) are written out.
    - Modules that live outside these two files (network layers, the
      rasteriser, the spherical-harmonics and environment-map helpers,
      data loading) are taken as parameters, bundled in type classes. *)

From Stdlib Require Import Reals Lra Lia ZArith RNsatz.
From stdpp Require Import base option list gmap strings.

Abbreviation vec := (list R) (only parsing).
Abbreviation mat := (list (list R)) (only parsing).
Abbreviation image := (list (list (list R))) (only parsing).

(** Values stored in the prediction dictionaries, by rank. *)
Inductive value : Type :=
  | V2 (t : list vec)      (* [B, n] *)
  | V3 (t : list mat)      (* [B, n, m] *)
  | V4 (t : list image).   (* [B, C, H, W] *)

Definition as_V2 (v : value) : option (list vec) :=
  match v with V2 t => Some t | _ => None end.
Definition as_V3 (v : value) : option (list mat) :=
  match v with V3 t => Some t | _ => None end.
Definition as_V4 (v : value) : option (list image) :=
  match v with V4 t => Some t | _ => None end.

(** ** Tensor-library operations used by the model *)
Module torch.
Local Open Scope R_scope.

(** [x.clamp(lo, hi)], [x.clamp(min=lo)], [x.clamp(max=hi)] *)
Definition clamp (lo hi x : R) : R := Rmin (Rmax x lo) hi.
Definition clamp_min (lo x : R) : R := Rmax x lo.
Definition clamp_max (hi x : R) : R := Rmin x hi.

(** [th.sigmoid] over the reals.  The real function stays strictly
    inside (0, 1); in single precision it rounds to exactly 0.0 or 1.0
    for arguments of large magnitude, so the properties of the program
    stated below use the closed interval only. *)
Definition sigmoid (x : R) : R := 1 / (1 + exp (- x)).

(** [F.softplus] with its defaults [beta = 1], [threshold = 20]: the
    function is the identity above the threshold.  The real function is
    strictly positive; in single precision it underflows to 0.0 for very
    negative arguments, so the properties of the program stated below
    use non-negativity only. *)
Definition softplus (x : R) : R :=
  if Rle_dec x 20 then ln (1 + exp x) else x.

(** [x.sum(dim=-1)] on one row. *)
Definition sum (v : vec) : R := foldr Rplus 0 v.

Definition dot (u v : vec) : R := sum (zip_with Rmult u v).

(** Euclidean norm of one row. *)
Definition sumsq (v : vec) : R := sum ((λ x, x * x) <$> v).
Definition norm2 (v : vec) : R := sqrt (sumsq v).

(** [F.normalize(x, p=2, dim=-1)] on one row, default [eps = 1e-12]:
    [x / max(||x||, eps)]. *)
Definition eps : R := 1e-12.
Definition normalize (v : vec) : vec :=
  (λ x, x / Rmax (norm2 v) eps) <$> v.

(** Entrywise maps on rank-3 tensors. *)
Definition map3 (f : R → R) (t : image) : image :=
  fmap (M:=list) (fmap (M:=list) (fmap (M:=list) f)) t.
Definition zip3 (f : R → R → R) (s t : image) : image :=
  zip_with (zip_with (zip_with f)) s t.

Definition map2 (f : R → R) (t : mat) : mat :=
  fmap (M:=list) (fmap (M:=list) f) t.
Definition zip2 (f : R → R → R) (s t : mat) : mat :=
  zip_with (zip_with f) s t.

(** Shape of a rank-3 tensor. *)
Definition dims (t : image) : nat * nat * nat :=
  (length t, length (hd [] t), length (hd [] (hd [] t))).

(** [th.stack(ts)]: the list itself, read along a new leading dimension;
    an empty list and tensors of different sizes are errors. *)
Definition stack (ts : list image) : option (list image) :=
  match ts with
  | [] => None
  | t :: rest =>
      if decide (Forall (λ u, dims u = dims t) rest) then Some ts else None
  end.

(** Reading a flat row as rows of [n] entries: the last step of
    [x.view(..., -1, n)] on contiguous data. *)
Definition chunk {A} (n : nat) (l : list A) : list (list A) :=
  (λ i, take n (drop (i * n) l)) <$> seq 0 (length l / n).

(** All entries of a rank-3 tensor in storage order. *)
Definition flatten3 (t : image) : vec := concat (concat t).

(** Entrywise maps on rank-4 and rank-2-batched tensors. *)
Definition map4 (f : R → R) (t : list image) : list image :=
  fmap (M:=list) (map3 f) t.
Definition bmap2 (f : R → R) (t : list vec) : list vec :=
  fmap (M:=list) (fmap (M:=list) f) t.
Definition bzip2 (f : R → R → R) (s t : list vec) : list vec :=
  zip_with (zip_with f) s t.
Definition bmap3 (f : R → R) (t : list mat) : list mat :=
  fmap (M:=list) (map2 f) t.
Definition bzip3 (f : R → R → R) (s t : list mat) : list mat :=
  zip_with (zip2 f) s t.

(** Transposition of a matrix given by rows, [m.permute(1, 0)]. *)
Definition transpose {A} (m : list (list A)) : list (list A) :=
  (λ j, omap (λ row : list A, row !! j) m) <$> seq 0 (length (hd [] m)).

(** [t.permute(1, 2, 0).view(-1, n)] on one [C, H, W] feature map: the
    channel vectors of the pixels in row-major order, regrouped in rows
    of [n] entries (with [n = C], one row per pixel). *)
Definition to_prims (t : image) : mat := transpose (concat (A:=R) <$> t).
Definition view_last (n : nat) (t : image) : mat :=
  chunk n (concat (to_prims t)).

(** [x.view(-1, c, h, w)] on a batch of flat rows. *)
Definition view_chw (c h w : nat) (x : list vec) : list image :=
  chunk c (chunk h (chunk w (concat x))).

(** [F.normalize(t, dim=0)] on one [C, H, W] map: every pixel's channel
    vector is divided by [max(norm, eps)]. *)
Definition sumsq_ch (t : image) : mat :=
  match map3 (λ x, x * x) t with
  | [] => []
  | p :: ps => foldl (zip2 Rplus) p ps
  end.
Definition normalize_ch (t : image) : image :=
  let denom := map2 (λ s, Rmax (sqrt s) eps) (sumsq_ch t) in
  (λ plane, zip2 Rdiv plane denom) <$> t.

(** Row vector times matrix, [(v[None] @ m)[0]], and matrix times column
    vector, [einsum("xy,y->x", m, v)]. *)
Definition vecmat (v : vec) (m : mat) : vec :=
  (λ col, dot v col) <$> transpose m.
Definition matvec (m : mat) (v : vec) : vec :=
  (λ row, dot row v) <$> m.

(** Batched matrix product [a @ b] on one batch element. *)
Definition matmul (a b : mat) : mat := (λ row, vecmat row b) <$> a.

(** Multiplication by a tensor whose last dimension has size one
    (broadcast), or the same size. *)
Definition mul_last (row w : vec) : vec :=
  match w with
  | [w0] => (λ x, x * w0) <$> row
  | _ => zip_with Rmult row w
  end.

(** [t.permute(2, 0, 1)] on an [H, W, c] tensor: channels first. *)
Definition chan_first (c : nat) (pixels : list mat) : image :=
  (λ k, fmap (M:=list) (λ p : vec, default 0 (p !! k)) <$> pixels)
    <$> seq 0 c.

(** Entry [t[b, c, i, j]] of a rank-4 tensor. *)
Definition px (t : list image) (b c i j : nat) : option R :=
  tb ← t !! b; plane ← tb !! c; row ← plane !! i; row !! j.

(** Entry [t[c, i, j]] of a rank-3 tensor. *)
Definition px3 (t : image) (c i j : nat) : option R :=
  plane ← t !! c; row ← plane !! i; row !! j.

(** Entry [m[i, j]] of a matrix. *)
Definition at2 (m : mat) (i j : nat) : option R := row ← m !! i; row !! j.

(** Entry [t[b, n, k]] and row [t[b, n]] of a batch of matrices. *)
Definition at3 (t : list mat) (b n k : nat) : option R :=
  m ← t !! b; at2 m n k.
Definition row3 (t : list mat) (b n : nat) : option vec :=
  m ← t !! b; m !! n.
End torch.

(** ** The Gaussian rasteriser (ca_body/utils/render_gsplat.py) *)

(** [render_gs] is an opaque primitive: it splats the Gaussians of one
    batch element and returns a dictionary of rank-3 tensors. *)
Class Rasterizer := {
  render_gs :
    ∀ (cam_img_w cam_img_h : Z) (fx fy cx cy : R) (Rt : mat)
      (primpos primqvec primscale opacity colors : mat),
      gmap string image
}.

(** ** Random numbers *)

(** [th.randn_like] draws from the generator, whose state it advances. *)
Class Random := {
  rng : Type;
  randn_like : list vec → rng → list vec * rng
}.

(** ** Encoder: a joint encoder for texture and geometry *)
Module Encoder.
Import torch.
Local Open Scope R_scope.

(** The layers built by [__init__] (ca_body/nn/layers.py) with their
    learned weights, and the scalar attributes. *)
Class Self := {
  geommod : list vec → list vec;
  texmod : list image → list image;
  jointmod : list vec → list vec;
  mean : list vec → list vec;
  logvar : list vec → list vec;
  noise_std : R;
  mean_scale : R;
  logvar_scale : R
}.

Section forward.
Context `{Self} `{Random}.

Definition encout (geom : list mat) (color : list image) : list vec :=
  let geomout := geommod (concat (A:=R) <$> geom) in
  let texout :=
    chunk (256 * 4 * 4)
      (concat (flatten3 <$> texmod (map4 (λ x, x / 255.0 - 0.5) color))) in
  jointmod (zip_with app geomout texout).
Definition embs_mu (geom : list mat) (color : list image) : list vec :=
  bmap2 (λ x, x * mean_scale) (mean (encout geom color)).
Definition embs_logvar (geom : list mat) (color : list image)
  : list vec :=
  bmap2 (λ x, x * logvar_scale) (logvar (encout geom color)).

(** [embs_mu + th.exp(embs_logvar) * noise * self.noise_std] *)
Definition add_noise (embs_mu embs_logvar noise : list vec) : list vec :=
  bzip2 Rplus embs_mu
    (bmap2 (λ x, x * noise_std)
       (bzip2 Rmult (bmap2 exp embs_logvar) noise)).

Definition forward (training : bool) (geom : list mat)
    (color : list image) (g : rng) : gmap string value * rng :=
  let embs_mu := embs_mu geom color in
  let embs_logvar := embs_logvar geom color in
  let embs_g :=
    if training then
      let noise_g := randn_like embs_mu g in
      (add_noise embs_mu embs_logvar noise_g.1, noise_g.2)
    else (embs_mu, g) in
  (<["embs_logvar" := V2 embs_logvar]>
     (<["embs_mu" := V2 embs_mu]>
        (<["embs" := V2 embs_g.1]> ∅)), embs_g.2).
End forward.
End Encoder.

(** ** GeomDecoder: a decoder for coarse geometry *)
Module GeomDecoder.
Import torch.
Local Open Scope R_scope.

Class Self := {
  geommod : list vec → list vec;
  verts_std : R;
  verts_mean : list mat     (* [1, V, 3] *)
}.

Section forward.
Context `{Self}.

Definition forward (embs : list vec) : gmap string value :=
  let geom := chunk 3 <$> geommod embs in
  let geom :=
    (λ g, zip2 Rplus (map2 (λ x, x * verts_std) g)
            (default [] (verts_mean !! 0%nat))) <$> geom in
  <["face_geom" := V3 geom]> ∅.
End forward.
End GeomDecoder.

(** ** Spherical harmonics (ca_body/utils/sh.py) *)

(** [dir2sh] is the real spherical-harmonics basis up to a degree at one
    direction; a basis of degree [n] has [(n + 1)^2] functions.
    [dir2sh_torch] evaluates it at every direction of a [B, L, 3]
    tensor. *)
Class SH := {
  dir2sh : nat → vec → vec;
  dir2sh_length : ∀ n d, length (dir2sh n d) = ((n + 1) ^ 2)%nat
}.

Definition dir2sh_torch `{SH} (n : nat) (dirs : list mat) : list mat :=
  fmap (M:=list) (dir2sh n) <$> dirs.

(** ** Shading helpers outside this file *)

(** [dir2uv] (ca_body/utils/envmap.py), [mipmap_grid_sample]
    (ca_body/utils/mipmap_sampler.py) and [evaluate_gaussian]
    (extensions/sgutils) are opaque primitives. *)
Class Shading := {
  envmap : Type;
  dir2uv : list mat → Z → list mat;
  mipmap_grid_sample :
    envmap → list image → list mat → list image;
  evaluate_gaussian :
    ∀ (ref_dirs : list mat) (sigma : list vec)
      (light_intensity headrel_light_pos primpos : list mat)
      (n_lights : list Z) (w_type : Z), list mat
}.

(** ** PrimDecoder: a decoder for relightable Gaussians *)
Module PrimDecoder.
Import torch.
Local Open Scope R_scope.

(** The layers and buffers built by [__init__]: the geometry module's
    [to_uv] and [vn], the four networks with their learned weights, the
    two spherical-harmonics degrees and the learned albedo [1, N, 3].
    The coefficient counts below subtract the colour count from the
    total, so the colour degree does not exceed the diffuse degree. *)
Class Self := {
  to_uv : list mat → list image;
  vn : list mat → list mat;
  viewmod : list vec → list vec;
  encmod : list vec → list vec;
  vnocond_mod : list image → list image;
  vcond_mod : list image → list image;
  diff_sh_degree : nat;
  color_sh_degree : nat;
  albedo : list mat;
  sh_degrees : (color_sh_degree ≤ diff_sh_degree)%nat
}.

Section forward.
Context `{Self} `{Shading}.

Definition n_color_sh_coeffs : nat := (color_sh_degree + 1) ^ 2.
Definition n_mono_sh_coeffs : nat :=
  (diff_sh_degree + 1) ^ 2 - n_color_sh_coeffs.
Definition n_diff_coeffs : nat :=
  3 * n_color_sh_coeffs + n_mono_sh_coeffs.

Variables (embs : list vec) (geom : list mat) (headrel_campos : list vec).
Variables (light_intensity headrel_light_pos headrel_light_sh : list mat).
Variable n_lights : list Z.

(** Positional map on uv. *)
Definition primposbase : list mat := view_last 3 <$> to_uv geom.

(** Normal map on uv. *)
Definition vn_uv : list mat :=
  view_last 3 <$> (normalize_ch <$> to_uv (vn geom)).

(** View-independent decoder. *)
Definition embs_map : list image := view_chw 256 8 8 (encmod embs).
Definition f_vnocond : list image := vnocond_mod embs_map.

(** View-dependent decoder. *)
Definition view : list image :=
  (λ v : vec, (λ x, replicate 8 (replicate 8 x)) <$> v)
    <$> viewmod (normalize <$> headrel_campos).
Definition f_vcond : list mat :=
  view_last 4 <$> vcond_mod (zip_with app embs_map view).

(** Diffuse spherical-harmonics coefficients [B, N, 3, K]: per colour
    channel, the colour coefficients followed by the shared
    monochrome ones. *)
Definition diff_shs_flat : list mat :=
  view_last n_diff_coeffs
    <$> (take n_diff_coeffs <$> f_vnocond).
Definition diff_shs_of (p : vec) : mat :=
  let diff_shs_color := chunk n_color_sh_coeffs
                          (take (n_color_sh_coeffs * 3) p) in
  let diff_shs_mono := drop (n_color_sh_coeffs * 3) p in
  zip_with app diff_shs_color (replicate 3 diff_shs_mono).
Definition diff_shs : list (list mat) :=
  fmap (M:=list) diff_shs_of <$> diff_shs_flat.

(** Gaussian parameters. *)
Definition f_geom : list mat :=
  view_last 11
    <$> ((λ t : image, take 11 (drop n_diff_coeffs t)) <$> f_vnocond).
Definition primpos : list mat :=
  bzip3 Rplus (fmap (M:=list) (take 3) <$> f_geom) primposbase.
Definition primqvec : list mat :=
  fmap (M:=list) (λ p, normalize (take 4 (drop 3 p))) <$> f_geom.
Definition primscale : list mat :=
  fmap (M:=list) (λ p, softplus <$> take 3 (drop 7 p)) <$> f_geom.
Definition opacity : list mat :=
  fmap (M:=list) (λ p, sigmoid <$> take 1 (drop 10 p)) <$> f_geom.

(** Roughness. *)
Definition sigma : list vec :=
  (λ t : image,
     (λ x, clamp_min 0.01 (exp x * 0.1))
       <$> concat (to_prims (drop (n_diff_coeffs + 11) t)))
    <$> f_vnocond.

(** View-dependent specular visibility and normal. *)
Definition spec_vis : list mat :=
  fmap (M:=list) (λ p, sigmoid <$> take 1 p) <$> f_vcond.
Definition spec_dnml : list mat :=
  fmap (M:=list) (drop 1) <$> f_vcond.
Definition spec_nml : list mat :=
  zip_with (zip_with (λ d n, normalize (zip_with Rplus d n)))
    spec_dnml vn_uv.

(** Albedo, expanded over the batch. *)
Definition albedo_expanded : list mat :=
  replicate (length embs) (default [] (albedo !! 0%nat)).

(** Diffuse colour. *)
Definition diff_color : list mat :=
  bzip3 Rmult albedo_expanded
    (zip_with
       (λ (shs : list mat) (light_sh : mat),
          (λ prim_shs : mat, zip_with dot prim_shs light_sh) <$> shs)
       diff_shs headrel_light_sh).

(** Specular colour: view and mirror directions. *)
Definition view_local : list mat :=
  zip_with (λ (ps : mat) (campos : vec),
              (λ p, normalize (zip_with Rminus p campos)) <$> ps)
    primpos headrel_campos.
Definition reflect (v n : vec) : vec :=
  zip_with Rminus v ((λ x, 2.0 * dot v n * x) <$> n).
Definition ref_dirs : list mat :=
  zip_with (zip_with reflect) view_local spec_nml.

(** Multiplication by the visibility, broadcast over the channels. *)
Definition times_spec_vis (c : list mat) : list mat :=
  zip_with (zip_with mul_last) c spec_vis.

Definition spec_color_envmap (env : envmap) (lightrot : list mat)
  : option (list mat) :=
  let ref_dirs :=
    zip_with (λ (rot : mat) (dirs : mat), matvec rot <$> dirs)
      lightrot ref_dirs in
  let ref_uv := dir2uv ref_dirs 2 in
  let miplevel := bmap2 (λ s, s * 5) sigma in
  let sampled :=
    mipmap_grid_sample env
      (fmap (M:=list) (λ uv : vec, [uv]) <$> ref_uv)
      (fmap (M:=list) (λ m : R, [m]) <$> miplevel) in
  spec_color ←
    mapM (mapM (mapM (λ s : vec, s !! 0%nat))) sampled;
  Some (times_spec_vis
          (bmap3 (clamp_max 1.0) (transpose <$> spec_color))).

Definition spec_color_lights : list mat :=
  times_spec_vis
    (evaluate_gaussian ref_dirs sigma light_intensity
       headrel_light_pos primpos n_lights 0).

Definition spec_color (preconv_envmap : option envmap)
    (lightrot : option (list mat)) : option (list mat) :=
  match preconv_envmap with
  | Some env => rot ← lightrot; spec_color_envmap env rot
  | None => Some spec_color_lights
  end.

Definition forward (preconv_envmap : option envmap)
    (lightrot : option (list mat)) : option (gmap string value) :=
  spec_color ← spec_color preconv_envmap lightrot;
  let color := bzip3 Rplus diff_color spec_color in
  Some (<["spec_color" := V3 spec_color]>
       (<["diff_color" := V3 diff_color]>
       (<["spec_dnml" := V3 spec_dnml]>
       (<["spec_nml" := V3 spec_nml]>
       (<["spec_vis" := V3 spec_vis]>
       (<["sigma" := V2 sigma]>
       (<["primscale" := V3 primscale]>
       (<["primqvec" := V3 primqvec]>
       (<["primpos" := V3 primpos]>
       (<["opacity" := V3 opacity]>
       (<["color" := V3 (bmap3 (clamp_min 0.0) color)]> ∅))))))))))).
End forward.
End PrimDecoder.

(** ** AutoEncoder *)
Module AutoEncoder.
Import torch.
Local Open Scope R_scope.

Section render.
Context `{Rasterizer}.
Variables (width height : Z).

(** Row [b] of the rank-3 entry [key] of [preds]: [preds[key][b]]. *)
Definition prim (preds : gmap string value) (key : string) (b : nat)
  : option mat :=
  v ← preds !! key; t ← as_V3 v; t !! b.

(** The call to the rasteriser for batch element [b]. *)
Definition render_output (K Rt : list mat) (preds : gmap string value)
    (b : nat) : option (gmap string image) :=
  Kb ← K !! b;
  fx ← at2 Kb 0 0;
  fy ← at2 Kb 1 1;
  cx ← at2 Kb 0 2;
  cy ← at2 Kb 1 2;
  Rtb ← Rt !! b;
  primpos ← prim preds "primpos" b;
  primqvec ← prim preds "primqvec" b;
  primscale ← prim preds "primscale" b;
  opacity ← prim preds "opacity" b;
  colors ← prim preds "color" b;
  Some (render_gs width height fx fy cx cy Rtb
          primpos primqvec primscale opacity colors).

(** What one pass of the loop body reads from the rasteriser for batch
    element [b]: the three entries of its output dictionary. *)
Definition splat (K Rt : list mat) (preds : gmap string value) (b : nat)
    (r T d : image) : Prop :=
  ∃ out, render_output K Rt preds b = Some out ∧
         out !! "render" = Some r ∧ out !! "final_T" = Some T ∧
         out !! "depth" = Some d.

(** The body of [for b in range(B)], threading the three lists. *)
Fixpoint render_loop (K Rt : list mat) (preds : gmap string value)
    (bs : list nat) (rgbs Ts depths : list image)
  : option (list image * list image * list image) :=
  match bs with
  | [] => Some (rgbs, Ts, depths)
  | b :: bs' =>
      out ← render_output K Rt preds b;
      r ← out !! "render";
      T ← out !! "final_T";
      d ← out !! "depth";
      render_loop K Rt preds bs' (rgbs ++ [r]) (Ts ++ [T]) (depths ++ [d])
  end.

(** The divisor of the depth normalisation, [alpha.clamp(0.05, 1.0)]. *)
Definition depth_divisor (alpha : list image) : list image :=
  map3 (clamp 0.05 1.0) <$> alpha.

Definition render (K Rt : list mat) (preds : gmap string value)
  : option (list image * list image * list image) :=
  let B := length K in
  '(rgbs, Ts, depths) ← render_loop K Rt preds (seq 0 B) [] [] [];
  rgb ← stack rgbs;
  depth ← stack depths;
  sT ← stack Ts;
  let alpha := map3 (λ t, 1.0 - t) <$> sT in
  let depth := zip_with (zip3 Rdiv) depth (depth_divisor alpha) in
  Some (rgb, alpha, depth).

(** Inputs on which [render] raises nothing: a non-empty batch, every
    batch element indexable, and a rasteriser whose three outputs have
    the same sizes for every element. *)
Definition render_ready (K Rt : list mat) (preds : gmap string value)
  : Prop :=
  (0 < length K)%nat ∧
  ∃ sr sT sd, ∀ b, (b < length K)%nat →
    ∃ r T d, splat K Rt preds b r T d ∧
             dims r = sr ∧ dims T = sT ∧ dims d = sd.
End render.

(** The modules built by [__init__] that live outside this file (colour
    calibration, learnable blur) and the scalar attributes.  The
    training-only face-weight rasterisation [_rasterize_facew] is kept
    opaque: its two results are only stored in the predictions. *)
Class Self := {
  height : Z;
  width : Z;
  n_diff_sh : nat;
  cal_enabled : bool;
  cal : list image → option (list string) → list image;
  learn_blur_enabled : bool;
  learn_blur : list image → option (list string) → list image;
  learn_blur_reg : option (list string) → value;
  _rasterize_facew :
    list mat → list mat → option (list image) → gmap string value →
    list image * list image
}.

Section forward.
Context `{Self} `{Rasterizer} `{Random} `{SH} `{Shading}.
Context `{Encoder.Self} `{GeomDecoder.Self} `{PrimDecoder.Self}.

(** [light_intensity.expand(-1, -1, 3)] on one light. *)
Definition expand3 (row : vec) : vec :=
  match row with [x] => [x; x; x] | _ => row end.

(** The head pose [3, 4] completed to a homogeneous [4, 4] matrix: a row
    of zeros is appended and entry [(3, 3)] is set to one (in range for
    every [3, 4] pose). *)
Definition head_pose_4x4 (head_pose : mat) : mat :=
  alter (λ row : vec, <[3%nat := 1.0]> row) 3%nat
    (head_pose ++ (fmap (M:=list) (λ _ : R, 0) <$> take 1 head_pose)).

(** [head_pose[b, :3, :3]] and [head_pose[b, :3, 3]]. *)
Definition rotation (head_pose : mat) : mat :=
  take 3 <$> take 3 head_pose.
Definition translation (head_pose : mat) : option vec :=
  mapM (λ row : vec, row !! 3%nat) (take 3 head_pose).

(** A world-space position re-expressed in the head frame:
    [(p - head_pose[:3, 3]) @ head_pose[:3, :3]]. *)
Definition headrel (head_pose : mat) (p : vec) : option vec :=
  t ← translation head_pose;
  Some (vecmat (zip_with Rminus p t) (rotation head_pose)).

Definition headrel_Rt (Rt head_pose : list mat) : list mat :=
  zip_with matmul Rt (head_pose_4x4 <$> head_pose).
Definition headrel_campos (head_pose : list mat) (campos : list vec)
  : option (list vec) :=
  mapM (λ hc : mat * vec, headrel hc.1 hc.2) (zip head_pose campos).
Definition headrel_light_pos (head_pose light_pos : list mat)
  : option (list mat) :=
  mapM (λ hl : mat * mat, mapM (headrel hl.1) hl.2)
    (zip head_pose light_pos).
Definition headrel_light_dir (headrel_light_pos : list mat) : list mat :=
  fmap (M:=list) normalize <$> headrel_light_pos.

(** [(sh_coeffs[:, :, None] * light_intensity[..., None]).sum(dim=1)]
    on one batch element: the [3, K] products of every light, summed
    over the lights. *)
Definition sh_times_intensity (sh_coeffs intensity : vec) : mat :=
  (λ i, (λ s, s * i) <$> sh_coeffs) <$> intensity.
Definition sum_lights (ts : list mat) : mat :=
  foldr (zip2 Rplus)
    (replicate 3 (replicate ((n_diff_sh + 1) ^ 2) 0)) ts.
Definition headrel_light_sh (headrel_light_pos light_intensity : list mat)
  : list mat :=
  let sh_coeffs := dir2sh_torch n_diff_sh
                     (headrel_light_dir headrel_light_pos) in
  zip_with (λ shs ints, sum_lights (zip_with sh_times_intensity shs ints))
    sh_coeffs light_intensity.

(** The contribution of one light at head-relative position [p] with
    intensity [i] to entry [(c, k)] of the light vector: the [k]-th
    basis function at the light's normalised direction times the
    intensity of channel [c]. *)
Definition light_term (c k : nat) (p i : vec) : R :=
  nth k (dir2sh n_diff_sh (normalize p)) 0 * nth c i 0.

(** Rigid motions, used to state the pose invariance of the
    head-relative positions: a rotation [Q] (orthonormal [3, 3]) and a
    shift [s] move a point [p] to [Q p + s] and a head pose [(R | t)]
    to [(Q R | Q t + s)]. *)
Definition identity3 : mat := [[1; 0; 0]; [0; 1; 0]; [0; 0; 1]].
Definition is_mat (r c : nat) (m : mat) : Prop :=
  length m = r ∧ Forall (λ row, length row = c) m.
Definition orthonormal (Q : mat) : Prop :=
  is_mat 3 3 Q ∧ matmul (transpose Q) Q = identity3.
Definition move_point (Q : mat) (s p : vec) : vec :=
  zip_with Rplus (matvec Q p) s.
Definition move_pose (Q : mat) (s : vec) (head_pose : mat) : mat :=
  matmul (zip_with (λ row si, row ++ [si]) Q s)
    (head_pose_4x4 head_pose).

(** [rgb + (1.0 - alpha) * bg], alpha having one channel. *)
Definition over_background (rgb alpha bg : image) : image :=
  let weight := map3 (λ a, 1.0 - a) alpha in
  let weighted :=
    match weight with
    | [w] => (λ plane, zip2 Rmult w plane) <$> bg
    | _ => zip3 Rmult weight bg
    end in
  zip3 Rplus rgb weighted.

Definition forward (training : bool)
    (head_pose : list mat) (campos : list vec)
    (registration_vertices : list mat) (color : list image)
    (light_intensity light_pos : list mat) (n_lights : list Z)
    (K Rt : list mat) (background : option (list image))
    (is_fully_lit_frame : option (list bool))
    (camera_id : option (list string)) (g : rng)
  : option (gmap string value * rng) :=
  let light_intensity := fmap (M:=list) expand3 <$> light_intensity in
  (* convert everything into head relative coordinates *)
  let headrel_Rt := headrel_Rt Rt head_pose in
  headrel_campos ← headrel_campos head_pose campos;
  headrel_light_pos ← headrel_light_pos head_pose light_pos;
  let headrel_light_sh :=
    headrel_light_sh headrel_light_pos light_intensity in
  (* encoding *)
  let '(enc_preds, g) :=
    Encoder.forward training registration_vertices color g in
  v ← enc_preds !! "embs"; embs ← as_V2 v;
  (* decoding *)
  let geom_preds := GeomDecoder.forward embs in
  v ← geom_preds !! "face_geom"; geom ← as_V3 v;
  dec_preds ← PrimDecoder.forward embs geom headrel_campos
                light_intensity headrel_light_pos headrel_light_sh
                n_lights None None;
  let preds : gmap string value :=
    dec_preds ∪ (enc_preds ∪
      (<["headrel_light_sh" := V3 headrel_light_sh]>
         (<["geom" := V3 geom]> ∅))) in
  (* rendering *)
  '(rgb, alpha, depth) ← render width height K headrel_Rt preds;
  let rgb := if cal_enabled then cal rgb camera_id else rgb in
  rgb ←
    (if training then
       match background with
       | Some background =>
           lit ← is_fully_lit_frame;
           let bg :=
             zip_with (λ (b : image) (l : bool),
                         if l then b else map3 (λ x, x * 0.0) b)
               (take 3 <$> background) lit in
           Some (zip_with (λ '(r, a) b, over_background r a b)
                   (zip rgb alpha) bg)
       | None => Some rgb
       end
     else Some rgb);
  let preds :=
    <["depth" := V4 depth]>
      (<["alpha" := V4 alpha]> (<["rgb" := V4 rgb]> preds)) in
  let preds :=
    if training then
      let '(weight, mesh_nml) :=
        _rasterize_facew K headrel_Rt background preds in
      <["mesh_nml" := V4 mesh_nml]>
        (<["image_weight" := V4 weight]> preds)
    else preds in
  let preds :=
    if learn_blur_enabled then
      <["learn_blur_weights" := learn_blur_reg camera_id]>
        (<["rgb" := V4 (learn_blur rgb camera_id)]> preds)
    else preds in
  Some (preds, g).

(** Keys written by [forward] after the decoder has run. *)
Definition late_keys : list string :=
  ["rgb"; "alpha"; "depth"; "image_weight"; "mesh_nml";
   "learn_blur_weights"].
(** Keys of every dictionary returned by [forward]: the three rendered
    images, the geometry and light vector, the encoder's and the
    decoder's entries. *)
Definition forward_keys : list string :=
  ["rgb"; "alpha"; "depth"; "geom"; "headrel_light_sh";
   "embs"; "embs_mu"; "embs_logvar";
   "color"; "opacity"; "primpos"; "primqvec"; "primscale"; "sigma";
   "spec_vis"; "spec_nml"; "spec_dnml"; "diff_color"; "spec_color"].
End forward.
End AutoEncoder.

(** ** The training-only face-weight rasterisation

    [AutoEncoder._rasterize_facew], which [AutoEncoder.forward] above
    takes as a field, written out. *)
Module FaceWeight.
Import torch.
Local Open Scope R_scope.

(** What [AutoEncoder.__init__] builds for it: the background weight,
    the face-weight texture [assets.face_weight] (registered with a
    leading batch dimension of one), the mesh renderer
    (ca_body/utils/render_drtk.py) with its dictionary of rank-4
    outputs, and [dilate] (ca_body/utils/image.py); the geometry
    module's [vn] and [to_uv] are those of the decoder. *)
Class Self := {
  bg_weight : R;
  face_weight : image;
  mesh_renderer :
    ∀ (geom : list mat) (tex : list image) (K Rt : list mat),
      gmap string (list image);
  dilate : list image → Z → list image
}.

Section rasterize.
Context `{Self} `{PrimDecoder.Self}.

(** [t.permute(1, 2, 0)] on one [C, H, W] map: channels last. *)
Definition chan_last (t : image) : list mat :=
  transpose <$> transpose t.

(** [t.expand(3, -1, -1)] on one [C, H, W] map: a single channel is
    repeated, three channels are kept, any other count is an error. *)
Definition expand_weight (t : image) : option image :=
  match t with
  | [p] => Some [p; p; p]
  | [_; _; _] => Some t
  | _ => None
  end.

(** [x * m] where [m] has one channel (broadcast) or as many as [x]. *)
Definition mul_channels (x m : image) : image :=
  match m with
  | [p] => (λ plane, zip2 Rmult plane p) <$> x
  | _ => zip3 Rmult x m
  end.

(** [t.mean(0)] on one [C, H, W] map. *)
Definition mean_ch (t : image) : mat :=
  match t with
  | [] => []
  | p :: ps => map2 (λ s, s / INR (length t)) (foldl (zip2 Rplus) p ps)
  end.

(** The texture handed to the mesh renderer: the normalised normal map
    followed by the first channel of the face weights. *)
Definition tex (geom : list mat) : list image :=
  let vn := normalize_ch <$> PrimDecoder.to_uv (PrimDecoder.vn geom) in
  zip_with app vn (replicate (length geom) (take 1 face_weight)).

(** The rendered normals turned by the rotation part of [Rt], pixel by
    pixel, and the same with the channels first. *)
Definition nml_img (Rt : list mat) (render : list image)
  : list (list mat) :=
  zip_with
    (λ (Rtb : mat) (r : image),
       fmap (M:=list) (matvec (take 3 <$> take 3 Rtb))
         <$> chan_last (take 3 r))
    Rt render.
Definition mesh_nml (Rt : list mat) (render : list image) : list image :=
  chan_first 3 <$> nml_img Rt render.

(** [(x + bg_weight) / (1.0 + bg_weight)] *)
Definition blend (x : R) : R := (x + bg_weight) / (1.0 + bg_weight).

(** [(mesh_nml[:, 2:3] <= 0).float()] *)
Definition non_backfacing (mesh_nml : list image) : list image :=
  (λ n : image,
     map3 (λ z, if Rle_dec z 0 then 1 else 0) (take 1 (drop 2 n)))
    <$> mesh_nml.

(** [1.0 - dilate(background[:, :3].mean(1, keepdim=True) > 0.5, 81)] *)
Definition bg_mask (background : list image) : list image :=
  let bright :=
    (λ b : image,
       [map2 (λ m, if Rlt_dec 0.5 m then 1 else 0) (mean_ch (take 3 b))])
      <$> background in
  map4 (λ x, 1.0 - x) (dilate bright 81).

Definition _rasterize_facew (K Rt : list mat)
    (background : option (list image)) (preds : gmap string value)
  : option (list image * list image) :=
  v ← preds !! "geom"; geom ← as_V3 v;
  let renders := mesh_renderer geom (tex geom) K Rt in
  render ← renders !! "render";
  let nml := mesh_nml Rt render in
  weight ← mapM (λ r : image, expand_weight (drop 3 r)) render;
  let weight := map4 blend weight in
  mask ← renders !! "mask";
  let weight := map4 blend (zip_with mul_channels weight mask) in
  let weight := zip_with mul_channels weight (non_backfacing nml) in
  background ← background;
  Some (zip_with mul_channels weight (bg_mask background), nml).
End rasterize.
End FaceWeight.

(** ** Image helpers outside this file *)

(** [linear2srgb], [scale_diff_image] (ca_body/utils/image.py),
    [depth2normals] (ca_body/utils/geom.py), [sh.eval_sh] and
    torchvision's [make_grid] are opaque primitives.  The batched image
    grid and its resized copy that [__call__] also computes are dropped by
    the source and are not part of the model. *)
Class Imaging := {
  linear2srgb : list image → list image;
  scale_diff_image : list image → list image;
  depth2normals : list image → value → value → list image;
  eval_sh : nat → list mat → list mat → list (list mat);
  make_grid : list image → nat → image
}.

(** ** RGCASummary: diagnostic images of one prediction *)
Module RGCASummary.
Import torch.
Local Open Scope R_scope.

Section call.
Context `{Imaging}.

Definition fh : nat := 1024.
Definition fw : nat := 1024.
Definition nf : nat := fh * fw.

(** [x.view(fh, fw, -1).permute(2, 0, 1)] on the flat data of one batch
    element, written over a zero slab of the same height. *)
Definition slab (flat : vec) : image :=
  let c := (length flat / (fh * fw))%nat in
  chan_first c (chunk fw (chunk c flat)).
Definition slab3 (x : list mat) : list image :=
  (λ xb : mat, slab (concat (take nf xb))) <$> x.
Definition slab2 (x : list vec) : list image :=
  (λ xb : vec, slab (take nf xb)) <$> x.

Definition clamp01 (t : list image) : list image := map4 (clamp 0 1) t.

(** The grid of unit normals over which the light is displayed: the
    two hemispheres over a [128 x 128] disc, and the disc's mask. *)
Definition linspace (a b : R) (n i : nat) : R :=
  a + (b - a) * INR i / INR (n - 1).
Definition pixelcoords (i j : nat) : vec :=
  [linspace (-1.0) 1.0 128 j; linspace 1.0 (-1.0) 128 i].
Definition zsq (i j : nat) : R := sum ((λ x, x * x) <$> pixelcoords i j).
Definition nz (i j : nat) : R := - sqrt (clamp_min 0.0 (1.0 - zsq i j)).
Definition grid128 {A} (f : nat → nat → A) : list (list A) :=
  (λ i, f i <$> seq 0 128) <$> seq 0 128.
Definition nml : list mat :=
  grid128 (λ i j, pixelcoords i j ++ [- nz i j])
    ++ grid128 (λ i j, pixelcoords i j ++ [nz i j]).
Definition mask : mat :=
  let m := grid128 (λ i j, if Rlt_dec (zsq i j) 1.0 then 1 else 0) in
  m ++ m.

(** [t.max()] over all entries. *)
Definition tmax (t : list image) : R :=
  match concat (flatten3 <$> t) with
  | [] => 0
  | x :: xs => foldl Rmax x xs
  end.

Definition light_sh_image (light_sh : list mat) : list image :=
  let color := eval_sh 8 light_sh nml in
  let color :=
    (λ cb : list mat,
       chan_first 3
         (zip_with (zip_with (λ m p, (λ x, m * x) <$> p)) mask cb))
      <$> color in
  let top := tmax color in
  map4 (λ x, x / top) color.

(** [alpha.clamp(0, 1).expand(-1, 3, -1, -1)] *)
Definition expand_channels (t : list image) : list image :=
  (λ tb : image, match tb with [p] => [p; p; p] | _ => tb end) <$> t.

(** [make_grid(255.0 * v, nrow=16).clip(0, 255).to(th.uint8)] *)
Definition to_uint8 (v : list image) : list (list (list Z)) :=
  fmap (M:=list) (fmap (M:=list) (λ x, Int_part (clamp 0 255 x)))
    <$> make_grid (map4 (λ x, 255.0 * x) v) 16.

(** The difference image of a prediction and its ground truth. *)
Definition diff_image (rgb gt : list image) : list image :=
  clamp01
    (scale_diff_image
       (map4 (clamp (-1) 1) (zip_with (zip3 Rminus) rgb gt))).

Definition get2 (d : gmap string value) (k : string) : option (list vec) :=
  v ← d !! k; as_V2 v.
Definition get3 (d : gmap string value) (k : string) : option (list mat) :=
  v ← d !! k; as_V3 v.
Definition get4 (d : gmap string value) (k : string)
  : option (list image) :=
  v ← d !! k; as_V4 v.

(** The entries added under [if key in d]. *)
Definition when_present (d : gmap string value) (key : string)
    (f : list image → gmap string (list image) → gmap string (list image))
    (diag : gmap string (list image))
  : option (gmap string (list image)) :=
  match d !! key with
  | Some v => t ← as_V4 v; Some (f t diag)
  | None => Some diag
  end.

(** The slabs of the per-Gaussian quantities. *)
Definition slabs (preds : gmap string value)
  : option (gmap string (list image)) :=
  diff_color ← get3 preds "diff_color";
  let diff_color := bmap3 (clamp 0 1) diff_color in
  spec_color ← get3 preds "spec_color";
  let spec_color := bmap3 (clamp 0 1) spec_color in
  opacity ← get3 preds "opacity";
  let opacity := bmap3 (clamp 0 1) opacity in
  spec_nml ← get3 preds "spec_nml";
  let spec_normal := bmap3 (λ x, x * 0.5 + 0.5) spec_nml in
  sigma ← get2 preds "sigma";
  let spec_rough := bmap2 (clamp 0 1) sigma in
  spec_vis ← get3 preds "spec_vis";
  let spec_vis := bmap3 (clamp 0 1) spec_vis in
  let color := bzip3 Rplus diff_color spec_color in
  Some
    (<["opacity_slab" := clamp01 (slab3 opacity)]>
    (<["spec_rough_slab" := clamp01 (slab2 spec_rough)]>
    (<["spec_vis_slab" := clamp01 (slab3 spec_vis)]>
    (<["spec_normal_slab" := clamp01 (slab3 spec_normal)]>
    (<["spec_slab" := clamp01 (linear2srgb (slab3 spec_color))]>
    (<["diff_sh_slab" := clamp01 (linear2srgb (slab3 diff_color))]>
    (<["sh_slab" := clamp01 (linear2srgb (slab3 color))]>
       (∅ : gmap string (list image))))))))).

(** The dictionary before the final conversion to 8-bit grids. *)
Definition images (preds batch : gmap string value)
  : option (gmap string (list image)) :=
  diag ← slabs preds;
  light_sh ← get3 preds "headrel_light_sh";
  let diag := <["light_sh" := light_sh_image light_sh]> diag in
  rgb ← get4 preds "rgb";
  let render := clamp01 (linear2srgb rgb) in
  diag ← when_present batch "image"
            (λ (gt : list image) (diag : gmap string (list image)),
               <["diff" := diff_image rgb gt]>
                 (<["gt" := clamp01 (linear2srgb gt)]> diag))
            diag;
  let diag := <["render" := render]> diag in
  alpha ← get4 preds "alpha";
  let alpha := expand_channels (clamp01 alpha) in
  let diag := <["alpha" := alpha]> diag in
  diag ← when_present preds "image_weight"
            (λ (w : list image) (diag : gmap string (list image)),
               <["weight" := w]> diag)
            diag;
  diag ← when_present preds "mesh_nml"
            (λ (n : list image) (diag : gmap string (list image)),
               <["mesh_nml" := map4 (λ x, 0.5 * (- x) + 0.5) n]> diag)
            diag;
  depth ← get4 preds "depth";
  focal ← batch !! "focal";
  princpt ← batch !! "princpt";
  let depth_nml :=
    zip_with (zip3 Rplus)
      (zip_with (zip3 Rmult) alpha
         (map4 (λ x, 0.5 * (- x) + 0.5)
            (depth2normals depth focal princpt)))
      (map4 (λ a, (1.0 - a) * 0.5) alpha) in
  Some (<["depth_nml" := depth_nml]> diag).

Definition __call__ (preds batch : gmap string value)
  : option (gmap string (list (list (list Z)))) :=
  diag ← images preds batch;
  Some (fmap (M:=gmap string) to_uint8 diag).
(** Keys of the predictions read on every call. *)
Definition required_keys : list string :=
  ["diff_color"; "spec_color"; "opacity"; "spec_nml"; "sigma"; "spec_vis";
   "headrel_light_sh"; "rgb"; "alpha"; "depth"].

(** Keys written on every call. *)
Definition fixed_keys : list string :=
  ["opacity_slab"; "spec_rough_slab"; "spec_vis_slab"; "spec_normal_slab";
   "spec_slab"; "diff_sh_slab"; "sh_slab"; "light_sh"; "render"; "alpha";
   "depth_nml"].
End call.
End RGCASummary.

(** ** The test driver (ca_code/scripts/run_test.py) *)
Module run_test.

(** Exceptions seen by [main]: its own [ValueError], a missing
    configuration key, and whatever a collaborator raises. *)
Inductive exception : Type :=
  | ValueError (msg : string)
  | ConfigKeyError (key : string)
  | Raised (source : string).

Inductive result (A : Type) : Type :=
  | Ok (a : A)
  | Raise (e : exception).
Arguments Ok {A} a.
Arguments Raise {A} e.

(** The configuration read by [main]: the sections it passes on whole,
    and the two it looks into ([test_] is [config.test]). *)
Record DictConfig (cfg : Type) : Type := {
  data : cfg;
  model : cfg;
  loss : cfg;
  dataloader : gmap string cfg;
  test_ : gmap string cfg;
  summary : cfg
}.
Arguments data {cfg} _.
Arguments model {cfg} _.
Arguments loss {cfg} _.
Arguments dataloader {cfg} _.
Arguments test_ {cfg} _.
Arguments summary {cfg} _.

(** The collaborators of [main]: configuration values, the objects the
    loaders build, and the outside world (files, device, model weights)
    on which every call acts and may fail.  [to_device] is
    [module.to(device)] for the CUDA device of line 30, which fails on a
    machine without one; [eval_mode] is [module.eval()], which only
    clears the training flag. *)
Class Env := {
  cfg : Type;
  obj : Type;
  world : Type;
  BodyDataset : cfg → world → result obj * world;
  load_from_config : cfg → option obj → world → result obj * world;
  DataLoader :
    obj → bool → gmap string cfg → world → result obj * world;
  load_checkpoint : cfg → obj → world → result unit * world;
  test :
    ∀ (model loss_fn test_loader : obj) (config : DictConfig cfg)
      (summary_fn batch_filter_fn : obj), world → result unit * world;
  static_assets : obj → obj;
  batch_filter : obj → obj;
  to_device : obj → world → result obj * world;
  eval_mode : obj → obj;
  set_attr : obj → string → bool → world → world;
  false_cfg : cfg
}.

Section main.
Context `{Env}.

(** What [main] observably does, in order. *)
Inductive event : Type :=
  | EvBodyDataset (c : cfg)
  | EvLoadFromConfig (c : cfg)
  | EvToDevice (o : obj)
  | EvDataLoader (dataset : obj)
  | EvLog (what : string)
  | EvLoadCheckpoint (ckpt : cfg) (model : obj)
  | EvSetAttr (o : obj) (attr : string)
  | EvTest (model loss_fn test_loader summary_fn : obj).

Record state : Type := { outside : world; trace : list event }.

(** Exceptions over a threaded state. *)
Definition M (A : Type) : Type := state → result A * state.

Definition ret {A} (a : A) : M A := λ s, (Ok a, s).
Definition raise {A} (e : exception) : M A := λ s, (Raise e, s).
Definition bind {A B} (m : M A) (k : A → M B) : M B :=
  λ s, match m s with
       | (Ok a, s') => k a s'
       | (Raise e, s') => (Raise e, s')
       end.

(** A call to a collaborator, recorded in the trace before it runs. *)
Definition invoke {A} (ev : event) (f : world → result A * world) : M A :=
  λ s, let '(r, w) := f (outside s) in
       (r, {| outside := w; trace := trace s ++ [ev] |}).
Definition log (what : string) : M unit :=
  invoke (EvLog what) (λ w, (Ok tt, w)).

(** [config.test.<key>] *)
Definition test_entry (config : DictConfig cfg) (key : string) : M cfg :=
  match test_ config !! key with
  | Some c => ret c
  | None => raise (ConfigKeyError key)
  end.

(** Everything [main] builds before it looks for the checkpoint. *)
Definition setup (config : DictConfig cfg) : M (obj * obj * obj) :=
  bind (invoke (EvBodyDataset (data config)) (BodyDataset (data config)))
    (λ train_dataset,
  let batch_filter_fn := batch_filter train_dataset in
  let static_assets := static_assets train_dataset in
  bind (invoke (EvLoadFromConfig (model config))
          (load_from_config (model config) (Some static_assets)))
    (λ model,
  bind (invoke (EvToDevice model) (to_device model))
    (λ model,
  let model := eval_mode model in
  bind (invoke (EvLoadFromConfig (loss config))
          (load_from_config (loss config) (Some static_assets)))
    (λ loss_fn,
  bind (invoke (EvToDevice loss_fn) (to_device loss_fn))
    (λ loss_fn,
  bind (invoke (EvDataLoader train_dataset)
          (DataLoader train_dataset false (dataloader config)))
    (λ train_loader, ret (batch_filter_fn, model, loss_fn))))))).

(** The checkpoint gate. *)
Definition load_ckpt (config : DictConfig cfg) (model : obj) : M unit :=
  if decide ("ckpt" ∈ dom (test_ config)) then
    bind (log "loading checkpoint")
      (λ _,
    bind (test_entry config "ckpt")
      (λ ckpt,
    invoke (EvLoadCheckpoint ckpt model) (load_checkpoint ckpt model)))
  else raise (ValueError "No checkpoint provided").

(** [config] after [config.dataloader] has been assigned to. *)
Definition with_dataloader (config : DictConfig cfg)
    (dataloader : gmap string cfg) : DictConfig cfg :=
  {| data := data config; model := model config; loss := loss config;
     dataloader := dataloader; test_ := test_ config;
     summary := summary config |}.

(** The test run proper. *)
Definition run (config : DictConfig cfg) (batch_filter_fn model loss_fn : obj)
  : M unit :=
  bind (log "starting test with the config:")
    (λ _,
  bind (log "config")
    (λ _,
  bind (test_entry config "data")
    (λ test_data,
  bind (invoke (EvBodyDataset test_data) (BodyDataset test_data))
    (λ test_dataset,
  let dataloader := <["shuffle" := false_cfg]> (dataloader config) in
  bind (invoke (EvDataLoader test_dataset)
          (DataLoader test_dataset true dataloader))
    (λ test_loader,
  bind (invoke (EvSetAttr model "learn_blur_enabled")
          (λ w, (Ok tt, set_attr model "learn_blur_enabled" false w)))
    (λ _,
  bind (invoke (EvSetAttr model "cal_enabled")
          (λ w, (Ok tt, set_attr model "cal_enabled" false w)))
    (λ _,
  bind (invoke (EvLoadFromConfig (summary config))
          (load_from_config (summary config) None))
    (λ summary_fn,
  invoke (EvTest model loss_fn test_loader summary_fn)
    (test model loss_fn test_loader (with_dataloader config dataloader)
       summary_fn batch_filter_fn))))))))).

Definition main (config : DictConfig cfg) : M unit :=
  bind (setup config)
    (λ '(batch_filter_fn, model, loss_fn),
  bind (load_ckpt config model)
    (λ _, run config batch_filter_fn model loss_fn)).

(** An event that starts the processing of test batches. *)
Definition is_test (ev : event) : Prop :=
  match ev with EvTest _ _ _ _ => True | _ => False end.

(** A computation that only appends events of some kind to the
    trace. *)
Definition appends {A} (P : event → Prop) (m : M A) : Prop :=
  ∀ s, ∃ evs, trace (m s).2 = trace s ++ evs ∧ Forall P evs.
(** A trace without test events, and the last four events of a run that
    reaches the test. *)
Definition quiet (evs : list event) : Prop :=
  Forall (λ ev, ¬ is_test ev) evs.
Definition test_tail (config : DictConfig cfg) (m l tl sf : obj)
  : list event :=
  [EvSetAttr m "learn_blur_enabled"; EvSetAttr m "cal_enabled";
   EvLoadFromConfig (summary config); EvTest m l tl sf].

(** The state in which [load_checkpoint] has just been called on
    [model] and has left the world [w], and the events of a test run in
    which every collaborator returns. *)
Definition loaded (s : state) (ckpt : cfg) (model : obj) (w : world)
  : state :=
  {| outside := w;
     trace := trace s ++ [EvLog "loading checkpoint";
                          EvLoadCheckpoint ckpt model] |}.
Definition run_events (config : DictConfig cfg) (test_data : cfg)
    (test_dataset m l tl sf : obj) : list event :=
  [EvLog "starting test with the config:"; EvLog "config";
   EvBodyDataset test_data; EvDataLoader test_dataset]
    ++ test_tail config m l tl sf.
End main.
End run_test.

(** ** A one-Gaussian, one-pixel configuration

    Concrete collaborators and inputs on which the model can be run: one
    batch element, one light, one Gaussian, a [1 x 1] image, and
    spherical harmonics of degree zero.  The networks are constant (all
    weights zero, the bias as given). *)
Module Samples.
Import torch.
Local Open Scope R_scope.

Definition rasterizer : Rasterizer := {|
  render_gs := λ w h fx fy cx cy Rt pp pq ps op col,
    <["render" := [[[fx]]; [[fy]]; [[cx]]]]>
      (<["final_T" := [[[0.25]]]]> (<["depth" := [[[2]]]]> ∅))
|}.

Definition K : list mat := [[[1; 0; 2]; [0; 1; 3]; [0; 0; 1]]].
Definition Rt : list mat := [[[1; 0; 0; 0]; [0; 1; 0; 0]; [0; 0; 1; 0]]].
Definition prims : gmap string value :=
  <["primpos" := V3 [[[0; 0; 1]]]]>
  (<["primqvec" := V3 [[[1; 0; 0; 0]]]]>
  (<["primscale" := V3 [[[1; 1; 1]]]]>
  (<["opacity" := V3 [[[0.5]]]]>
  (<["color" := V3 [[[1; 1; 1]]]]> ∅)))).

Definition random : Random := {|
  rng := nat;
  randn_like := λ t g, (bmap2 (λ _, 1) t, S g)
|}.

Definition encoder : Encoder.Self := {|
  Encoder.geommod := λ x, x;
  Encoder.texmod := λ x, x;
  Encoder.jointmod := λ _, [[1]];
  Encoder.mean := λ x, x;
  Encoder.logvar := λ x, x;
  Encoder.noise_std := 1.0;
  Encoder.mean_scale := 0.1;
  Encoder.logvar_scale := 0.01
|}.

Definition geomdecoder : GeomDecoder.Self := {|
  GeomDecoder.geommod := λ e, (λ _, [0; 0; 0]) <$> e;
  GeomDecoder.verts_std := 1;
  GeomDecoder.verts_mean := [[[0; 0; 0]]]
|}.

(** A [C, 1, 1] feature map with the given channel values. *)
Definition pixel_map (chans : vec) : image := (λ x, [[x]]) <$> chans.

(** A decoder whose two networks return the given channels for the
    single Gaussian: three diffuse coefficients, eleven Gaussian
    parameters and the roughness; visibility and normal offset. *)
Definition decoder (chans vchans : vec) : PrimDecoder.Self := {|
  PrimDecoder.to_uv := λ g, (λ _, pixel_map [0; 0; 1]) <$> g;
  PrimDecoder.vn := λ g, g;
  PrimDecoder.viewmod := λ c, (λ _, replicate 8 0) <$> c;
  PrimDecoder.encmod := λ e, e;
  PrimDecoder.vnocond_mod := λ _, [pixel_map chans];
  PrimDecoder.vcond_mod := λ _, [pixel_map vchans];
  PrimDecoder.diff_sh_degree := 0;
  PrimDecoder.color_sh_degree := 0;
  PrimDecoder.albedo := [[[0.5; 0.5; 0.5]]];
  PrimDecoder.sh_degrees := le_n 0
|}.

(** Channels with a unit quaternion, and with a zero quaternion. *)
Definition channels : vec :=
  [1; 1; 1;  0; 0; 0;  1; 0; 0; 0;  0; 0; 0;  0;  0].
Definition vchannels : vec := [0; 0; 0; 1].

Definition sh : SH := {|
  dir2sh := λ n d, replicate ((n + 1) ^ 2) 1;
  dir2sh_length := λ n d, length_replicate ((n + 1) ^ 2) 1
|}.

Definition shading : Shading := {|
  envmap := unit;
  dir2uv := λ dirs _, fmap (M:=list) (take 2) <$> dirs;
  mipmap_grid_sample := λ _ uv _,
    (λ uvb : image, replicate 3 ((λ _ : mat, [2]) <$> uvb)) <$> uv;
  evaluate_gaussian := λ ref_dirs _ _ _ _ _ _, ref_dirs
|}.

Definition autoencoder : AutoEncoder.Self := {|
  AutoEncoder.height := 1;
  AutoEncoder.width := 1;
  AutoEncoder.n_diff_sh := 0;
  AutoEncoder.cal_enabled := false;
  AutoEncoder.cal := λ rgb _, rgb;
  AutoEncoder.learn_blur_enabled := false;
  AutoEncoder.learn_blur := λ rgb _, rgb;
  AutoEncoder.learn_blur_reg := λ _, V2 [];
  AutoEncoder._rasterize_facew := λ _ _ _ _, ([], [])
|}.

Definition head_pose : list mat :=
  [[[0; -1; 0; 1]; [1; 0; 0; 2]; [0; 0; 1; 3]]].
Definition campos : list vec := [[1; 2; 8]].
Definition campos_at_gaussian : list vec := [[0; 0; 1]].
Definition light_pos : list mat := [[[1; 4; 3]]].
Definition light_intensity : list mat := [[[2]]].
Definition registration_vertices : list mat := [[[0; 0; 0]]].
Definition color : list image := [[[[128]]; [[128]]; [[128]]]].
Definition embs : list vec := [[0.1]].
Definition geom : list mat := [[[0; 0; 0]]].
Definition lightrot : list mat := [[[1; 0; 0]; [0; 1; 0]; [0; 0; 1]]].
Definition n_lights : list Z := [1%Z].
Definition headrel_light_pos : list mat := [[[2; 0; 0]]].
Definition headrel_light_sh : list mat := [[[2]; [2]; [2]]].

(** A quarter turn about the vertical axis and a shift. *)
Definition turn : mat := [[0; 0; 1]; [0; 1; 0]; [-1; 0; 0]].
Definition shift : vec := [5; 6; 7].

Definition imaging : Imaging := {|
  linear2srgb := λ t, t;
  scale_diff_image := λ t, map4 (λ x, x * 0.5 + 0.5) t;
  depth2normals := λ depth _ _, depth;
  eval_sh := λ _ light_sh _, [];
  make_grid := λ t _, concat t
|}.

Definition summary_preds : gmap string value :=
  <["diff_color" := V3 [[[1; 1; 1]]]]>
  (<["spec_color" := V3 [[[0; 0; 0]]]]>
  (<["opacity" := V3 [[[0.5]]]]>
  (<["spec_nml" := V3 [[[0; 0; 1]]]]>
  (<["sigma" := V2 [[0.1]]]>
  (<["spec_vis" := V3 [[[1]]]]>
  (<["headrel_light_sh" := V3 [[[1]; [1]; [1]]]]>
  (<["rgb" := V4 [[[[0.75]]; [[0.5]]; [[0.25]]]]]>
  (<["alpha" := V4 [[[[1]]]]]>
  (<["depth" := V4 [[[[2]]]]]> ∅))))))))).
Definition summary_batch : gmap string value :=
  <["image" := V4 [[[[0.5]]; [[0.5]]; [[0.5]]]]]>
  (<["focal" := V2 [[1; 1]]]> (<["princpt" := V2 [[0; 0]]]> ∅)).

(** A test environment in which every collaborator succeeds. *)
Definition env : run_test.Env := {|
  run_test.cfg := string;
  run_test.obj := string;
  run_test.world := nat;
  run_test.BodyDataset := λ c w, (run_test.Ok c, S w);
  run_test.load_from_config := λ c _ w, (run_test.Ok c, S w);
  run_test.DataLoader := λ ds _ _ w, (run_test.Ok ds, S w);
  run_test.load_checkpoint := λ _ _ w, (run_test.Ok tt, S w);
  run_test.test := λ _ _ _ _ _ _ w, (run_test.Ok tt, S w);
  run_test.static_assets := λ o, o;
  run_test.batch_filter := λ o, o;
  run_test.to_device := λ o w, (run_test.Ok o, S w);
  run_test.eval_mode := λ o, o;
  run_test.set_attr := λ _ _ _ w, w;
  run_test.false_cfg := "False"
|}.

Definition config (test_ : gmap string string)
  : run_test.DictConfig string :=
  run_test.Build_DictConfig string "data" "model" "loss" ∅ test_ "summary".
Definition without_ckpt : gmap string string := <["data" := "test data"]> ∅.
Definition with_ckpt : gmap string string :=
  <["ckpt" := "weights"]> (<["data" := "test data"]> ∅).
Definition start : run_test.state (H:=env) :=
  @run_test.Build_state env 0%nat [].

(** The same environment on a machine without a CUDA device. *)
Definition no_device_env : run_test.Env := {|
  run_test.cfg := string;
  run_test.obj := string;
  run_test.world := nat;
  run_test.BodyDataset := λ c w, (run_test.Ok c, S w);
  run_test.load_from_config := λ c _ w, (run_test.Ok c, S w);
  run_test.DataLoader := λ ds _ _ w, (run_test.Ok ds, S w);
  run_test.load_checkpoint := λ _ _ w, (run_test.Ok tt, S w);
  run_test.test := λ _ _ _ _ _ _ w, (run_test.Ok tt, S w);
  run_test.static_assets := λ o, o;
  run_test.batch_filter := λ o, o;
  run_test.to_device := λ o w,
    (run_test.Raise (run_test.Raised "no CUDA device"), w);
  run_test.eval_mode := λ o, o;
  run_test.set_attr := λ _ _ _ w, w;
  run_test.false_cfg := "False"
|}.
Definition no_device_start : run_test.state (H:=no_device_env) :=
  @run_test.Build_state no_device_env 0%nat [].
(** A mesh renderer that shows one normal facing away from the camera
    with face weight one half, and a background. *)
Definition faceweight : FaceWeight.Self := {|
  FaceWeight.bg_weight := 1.0;
  FaceWeight.face_weight := [[[1]]];
  FaceWeight.mesh_renderer := λ _ _ _ _,
    <["render" := [[[[0]]; [[0]]; [[1]]; [[0.5]]]]]>
      (<["mask" := [[[[1]]]]]> ∅);
  FaceWeight.dilate := λ t _, (λ _ : image, [[[0]]]) <$> t
|}.
Definition background : list image := [[[[0]]; [[0]]; [[0]]]].
Definition geom_preds : gmap string value :=
  <["geom" := V3 geom]> ∅.
End Samples.

(** Unfolding the frame changes down to sums of products. *)
Ltac unfold_frames :=
  unfold AutoEncoder.headrel, AutoEncoder.move_pose, AutoEncoder.move_point,
    AutoEncoder.head_pose_4x4, AutoEncoder.translation,
    AutoEncoder.rotation, torch.matmul, torch.matvec, torch.vecmat,
    torch.transpose, torch.dot; simpl.

(** A disjunction one of whose leaves holds by computation. *)
Ltac some_disjunct :=
  first [ reflexivity | left; some_disjunct | right; some_disjunct ].

(** * Properties *)

Section render_facts.
Import torch AutoEncoder.
Context `{Rasterizer}.
Variables (width height : Z).
Local Open Scope R_scope.

Lemma render_loop_inv K Rt preds bs : ∀ rgbs Ts depths rgbs' Ts' depths',
  render_loop width height K Rt preds bs rgbs Ts depths
    = Some (rgbs', Ts', depths') →
  ∃ rs ts ds,
    rgbs' = rgbs ++ rs ∧ Ts' = Ts ++ ts ∧ depths' = depths ++ ds ∧
    length rs = length bs ∧ length ts = length bs ∧
    length ds = length bs ∧
    ∀ i b, bs !! i = Some b →
      ∃ r T d, splat width height K Rt preds b r T d ∧
               rs !! i = Some r ∧ ts !! i = Some T ∧ ds !! i = Some d.
Proof.
  induction bs as [|b bs IH]; intros rgbs Ts depths rgbs' Ts' depths' Hl.
  - simpl in Hl. injection Hl as <- <- <-.
    exists [], [], []. rewrite !app_nil_r. repeat split; auto.
    intros i b Hi. rewrite lookup_nil in Hi. discriminate.
  - simpl in Hl.
    destruct (render_output width height K Rt preds b) as [out|] eqn:Hout;
      [|discriminate]. simpl in Hl.
    destruct (out !! "render") as [r|] eqn:Hr; [|discriminate]. simpl in Hl.
    destruct (out !! "final_T") as [T|] eqn:HT; [|discriminate]. simpl in Hl.
    destruct (out !! "depth") as [d|] eqn:Hd; [|discriminate]. simpl in Hl.
    apply IH in Hl as (rs & ts & ds & -> & -> & -> & Lr & Lt & Ld & Hi).
    exists (r :: rs), (T :: ts), (d :: ds).
    rewrite <- !app_assoc. simpl. rewrite Lr, Lt, Ld.
    repeat split; auto.
    intros [|i] b' Hb'; simpl in Hb'.
    + injection Hb' as <-. exists r, T, d. repeat split; auto.
      exists out. auto.
    + apply Hi in Hb'. exact Hb'.
Qed.

Lemma render_loop_total K Rt preds bs : ∀ rgbs Ts depths,
  (∀ b, b ∈ bs → ∃ r T d, splat width height K Rt preds b r T d) →
  is_Some (render_loop width height K Rt preds bs rgbs Ts depths).
Proof.
  induction bs as [|b bs IH]; intros rgbs Ts depths Hall; simpl.
  - eauto.
  - destruct (Hall b) as (r & T & d & out & -> & Hr & HT & Hd);
      [left|]. simpl. rewrite Hr, HT, Hd. simpl.
    apply IH. intros b' Hb'. apply Hall. now right.
Qed.

Lemma stack_Some ts : stack ts = Some ts ∨ stack ts = None.
Proof.
  destruct ts as [|t rest]; simpl; [now right|].
  destruct (decide _); [now left | now right].
Qed.

Lemma stack_inv ts ts' : stack ts = Some ts' → ts' = ts.
Proof. destruct (stack_Some ts) as [-> | ->]; congruence. Qed.

Lemma stack_uniform (sh : nat * nat * nat) ts :
  ts ≠ [] → Forall (λ t, dims t = sh) ts → stack ts = Some ts.
Proof.
  destruct ts as [|t rest]; [congruence|]. intros _ Hall. simpl.
  apply Forall_cons in Hall as [Ht Hrest].
  destruct (decide _) as [|Hn]; [reflexivity|]. exfalso. apply Hn.
  eapply Forall_impl; [exact Hrest|]. simpl. congruence.
Qed.

Lemma px3_map3 f (t : image) c i j :
  px3 (map3 f t) c i j = f <$> px3 t c i j.
Proof.
  unfold px3, map3. rewrite list_lookup_fmap.
  destruct (t !! c) as [plane|]; simpl; [|reflexivity].
  rewrite list_lookup_fmap.
  destruct (plane !! i) as [row|]; simpl; [|reflexivity].
  apply list_lookup_fmap.
Qed.

Lemma px3_zip3 f (s t : image) c i j x y :
  px3 s c i j = Some x → px3 t c i j = Some y →
  px3 (zip3 f s t) c i j = Some (f x y).
Proof.
  unfold px3, zip3. intros Hs Ht. rewrite lookup_zip_with.
  destruct (s !! c) as [ps|]; simpl in *; [|discriminate].
  destruct (t !! c) as [pt|]; simpl in *; [|discriminate].
  rewrite lookup_zip_with.
  destruct (ps !! i) as [rs|]; simpl in *; [|discriminate].
  destruct (pt !! i) as [rt|]; simpl in *; [|discriminate].
  rewrite lookup_zip_with, Hs, Ht. reflexivity.
Qed.

Lemma px3_zip3_inv f (s t : image) c i j v :
  px3 (zip3 f s t) c i j = Some v →
  ∃ x y, px3 s c i j = Some x ∧ px3 t c i j = Some y ∧ v = f x y.
Proof.
  unfold px3, zip3. rewrite lookup_zip_with.
  destruct (s !! c) as [ps|]; simpl; [|discriminate].
  destruct (t !! c) as [pt|]; simpl; [|discriminate].
  rewrite lookup_zip_with.
  destruct (ps !! i) as [rs|]; simpl; [|discriminate].
  destruct (pt !! i) as [rt|]; simpl; [|discriminate].
  rewrite lookup_zip_with.
  destruct (rs !! j) as [x|]; simpl; [|discriminate].
  destruct (rt !! j) as [y|]; simpl; [|discriminate].
  intros [= <-]. eauto.
Qed.

Lemma clamp_bounds lo hi x : lo <= hi → lo <= clamp lo hi x <= hi.
Proof.
  intros Hle. unfold clamp, Rmin, Rmax.
  repeat destruct (Rle_dec _ _); lra.
Qed.
End render_facts.

Section render_claims.
Import torch AutoEncoder.
Context `{Rasterizer}.
Variables (width height : Z).
Local Open Scope R_scope.

Lemma render_loop_seq K Rt preds n rgbs Ts depths :
  render_loop width height K Rt preds (seq 0 n) [] [] []
    = Some (rgbs, Ts, depths) →
  length rgbs = n ∧ length Ts = n ∧ length depths = n ∧
  ∀ b, (b < n)%nat →
    ∃ r T d, splat width height K Rt preds b r T d ∧
             rgbs !! b = Some r ∧ Ts !! b = Some T ∧ depths !! b = Some d.
Proof.
  intros Hl.
  apply render_loop_inv in Hl
    as (rs & ts & ds & -> & -> & -> & Lr & Lt & Ld & Hi).
  rewrite length_seq in Lr, Lt, Ld. simpl. repeat split; auto.
  intros b Hb. apply (Hi b b). now apply lookup_seq.
Qed.

(** C1. [AutoEncoder.render] returns, on every batch it accepts, one
    image per batch element: rgb is the rasteriser's "render" output,
    alpha is one minus its "final_T", and every depth pixel is the
    rasteriser's raw depth divided by alpha clamped to [0.05, 1.0];
    the three results are stacked along the batch dimension.  The call
    returns whenever the batch is non-empty, indexable and the
    rasteriser's outputs have uniform sizes. *)
Theorem render_stacks_rgb_alpha_depth K Rt preds :
  (render_ready width height K Rt preds →
   is_Some (render width height K Rt preds)) ∧
  (∀ rgb alpha depth,
     render width height K Rt preds = Some (rgb, alpha, depth) →
     length rgb = length K ∧ length alpha = length K ∧
     length depth = length K ∧
     ∀ b, (b < length K)%nat →
       ∃ r T d, splat width height K Rt preds b r T d ∧
         rgb !! b = Some r ∧
         alpha !! b = Some (map3 (λ t, 1.0 - t) T) ∧
         ∀ c i j x t, px3 d c i j = Some x → px3 T c i j = Some t →
           px depth b c i j = Some (x / clamp 0.05 1.0 (1.0 - t))).
Proof.
  split.
  - intros (HB & sr & sT & sd & Hall). unfold render.
    destruct (render_loop_total width height K Rt preds
                (seq 0 (length K)) [] [] []) as [[[rgbs Ts] depths] Hl].
    { intros b Hb. apply elem_of_seq in Hb.
      destruct (Hall b) as (r & T & d & Hs & _); [lia|]. eauto. }
    rewrite Hl. simpl.
    apply render_loop_seq in Hl as (Lr & Lt & Ld & Hi).
    assert (Hne : ∀ l : list image, length l = length K → l ≠ []).
    { intros l Hlen ->. simpl in Hlen. lia. }
    rewrite (stack_uniform sr rgbs), (stack_uniform sd depths),
      (stack_uniform sT Ts); simpl; eauto.
    all: apply Forall_lookup; intros b t Hb.
    all: assert (Hlt : (b < length K)%nat)
      by (apply lookup_lt_Some in Hb; congruence).
    all: destruct (Hi b Hlt) as (r & T & d & (out & Ho & Hr & HT & Hd)
                                   & Er & Et & Ed).
    all: destruct (Hall b Hlt) as (r' & T' & d' & (out' & Ho' & Hr' & HT' & Hd')
                                    & Dr & Dt & Dd).
    all: congruence.
  - intros rgb alpha depth Hr. unfold render in Hr.
    destruct (render_loop _ _ _ _ _ _ _ _ _) as [[[rgbs Ts] depths]|] eqn:Hl;
      [|discriminate]. simpl in Hr.
    destruct (stack rgbs) as [rgb0|] eqn:S1; [|discriminate]. simpl in Hr.
    destruct (stack depths) as [depth0|] eqn:S2; [|discriminate].
    simpl in Hr.
    destruct (stack Ts) as [sT|] eqn:S3; [|discriminate]. simpl in Hr.
    apply stack_inv in S1, S2, S3. subst rgb0 depth0 sT.
    injection Hr as <- <- <-.
    apply render_loop_seq in Hl as (Lr & Lt & Ld & Hi).
    unfold depth_divisor.
    rewrite length_zip_with, !length_fmap, Lt, Ld.
    repeat split; auto; [lia|].
    intros b Hb. destruct (Hi b Hb) as (r & T & d & Hs & Er & Et & Ed).
    exists r, T, d. repeat split; auto.
    + rewrite list_lookup_fmap, Et. reflexivity.
    + intros c i j x t Hx Ht. unfold px.
      rewrite lookup_zip_with, Ed, !list_lookup_fmap, Et. simpl.
      change (px3 (zip3 Rdiv d
                (map3 (clamp 0.05 1.0) (map3 (λ t0, 1.0 - t0) T))) c i j
              = Some (x / clamp 0.05 1.0 (1.0 - t))).
      apply px3_zip3; [exact Hx|].
      rewrite !px3_map3, Ht. reflexivity.
Qed.

Lemma depth_divisor_px (alpha : list image) b c i j :
  px (depth_divisor alpha) b c i j
    = clamp 0.05 1.0 <$> px alpha b c i j.
Proof.
  unfold px, depth_divisor. rewrite list_lookup_fmap.
  destruct (alpha !! b) as [img|]; simpl; [|reflexivity].
  apply (px3_map3 (clamp 0.05 1.0) img).
Qed.

(** C8. In [AutoEncoder.render] every pixel of the returned depth is
    the rasteriser's raw depth at that pixel divided by the returned
    alpha (one minus the rasteriser's transmittance) clamped to
    [0.05, 1.0]; that divisor is at least 0.05 (and at most 1.0), hence
    never zero, whatever transmittance the rasteriser produced. *)
Theorem depth_divisor_bounded_below K Rt preds rgb alpha depth b c i j v :
  render width height K Rt preds = Some (rgb, alpha, depth) →
  px depth b c i j = Some v →
  ∃ r T d x t q,
    splat width height K Rt preds b r T d ∧
    px3 d c i j = Some x ∧ px3 T c i j = Some t ∧
    px alpha b c i j = Some (1.0 - t) ∧
    px (depth_divisor alpha) b c i j = Some q ∧
    q = clamp 0.05 1.0 (1.0 - t) ∧ 0.05 <= q <= 1.0 ∧ q ≠ 0 ∧
    v = x / q.
Proof.
  intros Hr Hv. unfold render in Hr.
  destruct (render_loop _ _ _ _ _ _ _ _ _) as [[[rgbs Ts] depths]|] eqn:Hl;
    [|discriminate]. simpl in Hr.
  destruct (stack rgbs) as [rgb0|] eqn:S1; [|discriminate]. simpl in Hr.
  destruct (stack depths) as [depth0|] eqn:S2; [|discriminate].
  simpl in Hr.
  destruct (stack Ts) as [sT|] eqn:S3; [|discriminate]. simpl in Hr.
  apply stack_inv in S1, S2, S3. subst rgb0 depth0 sT.
  injection Hr as <- <- <-.
  apply render_loop_seq in Hl as (Lr & Lt & Ld & Hi).
  set (alpha := map3 (λ t, 1.0 - t) <$> Ts) in *.
  unfold px in Hv. rewrite lookup_zip_with in Hv.
  destruct (depths !! b) as [d|] eqn:Ed; simpl in Hv; [|discriminate].
  destruct (depth_divisor alpha !! b) as [qs|] eqn:Eq; simpl in Hv;
    [|discriminate].
  assert (Hb : (b < length K)%nat)
    by (apply lookup_lt_Some in Ed; congruence).
  destruct (Hi b Hb) as (r & T & d' & Hs & Er & Et & Ed').
  rewrite Ed in Ed'. injection Ed' as <-.
  apply px3_zip3_inv in Hv as (x & q & Hx & Hq & ->).
  assert (Eal : alpha !! b = Some (map3 (λ t, 1.0 - t) T))
    by (unfold alpha; rewrite list_lookup_fmap, Et; reflexivity).
  unfold depth_divisor in Eq. rewrite list_lookup_fmap, Eal in Eq.
  simpl in Eq. injection Eq as <-.
  rewrite !px3_map3 in Hq.
  destruct (px3 T c i j) as [t|] eqn:Ht; [|discriminate].
  simpl in Hq. injection Hq as <-.
  pose proof (clamp_bounds 0.05 1.0 (1.0 - t) ltac:(lra)) as Hbd.
  exists r, T, d, x, t, (clamp 0.05 1.0 (1.0 - t)).
  split; [exact Hs|]. split; [exact Hx|]. split; [exact Ht|].
  split.
  { unfold px. rewrite Eal. cbn [mbind option_bind].
    change (px3 (map3 (λ t0, 1.0 - t0) T) c i j = Some (1.0 - t)).
    rewrite px3_map3, Ht. reflexivity. }
  split.
  { unfold px, depth_divisor. rewrite list_lookup_fmap, Eal.
    cbn [fmap option_fmap option_map mbind option_bind].
    change (px3 (map3 (clamp 0.05 1.0) (map3 (λ t0, 1.0 - t0) T)) c i j
            = Some (clamp 0.05 1.0 (1.0 - t))).
    rewrite !px3_map3, Ht. reflexivity. }
  repeat split; auto; lra.
Qed.
End render_claims.

Section encoder_claims.
Import torch.
Context `{Encoder.Self} `{Random}.
Local Open Scope R_scope.

(** Entry [t[b, k]] of a batch of rows. *)
Lemma bmap2_lookup f (t : list vec) b k :
  at2 (bmap2 f t) b k = f <$> at2 t b k.
Proof.
  unfold at2, bmap2. rewrite list_lookup_fmap.
  destruct (t !! b) as [row|]; simpl; [|reflexivity].
  apply list_lookup_fmap.
Qed.

Lemma bzip2_lookup f (s t : list vec) b k x y :
  at2 s b k = Some x → at2 t b k = Some y →
  at2 (bzip2 f s t) b k = Some (f x y).
Proof.
  unfold at2, bzip2. intros Hs Ht. rewrite lookup_zip_with.
  destruct (s !! b) as [rs|]; simpl in *; [|discriminate].
  destruct (t !! b) as [rt|]; simpl in *; [|discriminate].
  rewrite lookup_zip_with, Hs, Ht. reflexivity.
Qed.

Lemma add_noise_lookup (mu logvar noise : list vec) b k m l z :
  at2 mu b k = Some m → at2 logvar b k = Some l →
  at2 noise b k = Some z →
  at2 (Encoder.add_noise mu logvar noise) b k
    = Some (m + exp l * z * Encoder.noise_std).
Proof.
  intros Hm Hl Hz. unfold Encoder.add_noise.
  apply bzip2_lookup; [exact Hm|].
  rewrite bmap2_lookup.
  rewrite (bzip2_lookup Rmult _ _ b k (exp l) z); [reflexivity| |exact Hz].
  rewrite bmap2_lookup, Hl. reflexivity.
Qed.

(** C7. In eval mode [Encoder.forward] returns [embs] equal to
    [embs_mu], draws nothing from the random generator, and its three
    outputs do not depend on the generator's state, so two runs on the
    same geometry and colour agree; in training mode every entry of
    [embs] is the mean plus [exp(embs_logvar)] times the drawn noise
    times [noise_std]. *)
Theorem eval_mode_returns_mean geom color :
  (∀ g, (Encoder.forward false geom color g).1 !! "embs"
        = (Encoder.forward false geom color g).1 !! "embs_mu" ∧
        (Encoder.forward false geom color g).2 = g) ∧
  (∀ g1 g2, (Encoder.forward false geom color g1).1
            = (Encoder.forward false geom color g2).1) ∧
  (∀ g, ∃ mu logvar embs,
      (Encoder.forward true geom color g).1 !! "embs_mu" = Some (V2 mu) ∧
      (Encoder.forward false geom color g).1 !! "embs_mu" = Some (V2 mu) ∧
      (Encoder.forward true geom color g).1 !! "embs_logvar"
        = Some (V2 logvar) ∧
      (Encoder.forward true geom color g).1 !! "embs" = Some (V2 embs) ∧
      (Encoder.forward true geom color g).2 = (randn_like mu g).2 ∧
      ∀ b k m l z,
        at2 mu b k = Some m → at2 logvar b k = Some l →
        at2 (randn_like mu g).1 b k = Some z →
        at2 embs b k = Some (m + exp l * z * Encoder.noise_std)).
Proof.
  split; [|split].
  - intros g. unfold Encoder.forward. cbn [fst snd].
    split; [|reflexivity]. by simplify_map_eq.
  - intros g1 g2. reflexivity.
  - intros g.
    exists (Encoder.embs_mu geom color), (Encoder.embs_logvar geom color).
    eexists. unfold Encoder.forward. cbn [fst snd].
    split; [by simplify_map_eq|]. split; [by simplify_map_eq|].
    split; [by simplify_map_eq|]. split; [by simplify_map_eq|].
    split; [reflexivity|]. apply add_noise_lookup.
Qed.
End encoder_claims.

Section head_frame.
Import torch AutoEncoder.
Local Open Scope R_scope.

Lemma dot_comm (u v : vec) : dot u v = dot v u.
Proof.
  unfold dot, sum. revert v.
  induction u as [|x u IH]; intros [|y v]; simpl; try reflexivity.
  rewrite IH. apply (f_equal (λ r, r + _)). apply Rmult_comm.
Qed.

(** Row vector times a matrix is the transposed matrix times the
    vector. *)
Lemma vecmat_transpose (v : vec) (m : mat) :
  vecmat v m = matvec (transpose m) v.
Proof.
  unfold vecmat, matvec. apply list_fmap_ext. intros i col _.
  apply dot_comm.
Qed.

(** Explicit entries of tensors of a known small shape. *)
Lemma length_3 (v : vec) : length v = 3%nat → ∃ x y z, v = [x; y; z].
Proof. destruct v as [|x [|y [|z [|]]]]; intros; simplify_eq/=; eauto. Qed.

Lemma is_mat_3_3 (m : mat) : is_mat 3 3 m →
  ∃ q1 q2 q3 q4 q5 q6 q7 q8 q9,
    m = [[q1; q2; q3]; [q4; q5; q6]; [q7; q8; q9]].
Proof.
  intros [Hl Hr].
  destruct m as [|r1 [|r2 [|r3 [|]]]]; try discriminate.
  repeat (apply Forall_cons in Hr as [? Hr]).
  destruct (length_3 r1) as (? & ? & ? & ->); [done|].
  destruct (length_3 r2) as (? & ? & ? & ->); [done|].
  destruct (length_3 r3) as (? & ? & ? & ->); [done|].
  repeat eexists.
Qed.

Lemma is_mat_3_4 (m : mat) : is_mat 3 4 m →
  ∃ a b c t1 d e f t2 g h i t3,
    m = [[a; b; c; t1]; [d; e; f; t2]; [g; h; i; t3]].
Proof.
  intros [Hl Hr].
  destruct m as [|r1 [|r2 [|r3 [|]]]]; try discriminate.
  repeat (apply Forall_cons in Hr as [? Hr]).
  destruct r1 as [|? [|? [|? [|? [|]]]]]; simplify_eq/=.
  destruct r2 as [|? [|? [|? [|? [|]]]]]; simplify_eq/=.
  destruct r3 as [|? [|? [|? [|? [|]]]]]; simplify_eq/=.
  repeat eexists.
Qed.

(** A matrix with orthonormal columns preserves dot products. *)
Lemma orth_dot q1 q2 q3 q4 q5 q6 q7 q8 q9 u1 u2 u3 v1 v2 v3 :
  matmul (transpose [[q1; q2; q3]; [q4; q5; q6]; [q7; q8; q9]])
    [[q1; q2; q3]; [q4; q5; q6]; [q7; q8; q9]] = identity3 →
  (q1 * u1 + q2 * u2 + q3 * u3) * (q1 * v1 + q2 * v2 + q3 * v3)
  + (q4 * u1 + q5 * u2 + q6 * u3) * (q4 * v1 + q5 * v2 + q6 * v3)
  + (q7 * u1 + q8 * u2 + q9 * u3) * (q7 * v1 + q8 * v2 + q9 * v3)
  = u1 * v1 + u2 * v2 + u3 * v3.
Proof.
  intros Hq.
  unfold matmul, vecmat, transpose, dot, identity3 in Hq. simpl in Hq.
  injection Hq as E1 E2 E3 E4 E5 E6 E7 E8 E9.
  transitivity
    (u1 * v1 * (q1 * q1 + (q4 * q4 + (q7 * q7 + 0)))
     + u1 * v2 * (q1 * q2 + (q4 * q5 + (q7 * q8 + 0)))
     + u1 * v3 * (q1 * q3 + (q4 * q6 + (q7 * q9 + 0)))
     + u2 * v1 * (q2 * q1 + (q5 * q4 + (q8 * q7 + 0)))
     + u2 * v2 * (q2 * q2 + (q5 * q5 + (q8 * q8 + 0)))
     + u2 * v3 * (q2 * q3 + (q5 * q6 + (q8 * q9 + 0)))
     + u3 * v1 * (q3 * q1 + (q6 * q4 + (q9 * q7 + 0)))
     + u3 * v2 * (q3 * q2 + (q6 * q5 + (q9 * q8 + 0)))
     + u3 * v3 * (q3 * q3 + (q6 * q6 + (q9 * q9 + 0)))); [ring|].
  rewrite E1, E2, E3, E4, E5, E6, E7, E8, E9. ring.
Qed.

(** Moving head pose and point together leaves the head-relative
    position unchanged. *)
Lemma headrel_move (Q : mat) (s : vec) (hp : mat) (p : vec) :
  orthonormal Q → length s = 3%nat → is_mat 3 4 hp → length p = 3%nat →
  headrel (move_pose Q s hp) (move_point Q s p) = headrel hp p.
Proof.
  intros [HQ Ho] Hs Hhp Hp.
  destruct (is_mat_3_3 Q HQ)
    as (q1 & q2 & q3 & q4 & q5 & q6 & q7 & q8 & q9 & ->).
  destruct (length_3 s Hs) as (s1 & s2 & s3 & ->).
  destruct (length_3 p Hp) as (x & y & z & ->).
  destruct (is_mat_3_4 hp Hhp)
    as (a & b & c & t1 & d & e & f & t2 & g & h & i & t3 & ->).
  unfold_frames. f_equal. f_equal; [|f_equal; [|f_equal]].
  - pose proof (orth_dot _ _ _ _ _ _ _ _ _
                  (x - t1) (y - t2) (z - t3) a d g Ho). lra.
  - pose proof (orth_dot _ _ _ _ _ _ _ _ _
                  (x - t1) (y - t2) (z - t3) b e h Ho). lra.
  - pose proof (orth_dot _ _ _ _ _ _ _ _ _
                  (x - t1) (y - t2) (z - t3) c f i Ho). lra.
Qed.

(** The head-relative position of the world point with head-frame
    coordinates [x] is [x]. *)
Lemma headrel_of_head_point (hp : mat) (t x : vec) :
  is_mat 3 4 hp → orthonormal (rotation hp) → length x = 3%nat →
  translation hp = Some t →
  headrel hp (move_point (rotation hp) t x) = Some x.
Proof.
  intros Hhp [_ Ho] Hx Ht.
  destruct (length_3 x Hx) as (x1 & x2 & x3 & ->).
  destruct (is_mat_3_4 hp Hhp)
    as (a & b & c & t1 & d & e & f & t2 & g & h & i & t3 & ->).
  unfold translation in Ht. simpl in Ht. injection Ht as <-.
  unfold rotation in Ho. simpl in Ho.
  unfold_frames. f_equal. f_equal; [|f_equal; [|f_equal]].
  - pose proof (orth_dot _ _ _ _ _ _ _ _ _ x1 x2 x3 1 0 0 Ho). lra.
  - pose proof (orth_dot _ _ _ _ _ _ _ _ _ x1 x2 x3 0 1 0 Ho). lra.
  - pose proof (orth_dot _ _ _ _ _ _ _ _ _ x1 x2 x3 0 0 1 Ho). lra.
Qed.

Lemma translation_is_Some (hp : mat) :
  is_mat 3 4 hp → is_Some (translation hp).
Proof.
  intros Hhp.
  destruct (is_mat_3_4 hp Hhp)
    as (a & b & c & t1 & d & e & f & t2 & g & h & i & t3 & ->).
  unfold translation. simpl. eauto.
Qed.

Lemma headrel_formula (hp : mat) (p : vec) :
  headrel hp p
  = t ← translation hp;
    Some (matvec (transpose (rotation hp)) (zip_with Rminus p t)).
Proof.
  unfold headrel. destruct (translation hp) as [t|]; simpl; [|reflexivity].
  now rewrite vecmat_transpose.
Qed.

(** [mapM] over paired batches, when both batches are transformed. *)
Lemma mapM_zip_moved {A B C} (f : A * B → option C) (F : A → A) (G : B → B)
    (P : A → Prop) (S : B → Prop) (l : list A) : ∀ k : list B,
  (∀ a b, P a → S b → f (F a, G b) = f (a, b)) →
  Forall P l → Forall S k →
  mapM f (zip (F <$> l) (G <$> k)) = mapM f (zip l k).
Proof.
  unfold zip.
  induction l as [|a l IH]; intros [|b k] Hf Hl Hk; csimpl; try reflexivity.
  apply Forall_cons in Hl as [Ha Hl]. apply Forall_cons in Hk as [Hb Hk].
  rewrite Hf by assumption. destruct (f (a, b)); csimpl; [|reflexivity].
  f_equal. now apply IH.
Qed.

Lemma mapM_moved {A B} (f g : A → option B) (F : A → A) (P : A → Prop)
    (l : list A) :
  (∀ a, P a → f (F a) = g a) → Forall P l →
  mapM f (F <$> l) = mapM g l.
Proof.
  intros Hf. induction 1 as [|a l Ha Hl IH]; csimpl; [reflexivity|].
  rewrite Hf by assumption. destruct (g a); csimpl; [|reflexivity].
  f_equal. exact IH.
Qed.

Lemma mapM_zip_lookup {A B C} (f : A * B → option C) (l : list A)
    (k : list B) (r : list C) b x y :
  mapM f (zip l k) = Some r → l !! b = Some x → k !! b = Some y →
  ∃ z, f (x, y) = Some z ∧ r !! b = Some z.
Proof.
  intros Hm Hx Hy. apply mapM_Some in Hm.
  assert (Hz : zip l k !! b = Some (x, y)).
  { apply lookup_zip_with_Some. eauto. }
  destruct (Forall2_lookup_l _ _ _ _ _ Hm Hz) as (z & Hr & Hfz). eauto.
Qed.

Lemma headrel_is_Some (hp : mat) (p : vec) :
  is_mat 3 4 hp → is_Some (headrel hp p).
Proof.
  intros Hhp. unfold headrel.
  destruct (translation_is_Some hp Hhp) as [t ->]. simpl. eauto.
Qed.

(** C2. For head poses [(R | t)] with orthonormal [R], the head-relative
    camera position computed by [AutoEncoder.forward] is [R^T (campos -
    t)], the camera position expressed in the head frame (the point
    whose image under the head pose is [campos]); likewise for every
    light position.  Consequently both are unchanged when one rigid
    motion is applied to [head_pose], [campos] and [light_pos]
    together. *)
Theorem headrel_positions_pose_invariant
    (head_pose : list mat) (campos : list vec) (light_pos : list mat) :
  Forall (λ hp, is_mat 3 4 hp ∧ orthonormal (rotation hp)) head_pose →
  Forall (λ c : vec, length c = 3%nat) campos →
  Forall (Forall (λ l : vec, length l = 3%nat)) light_pos →
  ∃ hc hl,
    headrel_campos head_pose campos = Some hc ∧
    headrel_light_pos head_pose light_pos = Some hl ∧
    (∀ b hp c, head_pose !! b = Some hp → campos !! b = Some c →
       ∃ t, translation hp = Some t ∧
            hc !! b = Some (matvec (transpose (rotation hp))
                              (zip_with Rminus c t)) ∧
            ∀ x : vec, length x = 3%nat →
              c = move_point (rotation hp) t x → hc !! b = Some x) ∧
    (∀ b l hp ls p,
       head_pose !! b = Some hp → light_pos !! b = Some ls →
       ls !! l = Some p →
       ∃ t hlb, translation hp = Some t ∧ hl !! b = Some hlb ∧
            hlb !! l = Some (matvec (transpose (rotation hp))
                               (zip_with Rminus p t)) ∧
            ∀ x : vec, length x = 3%nat →
              p = move_point (rotation hp) t x → hlb !! l = Some x) ∧
    (∀ (Q : mat) (s : vec), orthonormal Q → length s = 3%nat →
       headrel_campos (move_pose Q s <$> head_pose)
         (move_point Q s <$> campos) = Some hc ∧
       headrel_light_pos (move_pose Q s <$> head_pose)
         (fmap (M:=list) (move_point Q s) <$> light_pos) = Some hl).
Proof.
  intros Hhp Hc Hl.
  assert (Hzip : ∀ {B} (k : list B),
            Forall (λ hb : mat * B, is_mat 3 4 hb.1) (zip head_pose k)).
  { intros B k. apply Forall_lookup. intros i [hp y] Hi.
    apply lookup_zip_with_Some in Hi as (hp' & y' & [= <- <-] & Hi & _).
    simpl. eapply (proj1 (Forall_lookup _ _) Hhp) in Hi. apply Hi. }
  destruct (proj2 (mapM_is_Some
              (λ hc : mat * vec, headrel hc.1 hc.2) (zip head_pose campos)))
    as [hc Hhc].
  { eapply Forall_impl; [apply Hzip|]. intros [hp c] Hm.
    now apply headrel_is_Some. }
  destruct (proj2 (mapM_is_Some
              (λ hl : mat * mat, mapM (headrel hl.1) hl.2)
              (zip head_pose light_pos))) as [hl Hhl].
  { eapply Forall_impl; [apply Hzip|]. intros [hp ls] Hm.
    apply mapM_is_Some, Forall_forall. intros p _.
    now apply headrel_is_Some. }
  exists hc, hl. split; [exact Hhc|]. split; [exact Hhl|].
  split; [|split].
  - intros b hp c Hb Hcb.
    destruct (mapM_zip_lookup _ _ _ _ _ _ _ Hhc Hb Hcb) as (z & Hz & Hzb).
    simpl in Hz.
    destruct (proj1 (Forall_lookup _ _) Hhp b hp Hb) as [Hm Ho].
    destruct (translation_is_Some hp Hm) as [t Ht].
    exists t. split; [exact Ht|].
    rewrite headrel_formula, Ht in Hz. simpl in Hz. injection Hz as <-.
    split; [exact Hzb|].
    intros x Hx ->. rewrite Hzb. rewrite <- vecmat_transpose.
    pose proof (headrel_of_head_point hp t x Hm Ho Hx Ht) as Hh.
    unfold headrel in Hh. rewrite Ht in Hh. exact Hh.
  - intros b l hp ls p Hb Hlb Hp.
    destruct (mapM_zip_lookup _ _ _ _ _ _ _ Hhl Hb Hlb) as (z & Hz & Hzb).
    simpl in Hz.
    destruct (proj1 (Forall_lookup _ _) Hhp b hp Hb) as [Hm Ho].
    destruct (translation_is_Some hp Hm) as [t Ht].
    exists t, z. split; [exact Ht|]. split; [exact Hzb|].
    apply mapM_Some in Hz.
    destruct (Forall2_lookup_l _ _ _ _ _ Hz Hp) as (q & Hq & Hpq).
    rewrite headrel_formula, Ht in Hpq. simpl in Hpq. injection Hpq as <-.
    split; [exact Hq|].
    intros x Hx ->. rewrite Hq. rewrite <- vecmat_transpose.
    pose proof (headrel_of_head_point hp t x Hm Ho Hx Ht) as Hh.
    unfold headrel in Hh. rewrite Ht in Hh. exact Hh.
  - intros Q s HQ Hs. split.
    + rewrite <- Hhc. unfold headrel_campos.
      apply (mapM_zip_moved (λ hc : mat * vec, headrel hc.1 hc.2)
               (move_pose Q s) (move_point Q s)
               (λ hp, is_mat 3 4 hp ∧ orthonormal (rotation hp))
               (λ c : vec, length c = 3%nat)); [|assumption..].
      intros hp c [Hm _] Hlen. simpl. now apply headrel_move.
    + rewrite <- Hhl. unfold headrel_light_pos.
      apply (mapM_zip_moved (λ hl : mat * mat, mapM (headrel hl.1) hl.2)
               (move_pose Q s) (fmap (M:=list) (move_point Q s))
               (λ hp, is_mat 3 4 hp ∧ orthonormal (rotation hp))
               (Forall (λ l : vec, length l = 3%nat))); [|assumption..].
      intros hp ls [Hm _] Hls. simpl.
      apply (mapM_moved _ _ _ (λ l : vec, length l = 3%nat));
        [|assumption].
      intros p Hlen. now apply headrel_move.
Qed.
End head_frame.

Section lighting.
Import torch.
Context `{AutoEncoder.Self} `{SH} `{PrimDecoder.Self}.
Local Open Scope R_scope.

Lemma at2_zip2 f (s t : mat) c k :
  at2 (zip2 f s t) c k
  = x ← at2 s c k; y ← at2 t c k; Some (f x y).
Proof.
  unfold at2, zip2. rewrite lookup_zip_with.
  destruct (s !! c) as [rs|]; simpl; [|reflexivity].
  destruct (t !! c) as [rt|]; simpl.
  - rewrite lookup_zip_with. reflexivity.
  - destruct (rs !! k); reflexivity.
Qed.

Lemma sh_times_intensity_entry (shs ints : vec) c k :
  at2 (AutoEncoder.sh_times_intensity shs ints) c k
  = i ← ints !! c; s ← shs !! k; Some (s * i).
Proof.
  unfold at2, AutoEncoder.sh_times_intensity. rewrite list_lookup_fmap.
  destruct (ints !! c) as [i|]; simpl; [|reflexivity].
  rewrite list_lookup_fmap. destruct (shs !! k); reflexivity.
Qed.

(** An entry of the sum over the lights is the sum of the entries. *)
Lemma sum_lights_entry (ts : list mat) c k :
  (c < 3)%nat → (k < (AutoEncoder.n_diff_sh + 1) ^ 2)%nat →
  Forall (λ t, is_Some (at2 t c k)) ts →
  at2 (AutoEncoder.sum_lights ts) c k
  = Some (sum ((λ t, default 0 (at2 t c k)) <$> ts)).
Proof.
  intros Hc Hk. unfold AutoEncoder.sum_lights.
  induction 1 as [|t ts [x Hx] Hts IH]; cbn [foldr fmap list_fmap].
  - unfold at2. rewrite lookup_replicate_2 by exact Hc. cbn [mbind option_bind].
    rewrite lookup_replicate_2 by exact Hk. reflexivity.
  - rewrite at2_zip2, Hx. cbn [mbind option_bind]. rewrite IH. reflexivity.
Qed.

(** [chunk] returns the consecutive pieces. *)
Lemma chunk_lookup {A} (n : nat) (l : list A) i :
  (i < length l / n)%nat →
  chunk n l !! i = Some (take n (drop (i * n) l)).
Proof.
  intros Hi. unfold chunk. rewrite list_lookup_fmap.
  rewrite lookup_seq_lt by exact Hi. reflexivity.
Qed.
Lemma light_terms (ps ints : list vec) c k :
  (c < 3)%nat → (k < (AutoEncoder.n_diff_sh + 1) ^ 2)%nat →
  Forall (λ i : vec, length i = 3%nat) ints →
  let ts := zip_with AutoEncoder.sh_times_intensity
              (dir2sh AutoEncoder.n_diff_sh <$> (normalize <$> ps)) ints in
  Forall (λ t, is_Some (at2 t c k)) ts ∧
  (λ t, default 0 (at2 t c k)) <$> ts
  = zip_with (AutoEncoder.light_term c k) ps ints.
Proof.
  intros Hc Hk Hints. simpl. revert ints Hints.
  induction ps as [|p ps IH]; intros [|i ints] Hints; csimpl;
    try (split; [constructor | reflexivity]).
  apply Forall_cons in Hints as [Hi Hints].
  destruct (IH ints Hints) as [IH1 IH2].
  assert (Ht : at2 (AutoEncoder.sh_times_intensity
                      (dir2sh AutoEncoder.n_diff_sh (normalize p)) i) c k
               = Some (AutoEncoder.light_term c k p i)).
  { rewrite sh_times_intensity_entry. unfold AutoEncoder.light_term.
    rewrite !nth_lookup.
    destruct (lookup_lt_is_Some_2 i c) as [x ->]; [lia|].
    destruct (lookup_lt_is_Some_2
                (dir2sh AutoEncoder.n_diff_sh (normalize p)) k) as [y ->];
      [rewrite dir2sh_length; exact Hk|].
    reflexivity. }
  split.
  - constructor; [rewrite Ht; eauto | exact IH1].
  - rewrite Ht. simpl. f_equal. exact IH2.
Qed.

Lemma headrel_light_sh_entry (hlp li : list mat) b (ps ints : list vec) c k :
  hlp !! b = Some ps → li !! b = Some ints →
  Forall (λ i : vec, length i = 3%nat) ints →
  (c < 3)%nat → (k < (AutoEncoder.n_diff_sh + 1) ^ 2)%nat →
  ∃ m, AutoEncoder.headrel_light_sh hlp li !! b = Some m ∧
       at2 m c k
       = Some (sum (zip_with (AutoEncoder.light_term c k) ps ints)).
Proof.
  intros Hps Hints Hlen Hc Hk.
  unfold AutoEncoder.headrel_light_sh, dir2sh_torch,
    AutoEncoder.headrel_light_dir.
  eexists. split.
  - rewrite lookup_zip_with, !list_lookup_fmap, Hps, Hints. reflexivity.
  - destruct (light_terms ps ints c k Hc Hk Hlen) as [Hall Heq].
    rewrite sum_lights_entry by assumption.
    rewrite Heq. reflexivity.
Qed.

(** An entry of the diffuse colour. *)
Lemma diff_color_entry (embs : list vec) (geom light_sh : list mat)
    b n c (al : mat) (arow : vec) a (sb : list mat) (sn : mat)
    (coeffs : vec) (lb : mat) (lsh : vec) :
  (b < length embs)%nat →
  PrimDecoder.albedo !! 0%nat = Some al → al !! n = Some arow →
  arow !! c = Some a →
  PrimDecoder.diff_shs embs !! b = Some sb → sb !! n = Some sn →
  sn !! c = Some coeffs →
  light_sh !! b = Some lb → lb !! c = Some lsh →
  ∃ db dn, PrimDecoder.diff_color embs light_sh !! b = Some db ∧
           db !! n = Some dn ∧ dn !! c = Some (a * dot coeffs lsh).
Proof.
  intros Hb Hal Harow Ha Hsb Hsn Hco Hlb Hlsh.
  unfold PrimDecoder.diff_color, PrimDecoder.albedo_expanded, bzip3, zip2.
  eexists _, _. repeat split.
  - rewrite lookup_zip_with, lookup_replicate_2 by exact Hb. csimpl.
    rewrite lookup_zip_with, Hsb, Hlb. csimpl. reflexivity.
  - rewrite Hal. csimpl.
    rewrite lookup_zip_with, Harow, list_lookup_fmap, Hsn. csimpl.
    reflexivity.
  - rewrite lookup_zip_with, Ha, lookup_zip_with, Hco, Hlsh. reflexivity.
Qed.
End lighting.

Section forward_facts.
Import torch.
Context `{AutoEncoder.Self} `{Rasterizer} `{Random} `{SH} `{Shading}.
Context `{Encoder.Self} `{GeomDecoder.Self} `{PrimDecoder.Self}.
Local Open Scope R_scope.

(** The entries of the decoder's output dictionary. *)
Lemma decoder_entries embs geom campos li hlp lsh nl env rot d :
  PrimDecoder.forward embs geom campos li hlp lsh nl env rot = Some d →
  ∃ sc,
    PrimDecoder.spec_color embs geom campos li hlp nl env rot = Some sc ∧
    d !! "spec_color" = Some (V3 sc) ∧
    d !! "diff_color" = Some (V3 (PrimDecoder.diff_color embs lsh)) ∧
    d !! "spec_dnml" = Some (V3 (PrimDecoder.spec_dnml embs campos)) ∧
    d !! "spec_nml" = Some (V3 (PrimDecoder.spec_nml embs geom campos)) ∧
    d !! "spec_vis" = Some (V3 (PrimDecoder.spec_vis embs campos)) ∧
    d !! "sigma" = Some (V2 (PrimDecoder.sigma embs)) ∧
    d !! "primscale" = Some (V3 (PrimDecoder.primscale embs)) ∧
    d !! "primqvec" = Some (V3 (PrimDecoder.primqvec embs)) ∧
    d !! "primpos" = Some (V3 (PrimDecoder.primpos embs geom)) ∧
    d !! "opacity" = Some (V3 (PrimDecoder.opacity embs)) ∧
    d !! "color"
      = Some (V3 (bmap3 (clamp_min 0.0)
                    (bzip3 Rplus (PrimDecoder.diff_color embs lsh) sc))) ∧
    d !! "headrel_light_sh" = None ∧ d !! "geom" = None ∧
    d !! "rgb" = None ∧ d !! "alpha" = None ∧ d !! "depth" = None.
Proof.
  unfold PrimDecoder.forward. intros Hd.
  destruct (PrimDecoder.spec_color _ _ _ _ _ _ _ _) as [sc|];
    [|discriminate].
  simpl in Hd. injection Hd as <-. exists sc.
  repeat split; by simplify_map_eq.
Qed.
(** What a returning [AutoEncoder.forward] has computed on the way: the
    head-relative positions, the latent code, the decoder's dictionary,
    whose entries reach the result unchanged. *)
Lemma forward_inv training head_pose campos rv color li lp nl K Rt bg lit
    cam g preds g' :
  AutoEncoder.forward training head_pose campos rv color li lp nl K Rt
    bg lit cam g = Some (preds, g') →
  ∃ hc hlp embs geom d,
    AutoEncoder.headrel_campos head_pose campos = Some hc ∧
    AutoEncoder.headrel_light_pos head_pose lp = Some hlp ∧
    (Encoder.forward training rv color g).1 !! "embs" = Some (V2 embs) ∧
    GeomDecoder.forward embs !! "face_geom" = Some (V3 geom) ∧
    let li' := fmap (M:=list) AutoEncoder.expand3 <$> li in
    let lsh := AutoEncoder.headrel_light_sh hlp li' in
    PrimDecoder.forward embs geom hc li' hlp lsh nl None None = Some d ∧
    preds !! "headrel_light_sh" = Some (V3 lsh) ∧
    ∀ k v, d !! k = Some v → k ∉ AutoEncoder.late_keys → preds !! k = Some v.
Proof.
  unfold AutoEncoder.forward. intros Hf.
  destruct (AutoEncoder.headrel_campos head_pose campos) as [hc|];
    [|discriminate]. cbn [mbind option_bind] in Hf.
  destruct (AutoEncoder.headrel_light_pos head_pose lp) as [hlp|];
    [|discriminate]. cbn [mbind option_bind] in Hf.
  destruct (Encoder.forward training rv color g) as [enc g1] eqn:Henc.
  destruct (enc !! "embs") as [v|] eqn:Hembs; [|discriminate].
  cbn [mbind option_bind] in Hf.
  destruct v as [embs | |]; try discriminate.
  cbn [as_V2 mbind option_bind] in Hf.
  destruct (GeomDecoder.forward embs !! "face_geom") as [v|] eqn:Hgeom;
    [|discriminate]. cbn [mbind option_bind] in Hf.
  destruct v as [| geom |]; try discriminate.
  cbn [as_V3 mbind option_bind] in Hf.
  destruct (PrimDecoder.forward _ _ _ _ _ _ _ _ _) as [d|] eqn:Hd;
    [|discriminate]. cbn [mbind option_bind] in Hf.
  destruct (AutoEncoder.render _ _ _ _ _) as [[[rgb alpha] depth]|];
    [|discriminate]. cbn [mbind option_bind] in Hf.
  match type of Hf with
  | (?c ≫= _) = _ => destruct c as [rgb'|]; [|discriminate]
  end.
  cbn [mbind option_bind] in Hf. injection Hf as <- <-.
  exists hc, hlp, embs, geom, d. cbn [fst].
  split; [reflexivity|]. split; [reflexivity|]. split; [exact Hembs|].
  split; [exact Hgeom|]. split; [exact Hd|].
  destruct (decoder_entries _ _ _ _ _ _ _ _ _ _ Hd)
    as (sc & _ & _ & _ & _ & _ & _ & _ & _ & _ & _ & _ & _ & Hnl & _).
  assert (Henc_l : enc !! "headrel_light_sh" = None).
  { unfold Encoder.forward in Henc. injection Henc as <- _.
    by simplify_map_eq. }
  set (base := _ ∪ (_ ∪ _)).
  assert (Hbase1 : base !! "headrel_light_sh"
                   = Some (V3 (AutoEncoder.headrel_light_sh hlp
                        (fmap (M:=list) AutoEncoder.expand3 <$> li)))).
  { unfold base. rewrite lookup_union_r by exact Hnl.
    rewrite lookup_union_r by exact Henc_l. by simplify_map_eq. }
  assert (Hbase2 : ∀ k v, d !! k = Some v → base !! k = Some v).
  { intros k v Hk. unfold base. now apply lookup_union_Some_l. }
  split.
  - destruct AutoEncoder.learn_blur_enabled, training;
      try destruct (AutoEncoder._rasterize_facew _ _ _ _);
      by simplify_map_eq.
  - intros k v Hk Hlate. apply Hbase2 in Hk.
    unfold AutoEncoder.late_keys in Hlate.
    repeat (apply not_elem_of_cons in Hlate as [? Hlate]).
    destruct AutoEncoder.learn_blur_enabled, training;
      try destruct (AutoEncoder._rasterize_facew _ _ _ _);
      by simplify_map_eq.
Qed.
Lemma expand3_length (i : vec) :
  length i = 1%nat ∨ length i = 3%nat →
  length (AutoEncoder.expand3 i) = 3%nat.
Proof.
  destruct i as [|x [|y [|z [|]]]]; simpl; intros [?|?]; congruence.
Qed.

(** C3. In [AutoEncoder.forward] the head-relative light vector holds,
    for every colour channel [c] and basis index [k], the sum over the
    lights of the [k]-th spherical-harmonics basis function of degree
    [n_diff_sh] at the normalised head-relative light direction times
    the light's intensity in channel [c]; and the diffuse colour of
    every Gaussian is, per channel, the learned albedo times the dot
    product of its decoded coefficients with that light vector. *)
Theorem light_sh_and_diffuse_color training head_pose campos rv color
    li lp nl K Rt bg lit cam g preds g' :
  AutoEncoder.forward training head_pose campos rv color li lp nl K Rt
    bg lit cam g = Some (preds, g') →
  ∃ hlp embs lsh dc,
    AutoEncoder.headrel_light_pos head_pose lp = Some hlp ∧
    (Encoder.forward training rv color g).1 !! "embs" = Some (V2 embs) ∧
    preds !! "headrel_light_sh" = Some (V3 lsh) ∧
    preds !! "diff_color" = Some (V3 dc) ∧
    (∀ b (ps ints : list vec) c k,
       hlp !! b = Some ps → li !! b = Some ints →
       Forall (λ i : vec, length i = 1%nat ∨ length i = 3%nat) ints →
       (c < 3)%nat → (k < (AutoEncoder.n_diff_sh + 1) ^ 2)%nat →
       ∃ m, lsh !! b = Some m ∧
            at2 m c k
            = Some (sum (zip_with (AutoEncoder.light_term c k) ps
                           (AutoEncoder.expand3 <$> ints)))) ∧
    (∀ b n c (al : mat) (arow : vec) a (sb : list mat) (sn : mat)
       (coeffs : vec) (lb : mat) (lshc : vec),
       PrimDecoder.albedo !! 0%nat = Some al → al !! n = Some arow →
       arow !! c = Some a →
       PrimDecoder.diff_shs embs !! b = Some sb → sb !! n = Some sn →
       sn !! c = Some coeffs →
       lsh !! b = Some lb → lb !! c = Some lshc →
       (b < length embs)%nat →
       ∃ db dn, dc !! b = Some db ∧ db !! n = Some dn ∧
                dn !! c = Some (a * dot coeffs lshc)).
Proof.
  intros Hf.
  destruct (forward_inv _ _ _ _ _ _ _ _ _ _ _ _ _ _ _ _ Hf)
    as (hc & hlp & embs & geom & d & Hhc & Hhlp & Hembs & Hgeom & Hd
        & Hlsh & Hkeep).
  simpl in Hd, Hlsh.
  destruct (decoder_entries _ _ _ _ _ _ _ _ _ _ Hd)
    as (sc & _ & _ & Hdc & _).
  eexists hlp, embs, _, _.
  split; [exact Hhlp|]. split; [exact Hembs|]. split; [exact Hlsh|].
  split.
  { apply Hkeep; [exact Hdc|]. unfold AutoEncoder.late_keys.
    repeat (apply not_elem_of_cons; split; [done|]).
    apply not_elem_of_nil. }
  split.
  - intros b ps ints c k Hps Hints Hlen Hc Hk.
    apply headrel_light_sh_entry; try assumption.
    + rewrite list_lookup_fmap, Hints. reflexivity.
    + apply Forall_fmap. eapply Forall_impl; [exact Hlen|].
      intros i Hi. now apply expand3_length.
  - intros b n c al arow a sb sn coeffs lb lshc
      Hal Harow Ha Hsb Hsn Hco Hlb Hlshc Hb.
    eapply diff_color_entry; eassumption.
Qed.
End forward_facts.

Section activations.
Import torch.
Local Open Scope R_scope.


Lemma sigmoid_bounds x : 0 < sigmoid x < 1.
Proof.
  unfold sigmoid. pose proof (exp_pos (- x)) as He.
  split.
  - apply Rdiv_lt_0_compat; lra.
  - apply (Rmult_lt_reg_r (1 + exp (- x))); [lra|].
    unfold Rdiv. rewrite Rmult_assoc, Rinv_l by lra. lra.
Qed.


Lemma clamp_max_le hi x : clamp_max hi x <= hi.
Proof. unfold clamp_max. apply Rmin_r. Qed.

Lemma eps_pos : 0 < eps.
Proof. unfold eps. lra. Qed.

Lemma sumsq_nonneg v : 0 <= sumsq v.
Proof.
  unfold sumsq, sum. induction v as [|x v IH]; csimpl; [lra|]. nra.
Qed.

Lemma sumsq_scale d v : sumsq ((λ x, x / d) <$> v) = sumsq v / (d * d).
Proof.
  destruct (Req_dec d 0) as [->|Hd].
  - unfold sumsq, sum. induction v as [|x v IH]; csimpl.
    + unfold Rdiv. ring.
    + rewrite IH. unfold Rdiv. rewrite Rmult_0_l, Rinv_0. ring.
  - unfold sumsq, sum. induction v as [|x v IH]; csimpl.
    + unfold Rdiv. ring.
    + rewrite IH. field. exact Hd.
Qed.

Lemma norm2_sq v : norm2 v * norm2 v = sumsq v.
Proof. unfold norm2. apply sqrt_sqrt, sumsq_nonneg. Qed.

Lemma norm2_nonneg v : 0 <= norm2 v.
Proof. unfold norm2. apply sqrt_pos. Qed.

(** The norm of a normalised row. *)
Lemma norm2_normalize v :
  norm2 (normalize v) = norm2 v / Rmax (norm2 v) eps.
Proof.
  unfold normalize. set (d := Rmax (norm2 v) eps).
  assert (Hd : 0 < d).
  { unfold d. pose proof (Rmax_r (norm2 v) eps). pose proof eps_pos. lra. }
  unfold norm2 at 1.
  rewrite sumsq_scale, <- norm2_sq.
  replace (norm2 v * norm2 v / (d * d)) with (Rsqr (norm2 v / d))
    by (unfold Rsqr; field; lra).
  apply sqrt_Rsqr. apply Rle_mult_inv_pos; [apply norm2_nonneg | exact Hd].
Qed.

Lemma norm2_normalize_unit v : eps <= norm2 v → norm2 (normalize v) = 1.
Proof.
  intros Hv. rewrite norm2_normalize, Rmax_left by exact Hv.
  pose proof eps_pos. field. lra.
Qed.

End activations.

Section reflection.
Import torch.
Context `{PrimDecoder.Self}.
Local Open Scope R_scope.

Lemma sumsq_axpy c (v : vec) : ∀ n : vec, length v = length n →
  sumsq (zip_with Rminus v ((λ x, c * x) <$> n))
  = sumsq v - 2 * c * dot v n + c * c * sumsq n.
Proof.
  unfold sumsq, dot, sum.
  induction v as [|x v IH]; intros [|y n] Hlen; simplify_eq/=; [ring|].
  rewrite (IH n) by assumption. ring.
Qed.

(** Mirroring about a unit normal preserves the norm. *)
Lemma reflect_norm (v n : vec) :
  length v = length n → norm2 n = 1 →
  norm2 (PrimDecoder.reflect v n) = norm2 v.
Proof.
  intros Hlen Hn. unfold norm2, PrimDecoder.reflect. f_equal.
  rewrite sumsq_axpy by exact Hlen.
  pose proof (norm2_sq n) as Hsq. rewrite Hn in Hsq.
  rewrite <- Hsq. lra.
Qed.

Lemma length_normalize v : length (normalize v) = length v.
Proof. unfold normalize. apply length_fmap. Qed.

(** Every computed reflection direction is the mirror image of the
    normalised view vector about the normalised specular normal. *)
Lemma ref_dirs_row embs geom campos b i r :
  row3 (PrimDecoder.ref_dirs embs geom campos) b i = Some r →
  ∃ p c d nn,
    row3 (PrimDecoder.primpos embs geom) b i = Some p ∧
    campos !! b = Some c ∧
    row3 (PrimDecoder.spec_dnml embs campos) b i = Some d ∧
    row3 (PrimDecoder.vn_uv geom) b i = Some nn ∧
    r = PrimDecoder.reflect (normalize (zip_with Rminus p c))
          (normalize (zip_with Rplus d nn)).
Proof.
  unfold row3, PrimDecoder.ref_dirs, PrimDecoder.view_local,
    PrimDecoder.spec_nml. intros Hr.
  destruct (zip_with _ _ _ !! b) as [rb|] eqn:Hb; [|discriminate].
  simpl in Hr.
  apply lookup_zip_with_Some in Hb as (vl & sn & -> & Hvl & Hsn).
  apply lookup_zip_with_Some in Hr as (v & n & -> & Hv & Hn).
  apply lookup_zip_with_Some in Hvl as (ps & c & -> & Hps & Hc).
  apply lookup_zip_with_Some in Hsn as (ds & ns & -> & Hds & Hns).
  rewrite list_lookup_fmap in Hv.
  destruct (ps !! i) as [p|] eqn:Hp; [|discriminate].
  simpl in Hv. injection Hv as <-.
  apply lookup_zip_with_Some in Hn as (d & nn & -> & Hd & Hnn).
  exists p, c, d, nn. rewrite Hps, Hds, Hns. simpl. auto.
Qed.
(** C6 (as the code has it). Mirroring a view direction [v] about a
    unit-norm normal [n], [v - 2 (v . n) n], preserves the Euclidean
    norm of [v].  Every reflection direction computed by
    [PrimDecoder.forward] is the mirror image of the normalised view
    vector about the normalised specular normal; it is a unit vector
    whenever the view vector [primpos - campos] and the raw normal
    [spec_dnml + vn] both have norm at least 1e-12. *)
Theorem reflection_preserves_norm embs geom campos :
  (∀ v n : vec, length v = length n → norm2 n = 1 →
     norm2 (PrimDecoder.reflect v n) = norm2 v) ∧
  (∀ b i r,
     row3 (PrimDecoder.ref_dirs embs geom campos) b i = Some r →
     ∃ p c d nn,
       row3 (PrimDecoder.primpos embs geom) b i = Some p ∧
       campos !! b = Some c ∧
       row3 (PrimDecoder.spec_dnml embs campos) b i = Some d ∧
       row3 (PrimDecoder.vn_uv geom) b i = Some nn ∧
       let view := zip_with Rminus p c in
       let nrm := zip_with Rplus d nn in
       r = PrimDecoder.reflect (normalize view) (normalize nrm) ∧
       (length view = length nrm → eps <= norm2 view →
        eps <= norm2 nrm → norm2 r = 1)).
Proof.
  split; [exact reflect_norm|].
  intros b i r Hr.
  destruct (ref_dirs_row _ _ _ _ _ _ Hr)
    as (p & c & d & nn & Hp & Hc & Hd & Hnn & ->).
  exists p, c, d, nn. repeat split; try assumption.
  intros Hlen Hv Hn.
  rewrite reflect_norm.
  - now apply norm2_normalize_unit.
  - now rewrite !length_normalize.
  - now apply norm2_normalize_unit.
Qed.
End reflection.

Section chunks.
Import torch.

Lemma chunk_row_length {A} (n : nat) (l : list A) i r :
  chunk n l !! i = Some r → length r = n.
Proof.
  unfold chunk. rewrite list_lookup_fmap. intros Hr.
  destruct (seq 0 (length l / n) !! i) as [i'|] eqn:Hi; [|discriminate].
  apply lookup_seq in Hi as [-> Hi]. simpl in Hr. injection Hr as <-.
  destruct n as [|n]; [simpl in Hi; lia|].
  rewrite length_take, length_drop.
  pose proof (Nat.Div0.mul_div_le (length l) (S n)). nia.
Qed.
End chunks.

Section decoder_claims.
Import torch.
Context `{PrimDecoder.Self} `{Shading}.
Local Open Scope R_scope.

Lemma at3_row3 (t : list mat) b n k :
  at3 t b n k = r ← row3 t b n; r !! k.
Proof.
  unfold at3, row3, at2. destruct (t !! b); reflexivity.
Qed.

Lemma row3_fmap (f : vec → vec) (t : list mat) b n :
  row3 (fmap (M:=list) f <$> t) b n = f <$> row3 t b n.
Proof.
  unfold row3. rewrite list_lookup_fmap.
  destruct (t !! b) as [m|]; simpl; [|reflexivity].
  apply list_lookup_fmap.
Qed.

(** Entries of a tensor whose rows are [g <$> sel p] for rows [p] of [t]
    are values of [g]. *)
Lemma at3_fmap_inner (g : R → R) (sel : vec → vec) (t : list mat) b n k x :
  at3 (fmap (M:=list) (λ p, g <$> sel p) <$> t) b n k = Some x →
  ∃ y, x = g y.
Proof.
  rewrite at3_row3, row3_fmap.
  destruct (row3 t b n) as [p|]; simpl; [|discriminate].
  rewrite list_lookup_fmap.
  destruct (sel p !! k) as [y|]; simpl; [|discriminate].
  intros [= <-]. eauto.
Qed.

Lemma at3_bmap3 (g : R → R) (t : list mat) b n k :
  at3 (bmap3 g t) b n k = g <$> at3 t b n k.
Proof.
  unfold at3, bmap3, map2, at2. rewrite list_lookup_fmap.
  destruct (t !! b) as [m|]; simpl; [|reflexivity].
  rewrite list_lookup_fmap.
  destruct (m !! n) as [r|]; simpl; [|reflexivity].
  apply list_lookup_fmap.
Qed.






Lemma times_spec_vis_entry embs campos (pre : list mat) b n k x v :
  at3 pre b n k = Some x →
  row3 (PrimDecoder.spec_vis embs campos) b n = Some [v] →
  at3 (PrimDecoder.times_spec_vis embs campos pre) b n k = Some (x * v).
Proof.
  unfold PrimDecoder.times_spec_vis. rewrite !at3_row3.
  unfold row3 at 1 3. rewrite lookup_zip_with. intros Hx Hv.
  destruct (pre !! b) as [pb|]; simpl in *; [|discriminate].
  unfold row3 in Hv.
  destruct (PrimDecoder.spec_vis embs campos !! b) as [vb|]; simpl in *;
    [|discriminate].
  rewrite lookup_zip_with. rewrite Hv.
  destruct (pb !! n) as [pn|]; simpl in *; [|discriminate].
  rewrite list_lookup_fmap, Hx. reflexivity.
Qed.

Lemma spec_vis_row embs campos b n r :
  row3 (PrimDecoder.spec_vis embs campos) b n = Some r →
  r = [] ∨ ∃ y, r = [sigmoid y].
Proof.
  unfold PrimDecoder.spec_vis. rewrite row3_fmap.
  destruct (row3 _ b n) as [p|]; simpl; [|discriminate].
  intros [= <-]. destruct p as [|y p]; simpl; [now left|].
  right. destruct p; eauto.
Qed.

(** C4. [PrimDecoder.forward] computes the specular colour by exactly
    one of two models, chosen by whether [preconv_envmap] is given.
    With an environment map: every reflection direction is rotated by
    [lightrot], converted to UV, the map is sampled at mip level five
    times the roughness, and the sample is clamped to at most 1.
    Without: the point-light Gaussian evaluation over the head-relative
    lights.  In both cases the result is multiplied by the specular
    visibility of the Gaussian. *)
Theorem specular_model_selected embs geom campos li hlp lsh nl env rot d :
  PrimDecoder.forward embs geom campos li hlp lsh nl env rot = Some d →
  ∃ pre,
    d !! "spec_color"
      = Some (V3 (PrimDecoder.times_spec_vis embs campos pre)) ∧
    (∀ b n k x v,
       at3 pre b n k = Some x →
       row3 (PrimDecoder.spec_vis embs campos) b n = Some [v] →
       at3 (PrimDecoder.times_spec_vis embs campos pre) b n k
         = Some (x * v)) ∧
    match env with
    | Some e =>
        ∃ r sampled,
          rot = Some r ∧
          let rotated :=
            zip_with (λ (rb : mat) (dirs : mat), matvec rb <$> dirs)
              r (PrimDecoder.ref_dirs embs geom campos) in
          let miplevel := bmap2 (λ s, s * 5) (PrimDecoder.sigma embs) in
          mapM (mapM (mapM (λ s : vec, s !! 0%nat)))
            (mipmap_grid_sample e
               (fmap (M:=list) (λ uv : vec, [uv]) <$> dir2uv rotated 2)
               (fmap (M:=list) (λ m : R, [m]) <$> miplevel))
            = Some sampled ∧
          pre = bmap3 (clamp_max 1.0) (transpose <$> sampled) ∧
          (∀ b n k x, at3 pre b n k = Some x → x <= 1.0) ∧
          (∀ b n s, at2 (PrimDecoder.sigma embs) b n = Some s →
             at2 miplevel b n = Some (s * 5)) ∧
          (∀ b n rb dir,
             r !! b = Some rb →
             row3 (PrimDecoder.ref_dirs embs geom campos) b n = Some dir →
             row3 rotated b n = Some (matvec rb dir))
    | None =>
        pre = evaluate_gaussian (PrimDecoder.ref_dirs embs geom campos)
                (PrimDecoder.sigma embs) li hlp
                (PrimDecoder.primpos embs geom) nl 0
    end.
Proof.
  intros Hd.
  destruct (decoder_entries _ _ _ _ _ _ _ _ _ _ Hd)
    as (sc & Hsc & Hkey & _).
  unfold PrimDecoder.spec_color in Hsc.
  destruct env as [e|].
  - destruct rot as [r|]; [|discriminate]. simpl in Hsc.
    unfold PrimDecoder.spec_color_envmap in Hsc.
    match type of Hsc with
    | (?c ≫= _) = _ => destruct c as [sampled|] eqn:Hs; [|discriminate]
    end.
    simpl in Hsc. injection Hsc as <-.
    eexists. split; [exact Hkey|].
    split; [intros; now apply times_spec_vis_entry|].
    exists r, sampled. split; [reflexivity|]. simpl.
    split; [exact Hs|]. split; [reflexivity|]. split; [|split].
    + intros b n k x Hx. rewrite at3_bmap3 in Hx.
      destruct (at3 _ b n k) as [y|]; [|discriminate].
      simpl in Hx. injection Hx as <-. apply clamp_max_le.
    + intros b n s Hs'. rewrite bmap2_lookup, Hs'. reflexivity.
    + intros b n rb dir Hrb Hdir. unfold row3 in *.
      rewrite lookup_zip_with, Hrb. simpl.
      destruct (PrimDecoder.ref_dirs embs geom campos !! b) as [dirs|];
        simpl in *; [|discriminate].
      rewrite list_lookup_fmap, Hdir. reflexivity.
  - injection Hsc as <-.
    eexists. split; [exact Hkey|].
    split; [intros; now apply times_spec_vis_entry|]. reflexivity.
Qed.
End decoder_claims.

Section summary_claims.
Import torch RGCASummary.
Context `{Imaging}.
Local Open Scope R_scope.

Lemma when_present_inv (d : gmap string value) key f diag diag' :
  when_present d key f diag = Some diag' →
  (d !! key = None ∧ diag' = diag) ∨
  (∃ t, d !! key = Some (V4 t) ∧ diag' = f t diag).
Proof.
  unfold when_present. destruct (d !! key) as [v|].
  - destruct v as [| |t]; simpl; try discriminate.
    intros [= <-]. right. eauto.
  - intros [= <-]. now left.
Qed.

Lemma slabs_keys preds diag :
  slabs preds = Some diag →
  diag !! "gt" = None ∧ diag !! "diff" = None.
Proof.
  unfold slabs. intros Hs.
  repeat match type of Hs with
         | (?c ≫= _) = _ =>
             destruct c; [cbn [mbind option_bind] in Hs | discriminate]
         end.
  injection Hs as <-. split; by simplify_map_eq.
Qed.

(** The two ground-truth entries of the dictionary before the final
    conversion: present exactly when the batch has an image. *)
Lemma images_gt_diff preds batch diag :
  images preds batch = Some diag →
  ∃ rgb, get4 preds "rgb" = Some rgb ∧
    match batch !! "image" with
    | Some v =>
        ∃ gt, v = V4 gt ∧
              diag !! "gt" = Some (clamp01 (linear2srgb gt)) ∧
              diag !! "diff" = Some (diff_image rgb gt)
    | None => diag !! "gt" = None ∧ diag !! "diff" = None
    end.
Proof.
  unfold images. intros Hi.
  destruct (slabs preds) as [d0|] eqn:Hs; [|discriminate].
  apply slabs_keys in Hs as [Hgt Hdiff].
  cbn [mbind option_bind] in Hi.
  destruct (get3 preds "headrel_light_sh") as [lsh|]; [|discriminate].
  cbn [mbind option_bind] in Hi.
  destruct (get4 preds "rgb") as [rgb|]; [|discriminate].
  cbn [mbind option_bind] in Hi.
  destruct (when_present batch "image" _ _) as [d1|] eqn:H1;
    [|discriminate]. cbn [mbind option_bind] in Hi.
  destruct (get4 preds "alpha") as [alpha|]; [|discriminate].
  cbn [mbind option_bind] in Hi.
  destruct (when_present preds "image_weight" _ _) as [d2|] eqn:H2;
    [|discriminate]. cbn [mbind option_bind] in Hi.
  destruct (when_present preds "mesh_nml" _ _) as [d3|] eqn:H3;
    [|discriminate]. cbn [mbind option_bind] in Hi.
  destruct (get4 preds "depth") as [depth|]; [|discriminate].
  cbn [mbind option_bind] in Hi.
  destruct (batch !! "focal") as [focal|]; [|discriminate].
  cbn [mbind option_bind] in Hi.
  destruct (batch !! "princpt") as [princpt|]; [|discriminate].
  cbn [mbind option_bind] in Hi. injection Hi as <-.
  exists rgb. split; [reflexivity|].
  apply when_present_inv in H1, H2, H3.
  destruct H3 as [[_ ->] | (t3 & _ & ->)];
    destruct H2 as [[_ ->] | (t2 & _ & ->)];
    destruct H1 as [[-> ->] | (gt & -> & ->)];
    try (exists gt; split; [reflexivity|]);
    split; by simplify_map_eq.
Qed.

Lemma px_zip_minus (s t : list image) b c i j x y :
  px s b c i j = Some x → px t b c i j = Some y →
  px (zip_with (zip3 Rminus) s t) b c i j = Some (x - y).
Proof.
  unfold px. intros Hs Ht. rewrite lookup_zip_with.
  destruct (s !! b) as [sb|]; simpl in *; [|discriminate].
  destruct (t !! b) as [tb|]; simpl in *; [|discriminate].
  now apply px3_zip3.
Qed.

Lemma px_map4 f (t : list image) b c i j :
  px (map4 f t) b c i j = f <$> px t b c i j.
Proof.
  unfold px, map4. rewrite list_lookup_fmap.
  destruct (t !! b) as [tb|]; simpl; [|reflexivity].
  apply (px3_map3 f tb).
Qed.

(** C9. [RGCASummary] adds the ground-truth image ("gt") and the
    difference image ("diff") to its diagnostics exactly when the batch
    has an "image" entry; the difference is the predicted rgb minus the
    ground truth, clamped to [-1, 1] pixel by pixel before it is
    scaled. *)
Theorem summary_gt_and_diff preds batch out :
  __call__ preds batch = Some out →
  ("gt" ∈ dom out ↔ "image" ∈ dom batch) ∧
  ("diff" ∈ dom out ↔ "image" ∈ dom batch) ∧
  (∀ v, batch !! "image" = Some v →
     ∃ rgb gt,
       preds !! "rgb" = Some (V4 rgb) ∧ v = V4 gt ∧
       out !! "gt" = Some (to_uint8 (clamp01 (linear2srgb gt))) ∧
       let clamped :=
         map4 (clamp (-1) 1) (zip_with (zip3 Rminus) rgb gt) in
       out !! "diff"
         = Some (to_uint8 (clamp01 (scale_diff_image clamped))) ∧
       ∀ b c i j x y,
         px rgb b c i j = Some x → px gt b c i j = Some y →
         px clamped b c i j = Some (clamp (-1) 1 (x - y))).
Proof.
  unfold __call__. intros Hc.
  destruct (images preds batch) as [diag|] eqn:Hi; [|discriminate].
  simpl in Hc. injection Hc as <-.
  destruct (images_gt_diff _ _ _ Hi) as (rgb & Hrgb & Hcase).
  rewrite !elem_of_dom, !lookup_fmap.
  destruct (batch !! "image") as [v|] eqn:Himg.
  - destruct Hcase as (gt & -> & Hgt & Hdiff). rewrite Hgt, Hdiff. simpl.
    split; [split; eauto|]. split; [split; eauto|].
    intros v [= <-]. exists rgb, gt.
    unfold get4 in Hrgb.
    destruct (preds !! "rgb") as [[| |rgb']|]; simplify_eq/=.
    repeat split; try reflexivity.
    intros b c i j x y Hx Hy.
    rewrite px_map4, (px_zip_minus _ _ _ _ _ _ x y) by assumption.
    reflexivity.
  - destruct Hcase as [Hgt Hdiff]. rewrite Hgt, Hdiff. simpl.
    split; [split; intros [? ?]; discriminate|].
    split; [split; intros [? ?]; discriminate|].
    intros v [=].
Qed.
Lemma when_present_is_Some (d : gmap string value) key f diag :
  (∀ v, d !! key = Some v → is_Some (as_V4 v)) →
  is_Some (when_present d key f diag).
Proof.
  intros Hv. unfold when_present. destruct (d !! key) as [v|]; [|eauto].
  destruct (Hv v eq_refl) as [t ->]. simpl. eauto.
Qed.

(** [RGCASummary] returns whenever the predictions carry the ten tensors
    it reads, the batch has the camera intrinsics, and the optional
    entries, where present, are images. *)
Lemma summary_returns preds batch :
  is_Some (get3 preds "diff_color") → is_Some (get3 preds "spec_color") →
  is_Some (get3 preds "opacity") → is_Some (get3 preds "spec_nml") →
  is_Some (get2 preds "sigma") → is_Some (get3 preds "spec_vis") →
  is_Some (get3 preds "headrel_light_sh") →
  is_Some (get4 preds "rgb") → is_Some (get4 preds "alpha") →
  is_Some (get4 preds "depth") →
  is_Some (batch !! "focal") → is_Some (batch !! "princpt") →
  (∀ v, batch !! "image" = Some v → is_Some (as_V4 v)) →
  (∀ v, preds !! "image_weight" = Some v → is_Some (as_V4 v)) →
  (∀ v, preds !! "mesh_nml" = Some v → is_Some (as_V4 v)) →
  is_Some (__call__ preds batch).
Proof.
  intros [dc Hdc] [sc Hsc] [op Hop] [sn Hsn] [sg Hsg] [sv Hsv] [ls Hls]
    [rgb Hrgb] [al Hal] [de Hde] [fo Hfo] [pr Hpr] Himg Hw Hm.
  unfold __call__, images, slabs.
  rewrite Hdc, Hsc, Hop, Hsn, Hsg, Hsv. cbn [mbind option_bind].
  rewrite Hls. cbn [mbind option_bind].
  rewrite Hrgb. cbn [mbind option_bind].
  match goal with
  | |- context [when_present batch "image" ?f ?d] =>
      destruct (when_present_is_Some batch "image" f d Himg) as [d1 ->]
  end.
  cbn [mbind option_bind]. rewrite Hal. cbn [mbind option_bind].
  match goal with
  | |- context [when_present preds "image_weight" ?f ?d] =>
      destruct (when_present_is_Some preds "image_weight" f d Hw) as [d2 ->]
  end.
  cbn [mbind option_bind].
  match goal with
  | |- context [when_present preds "mesh_nml" ?f ?d] =>
      destruct (when_present_is_Some preds "mesh_nml" f d Hm) as [d3 ->]
  end.
  cbn [mbind option_bind]. rewrite Hde, Hfo, Hpr.
  cbn [mbind option_bind]. eauto.
Qed.
End summary_claims.

Section driver_claims.
Import run_test.
Context `{Env}.

Lemma bind_Ok {A B} (m : M A) (k : A → M B) s a s1 :
  m s = (Ok a, s1) → bind m k s = k a s1.
Proof. unfold bind. now intros ->. Qed.

Lemma bind_Raise {A B} (m : M A) (k : A → M B) s e s1 :
  m s = (Raise e, s1) → bind m k s = (Raise e, s1).
Proof. unfold bind. now intros ->. Qed.

Lemma appends_ret {A} P (a : A) : appends P (ret a).
Proof. intros s. exists []. rewrite app_nil_r. split; [reflexivity|constructor]. Qed.

Lemma appends_raise {A} P e : appends P (raise (A:=A) e).
Proof. intros s. exists []. rewrite app_nil_r. split; [reflexivity|constructor]. Qed.

Lemma appends_invoke {A} (P : event → Prop) ev
    (f : world → result A * world) :
  P ev → appends P (invoke ev f).
Proof.
  intros Hev s. exists [ev]. unfold invoke.
  destruct (f (outside s)) as [r w]. simpl.
  split; [reflexivity | repeat constructor; exact Hev].
Qed.

Lemma appends_bind {A B} P (m : M A) (k : A → M B) :
  appends P m → (∀ a, appends P (k a)) → appends P (bind m k).
Proof.
  intros Hm Hk s. destruct (Hm s) as (evs & Ht & Hall).
  unfold bind. destruct (m s) as [[a|e] s1]; simpl in *.
  - destruct (Hk a s1) as (evs' & Ht' & Hall').
    exists (evs ++ evs'). rewrite Ht', Ht, app_assoc.
    split; [reflexivity | now apply Forall_app].
  - exists evs. auto.
Qed.

Lemma appends_test_entry P config key : appends P (test_entry config key).
Proof.
  unfold test_entry. destruct (test_ config !! key);
    [apply appends_ret | apply appends_raise].
Qed.

Lemma setup_appends config : appends (λ ev, ¬ is_test ev) (setup config).
Proof.
  unfold setup.
  repeat (apply appends_bind; [apply appends_invoke; simpl; tauto|];
          intros ?).
  apply appends_ret.
Qed.

(** Every test started by [run] is a test of the model it was given. *)
Lemma run_appends config bf model loss_fn :
  appends (λ ev, ∀ m l tl sf, ev = EvTest m l tl sf → m = model)
    (run config bf model loss_fn).
Proof.
  unfold run, log.
  repeat first
    [ apply appends_bind;
      [ first [ apply appends_invoke; intros; discriminate
              | apply appends_test_entry ] | intros ? ]
    | apply appends_invoke; intros ? ? ? ? [= -> _ _ _]; reflexivity ].
Qed.
Lemma load_ckpt_absent config model s :
  test_ config !! "ckpt" = None →
  load_ckpt config model s
  = (Raise (ValueError "No checkpoint provided"), s).
Proof.
  intros Hno. unfold load_ckpt.
  destruct (decide _) as [Hin|_]; [|reflexivity].
  apply elem_of_dom in Hin as [c Hc]. congruence.
Qed.

Lemma load_ckpt_present config model s ckpt :
  test_ config !! "ckpt" = Some ckpt →
  ∃ r w,
    load_checkpoint ckpt model (outside s) = (r, w) ∧
    load_ckpt config model s
    = (r, {| outside := w;
             trace := trace s ++ [EvLog "loading checkpoint";
                                  EvLoadCheckpoint ckpt model] |}).
Proof.
  intros Hc. unfold load_ckpt.
  destruct (decide _) as [_|Hout].
  - unfold bind, log, invoke, test_entry, ret. simpl. rewrite Hc. simpl.
    destruct (load_checkpoint ckpt model (outside s)) as [r w].
    exists r, w. split; [reflexivity|].
    rewrite <- app_assoc. reflexivity.
  - exfalso. apply Hout, elem_of_dom. eauto.
Qed.

Lemma run_trace config bf model loss_fn s :
  ∃ evs, trace (run config bf model loss_fn s).2 = trace s ++ evs ∧
    (quiet evs ∨
     ∃ pre tl sf w w',
       evs = pre ++ test_tail config model loss_fn tl sf ∧ quiet pre ∧
       load_from_config (summary config) None
         (set_attr model "cal_enabled" false
            (set_attr model "learn_blur_enabled" false w))
       = (Ok sf, w')).
Proof.
  unfold run, log, bind, invoke, test_entry, ret, raise, quiet, test_tail.
  simpl.
  destruct (test_ config !! "data") as [td|]; simpl.
  2:{ eexists. rewrite <- app_assoc. split; [reflexivity|].
      left. repeat constructor; simpl; tauto. }
  destruct (BodyDataset td (outside s)) as [[ds|e] w1]; simpl.
  2:{ eexists. rewrite <- !app_assoc. split; [reflexivity|].
      left. repeat constructor; simpl; tauto. }
  destruct (DataLoader ds true _ w1) as [[tl|e] w2]; simpl.
  2:{ eexists. rewrite <- !app_assoc. split; [reflexivity|].
      left. repeat constructor; simpl; tauto. }
  destruct (load_from_config (summary config) None _) as [[sf|e] w3] eqn:Hsf;
    simpl.
  2:{ eexists. rewrite <- !app_assoc. split; [reflexivity|].
      left. repeat constructor; simpl; tauto. }
  destruct (test model loss_fn tl _ sf bf w3) as [r w4]; simpl.
  eexists. rewrite <- !app_assoc. split; [reflexivity|].
  right. exists [EvLog "starting test with the config:"; EvLog "config";
                 EvBodyDataset td; EvDataLoader ds], tl, sf, w2, w3.
  split; [reflexivity|]. split; [|exact Hsf].
  repeat constructor; simpl; tauto.
Qed.

(** A test run in which every collaborator returns: the result is the
    one of [test], called last. *)
Lemma run_succeeds config bf model loss_fn s td ds tl sf w1 w2 w3 :
  test_ config !! "data" = Some td →
  BodyDataset td (outside s) = (Ok ds, w1) →
  DataLoader ds true (<["shuffle" := false_cfg]> (dataloader config)) w1
    = (Ok tl, w2) →
  load_from_config (summary config) None
    (set_attr model "cal_enabled" false
       (set_attr model "learn_blur_enabled" false w2)) = (Ok sf, w3) →
  run config bf model loss_fn s
  = ((test model loss_fn tl
        (with_dataloader config
           (<["shuffle" := false_cfg]> (dataloader config))) sf bf w3).1,
     {| outside :=
          (test model loss_fn tl
             (with_dataloader config
                (<["shuffle" := false_cfg]> (dataloader config)))
             sf bf w3).2;
        trace := trace s ++ run_events config td ds model loss_fn tl sf |}).
Proof.
  intros Htd HB HD HS.
  unfold run, log, bind, invoke, test_entry, ret, run_events, test_tail.
  simpl. rewrite Htd. simpl. rewrite HB. simpl. rewrite HD. simpl.
  rewrite HS. simpl.
  destruct (test model loss_fn tl _ sf bf w3) as [r w4]. simpl.
  rewrite <- !app_assoc. reflexivity.
Qed.

(** C10 (as the code has it). [run_test.main] first builds the data set,
    the model, the loss function and the training loader; an exception
    of one of these calls (a missing CUDA device, for one) ends [main]
    before it looks at [config.test].  Once they have returned: without
    a "ckpt" entry [main] raises [ValueError("No checkpoint provided")]
    at once, and in no case does it start a test; with the entry it
    calls [load_checkpoint] on that model in the state they left, before
    anything else; if the call raises, [main] ends with that exception
    and no test; if it returns, [main] goes on with the test run on the
    same model, every test event comes after the load event, and when
    the test data set, the loader and the summary function are built
    without error the run ends with the one call to [test], whose result
    is the result of [main]. *)
Theorem main_checkpoint_gate config s :
  (∀ e s1, setup config s = (Raise e, s1) → main config s = (Raise e, s1)) ∧
  (test_ config !! "ckpt" = None →
     (∃ e, (main config s).1 = Raise e) ∧
     (∃ evs, trace (main config s).2 = trace s ++ evs ∧ quiet evs) ∧
     (∀ v s1, setup config s = (Ok v, s1) →
        main config s
        = (Raise (ValueError "No checkpoint provided"), s1))) ∧
  (∀ ckpt bf model loss_fn s1,
     test_ config !! "ckpt" = Some ckpt →
     setup config s = (Ok (bf, model, loss_fn), s1) →
     ∃ r w evs0,
       load_checkpoint ckpt model (outside s1) = (r, w) ∧
       trace s1 = trace s ++ evs0 ∧ quiet evs0 ∧
       (∀ e, r = Raise e →
          main config s = (Raise e, loaded s1 ckpt model w)) ∧
       (r = Ok tt →
          main config s
          = run config bf model loss_fn (loaded s1 ckpt model w) ∧
          (∃ evs,
             trace (main config s).2
             = trace (loaded s1 ckpt model w) ++ evs ∧
             (quiet evs ∨
              ∃ pre tl sf,
                evs = pre ++ test_tail config model loss_fn tl sf ∧
                quiet pre)) ∧
          ∀ td ds tl sf w1 w2 w3,
            test_ config !! "data" = Some td →
            BodyDataset td w = (Ok ds, w1) →
            DataLoader ds true
              (<["shuffle" := false_cfg]> (dataloader config)) w1
              = (Ok tl, w2) →
            load_from_config (summary config) None
              (set_attr model "cal_enabled" false
                 (set_attr model "learn_blur_enabled" false w2))
              = (Ok sf, w3) →
            main config s
            = ((test model loss_fn tl
                  (with_dataloader config
                     (<["shuffle" := false_cfg]> (dataloader config)))
                  sf bf w3).1,
               {| outside :=
                    (test model loss_fn tl
                       (with_dataloader config
                          (<["shuffle" := false_cfg]> (dataloader config)))
                       sf bf w3).2;
                  trace :=
                    trace (loaded s1 ckpt model w)
                      ++ run_events config td ds model loss_fn tl sf |}))).
Proof.
  destruct (setup_appends config s) as (evs0 & Ht0 & Hall0).
  unfold main. split; [|split].
  - intros e s1 Hs. now rewrite (bind_Raise _ _ _ _ _ Hs).
  - intros Hno.
    destruct (setup config s) as [[[[bf model] loss_fn]|e] s1] eqn:Hs;
      simpl in Ht0.
    + rewrite (bind_Ok _ _ _ _ _ Hs).
      rewrite (bind_Raise _ _ _ _ _ (load_ckpt_absent _ _ _ Hno)).
      simpl. split; [eauto|]. split; [eauto|].
      intros v s2 [= <- <-]. reflexivity.
    + rewrite (bind_Raise _ _ _ _ _ Hs). simpl.
      split; [eauto|]. split; [eauto|]. intros v s2 [=].
  - intros ckpt bf model loss_fn s1 Hc Hs.
    rewrite Hs in Ht0. simpl in Ht0.
    rewrite (bind_Ok _ _ _ _ _ Hs).
    destruct (load_ckpt_present config model s1 ckpt Hc)
      as (r & w & Hload & Hl).
    exists r, w, evs0.
    split; [exact Hload|]. split; [exact Ht0|]. split; [exact Hall0|].
    split.
    + intros e ->. now rewrite (bind_Raise _ _ _ _ _ Hl).
    + intros ->. rewrite (bind_Ok _ _ _ _ _ Hl).
      split; [reflexivity|]. split.
      * destruct (run_trace config bf model loss_fn
                    (loaded s1 ckpt model w)) as (evs2 & Ht2 & Hcase).
        exists evs2. split; [exact Ht2|].
        destruct Hcase as [Hq | (pre & tl & sf & _ & _ & -> & Hpre & _)];
          [now left|].
        right. eauto.
      * intros td ds tl sf w1 w2 w3 Htd HB HD HS.
        exact (run_succeeds config bf model loss_fn
                 (loaded s1 ckpt model w) td ds tl sf w1 w2 w3
                 Htd HB HD HS).
Qed.
End driver_claims.

(** * The properties on the one-Gaussian configuration *)
Section instances.
Import torch.
Local Open Scope R_scope.

Lemma sample_splat :
  AutoEncoder.splat (H:=Samples.rasterizer) 1 1
    Samples.K Samples.Rt Samples.prims 0
    [[[1]]; [[1]]; [[2]]] [[[0.25]]] [[[2]]].
Proof.
  unfold AutoEncoder.splat, AutoEncoder.render_output, AutoEncoder.prim,
    Samples.prims, Samples.K, Samples.Rt.
  eexists. cbn. simplify_map_eq. done.
Qed.

Lemma sample_render_ready :
  AutoEncoder.render_ready (H:=Samples.rasterizer) 1 1
    Samples.K Samples.Rt Samples.prims.
Proof.
  split; [simpl; lia|].
  exists (3, 1, 1)%nat, (1, 1, 1)%nat, (1, 1, 1)%nat.
  intros [|b] Hb; [|simpl in Hb; lia].
  eexists _, _, _. split; [exact sample_splat|]. done.
Qed.

Lemma render_stacks_rgb_alpha_depth_witness :
  ∃ rgb alpha depth,
    AutoEncoder.render (H:=Samples.rasterizer) 1 1
      Samples.K Samples.Rt Samples.prims = Some (rgb, alpha, depth) ∧
    rgb !! 0%nat = Some [[[1]]; [[1]]; [[2]]] ∧
    alpha !! 0%nat = Some (map3 (λ t, 1.0 - t) [[[0.25]]]) ∧
    px depth 0 0 0 0 = Some (2 / clamp 0.05 1.0 (1.0 - 0.25)).
Proof.
  destruct (render_stacks_rgb_alpha_depth (H:=Samples.rasterizer) 1 1
              Samples.K Samples.Rt Samples.prims) as [Hret Hval].
  destruct (Hret sample_render_ready) as [[[rgb alpha] depth] Hr].
  exists rgb, alpha, depth. split; [exact Hr|].
  destruct (Hval rgb alpha depth Hr) as (_ & _ & _ & Hb).
  destruct (Hb 0%nat ltac:(simpl; lia))
    as (r & T & d & Hs & Hrgb & Halpha & Hdepth).
  destruct Hs as (out & Hout & Hr' & HT & Hd).
  destruct sample_splat as (out' & Hout' & Hr'' & HT' & Hd').
  rewrite Hout' in Hout. injection Hout as <-.
  rewrite Hr'' in Hr'. injection Hr' as <-.
  rewrite HT' in HT. injection HT as <-.
  rewrite Hd' in Hd. injection Hd as <-.
  split; [exact Hrgb|]. split; [exact Halpha|].
  apply Hdepth; reflexivity.
Defined.
Lemma sample_render :
  AutoEncoder.render (H:=Samples.rasterizer) 1 1
    Samples.K Samples.Rt Samples.prims
  = Some ([[[[1]]; [[1]]; [[2]]]],
          [[[[1.0 - 0.25]]]],
          [[[[2 / clamp 0.05 1.0 (1.0 - 0.25)]]]]).
Proof. vm_compute. reflexivity. Qed.

Lemma depth_divisor_bounded_below_witness :
  ∃ r T d x t q,
    AutoEncoder.splat (H:=Samples.rasterizer) 1 1
      Samples.K Samples.Rt Samples.prims 0 r T d ∧
    px3 d 0 0 0 = Some x ∧ px3 T 0 0 0 = Some t ∧
    px [[[[1.0 - 0.25]]]] 0 0 0 0 = Some (1.0 - t) ∧
    px (AutoEncoder.depth_divisor [[[[1.0 - 0.25]]]]) 0 0 0 0 = Some q ∧
    q = clamp 0.05 1.0 (1.0 - t) ∧ 0.05 <= q <= 1.0 ∧ q ≠ 0 ∧
    2 / clamp 0.05 1.0 (1.0 - 0.25) = x / q.
Proof.
  apply (depth_divisor_bounded_below (H:=Samples.rasterizer) 1 1
           Samples.K Samples.Rt Samples.prims _ _ _ 0 0 0 0 _
           sample_render).
  reflexivity.
Defined.
Lemma eval_mode_returns_mean_witness :
  (@Encoder.forward Samples.encoder Samples.random false
     Samples.registration_vertices Samples.color 0%nat).1 !! "embs"
  = (@Encoder.forward Samples.encoder Samples.random false
       Samples.registration_vertices Samples.color 0%nat).1 !! "embs_mu" ∧
  (@Encoder.forward Samples.encoder Samples.random false
     Samples.registration_vertices Samples.color 0%nat).2 = 0%nat.
Proof.
  apply (proj1 (@eval_mode_returns_mean Samples.encoder Samples.random
                  Samples.registration_vertices Samples.color)).
Defined.

Lemma sample_turn_orthonormal : AutoEncoder.orthonormal Samples.turn.
Proof.
  split; [split; [reflexivity | repeat constructor]|].
  unfold matmul, vecmat, transpose, dot, AutoEncoder.identity3. simpl.
  repeat f_equal; lra.
Qed.

Lemma sample_head_pose_orthonormal :
  Forall (λ hp, AutoEncoder.is_mat 3 4 hp ∧
                AutoEncoder.orthonormal (AutoEncoder.rotation hp))
    Samples.head_pose.
Proof.
  repeat constructor.
  unfold matmul, vecmat, transpose, dot, AutoEncoder.identity3. simpl.
  repeat f_equal; lra.
Qed.

Lemma headrel_positions_pose_invariant_witness :
  ∃ hc hl,
    AutoEncoder.headrel_campos Samples.head_pose Samples.campos = Some hc ∧
    AutoEncoder.headrel_light_pos Samples.head_pose Samples.light_pos
      = Some hl ∧
    AutoEncoder.headrel_campos
      (AutoEncoder.move_pose Samples.turn Samples.shift <$> Samples.head_pose)
      (AutoEncoder.move_point Samples.turn Samples.shift <$> Samples.campos)
      = Some hc ∧
    AutoEncoder.headrel_light_pos
      (AutoEncoder.move_pose Samples.turn Samples.shift <$> Samples.head_pose)
      (fmap (M:=list) (AutoEncoder.move_point Samples.turn Samples.shift)
         <$> Samples.light_pos)
      = Some hl.
Proof.
  destruct (headrel_positions_pose_invariant
              Samples.head_pose Samples.campos Samples.light_pos)
    as (hc & hl & Hhc & Hhl & _ & _ & Hmove).
  - exact sample_head_pose_orthonormal.
  - repeat constructor.
  - repeat constructor.
  - exists hc, hl. split; [exact Hhc|]. split; [exact Hhl|].
    apply Hmove; [exact sample_turn_orthonormal | reflexivity].
Defined.

Lemma sample_forward_returns :
  is_Some
    (@AutoEncoder.forward Samples.autoencoder Samples.rasterizer
       Samples.random Samples.sh Samples.shading Samples.encoder
       Samples.geomdecoder
       (Samples.decoder Samples.channels Samples.vchannels)
       false Samples.head_pose Samples.campos Samples.registration_vertices
       Samples.color Samples.light_intensity Samples.light_pos
       Samples.n_lights Samples.K Samples.Rt None None None 0%nat).
Proof. apply (bool_decide_unpack _). vm_compute. exact I. Qed.

Lemma sample_headrel_light_pos :
  AutoEncoder.headrel_light_pos Samples.head_pose Samples.light_pos
  = Some Samples.headrel_light_pos.
Proof.
  unfold AutoEncoder.headrel_light_pos, AutoEncoder.headrel,
    AutoEncoder.translation, AutoEncoder.rotation, vecmat, transpose, dot,
    Samples.headrel_light_pos.
  cbn. repeat f_equal; lra.
Qed.

Lemma sample_embs :
  (@Encoder.forward Samples.encoder Samples.random false
     Samples.registration_vertices Samples.color 0%nat).1 !! "embs"
  = Some (V2 [[1 * 0.1]]).
Proof. unfold Encoder.forward. cbn. by simplify_map_eq. Qed.

Lemma light_sh_and_diffuse_color_witness :
  ∃ preds g' lsh dc,
    @AutoEncoder.forward Samples.autoencoder Samples.rasterizer
      Samples.random Samples.sh Samples.shading Samples.encoder
      Samples.geomdecoder
      (Samples.decoder Samples.channels Samples.vchannels)
      false Samples.head_pose Samples.campos Samples.registration_vertices
      Samples.color Samples.light_intensity Samples.light_pos
      Samples.n_lights Samples.K Samples.Rt None None None 0%nat
    = Some (preds, g') ∧
    preds !! "headrel_light_sh" = Some (V3 lsh) ∧
    preds !! "diff_color" = Some (V3 dc) ∧
    ∃ m lshc db dn,
      lsh !! 0%nat = Some m ∧ m !! 0%nat = Some lshc ∧
      lshc !! 0%nat
      = Some (sum (zip_with
                     (@AutoEncoder.light_term Samples.autoencoder Samples.sh
                        0 0)
                     [[2; 0; 0]] (AutoEncoder.expand3 <$> [[2]]))) ∧
      dc !! 0%nat = Some db ∧ db !! 0%nat = Some dn ∧
      dn !! 0%nat = Some (0.5 * dot [1] lshc).
Proof.
  destruct sample_forward_returns as [[preds g'] Hf].
  destruct (@light_sh_and_diffuse_color Samples.autoencoder
              Samples.rasterizer Samples.random Samples.sh Samples.shading
              Samples.encoder Samples.geomdecoder
              (Samples.decoder Samples.channels Samples.vchannels)
              false Samples.head_pose Samples.campos
              Samples.registration_vertices Samples.color
              Samples.light_intensity Samples.light_pos Samples.n_lights
              Samples.K Samples.Rt None None None 0%nat preds g' Hf)
    as (hlp & embs & lsh & dc & Hhlp & Hembs & Hlsh & Hdc & Hlight & Hdiff).
  rewrite sample_headrel_light_pos in Hhlp. injection Hhlp as <-.
  rewrite sample_embs in Hembs. injection Hembs as <-.
  exists preds, g', lsh, dc.
  split; [exact Hf|]. split; [exact Hlsh|]. split; [exact Hdc|].
  destruct (Hlight 0%nat [[2; 0; 0]] [[2]] 0%nat 0%nat)
    as (m & Hm & Hat); try reflexivity.
  { repeat constructor. }
  { lia. }
  { cbn. lia. }
  unfold at2 in Hat.
  destruct (m !! 0%nat) as [lshc|] eqn:Hrow; [|discriminate].
  simpl in Hat.
  destruct (Hdiff 0%nat 0%nat 0%nat [[0.5; 0.5; 0.5]] [0.5; 0.5; 0.5] 0.5
              [[[1]; [1]; [1]]] [[1]; [1]; [1]] [1] m lshc)
    as (db & dn & Hdb & Hdn & Hval); try reflexivity; try assumption.
  { simpl. lia. }
  exists m, lshc, db, dn. auto 10.
Defined.

Lemma sample_decoder_envmap_returns :
  is_Some
    (@PrimDecoder.forward
       (Samples.decoder Samples.channels Samples.vchannels) Samples.shading
       Samples.embs Samples.geom Samples.campos Samples.light_intensity
       Samples.headrel_light_pos Samples.headrel_light_sh Samples.n_lights
       (Some tt) (Some Samples.lightrot)).
Proof. apply (bool_decide_unpack _). vm_compute. exact I. Qed.

Lemma specular_model_selected_witness :
  ∃ d pre sampled,
    @PrimDecoder.forward
      (Samples.decoder Samples.channels Samples.vchannels) Samples.shading
      Samples.embs Samples.geom Samples.campos Samples.light_intensity
      Samples.headrel_light_pos Samples.headrel_light_sh Samples.n_lights
      (Some tt) (Some Samples.lightrot) = Some d ∧
    d !! "spec_color"
      = Some (V3 (@PrimDecoder.times_spec_vis
                    (Samples.decoder Samples.channels Samples.vchannels)
                    Samples.embs Samples.campos pre)) ∧
    pre = bmap3 (clamp_max 1.0) (transpose <$> sampled).
Proof.
  destruct sample_decoder_envmap_returns as [d Hd].
  destruct (@specular_model_selected
              (Samples.decoder Samples.channels Samples.vchannels)
              Samples.shading
              Samples.embs Samples.geom Samples.campos
              Samples.light_intensity Samples.headrel_light_pos
              Samples.headrel_light_sh Samples.n_lights
              (Some tt) (Some Samples.lightrot) d Hd)
    as (pre & Hkey & _ & r & sampled & _ & Hrest).
  cbv zeta in Hrest. destruct Hrest as (_ & Hpre & _).
  exists d, pre, sampled. auto.
Defined.

(** Rows of zeros. *)
Lemma norm2_zeros (v : vec) : Forall (λ x, x = 0) v → norm2 v = 0.
Proof.
  intros Hv. unfold norm2. rewrite <- sqrt_0. f_equal.
  unfold sumsq, sum. induction Hv as [|x v -> _ IH]; csimpl; [reflexivity|].
  rewrite IH. ring.
Qed.

Lemma normalize_zeros (v : vec) :
  Forall (λ x, x = 0) v → Forall (λ x, x = 0) (normalize v).
Proof.
  intros Hv. unfold normalize. apply Forall_fmap.
  eapply Forall_impl; [exact Hv|]. intros x ->. simpl.
  unfold Rdiv. ring.
Qed.

Lemma reflect_zeros (v n : vec) :
  Forall (λ x, x = 0) v → Forall (λ x, x = 0) (PrimDecoder.reflect v n).
Proof.
  intros Hv. unfold PrimDecoder.reflect.
  assert (Hdot : dot v n = 0).
  { unfold dot, sum. revert n.
    induction Hv as [|x v -> _ IH]; intros [|y n]; csimpl;
      try reflexivity.
    rewrite IH. ring. }
  rewrite Hdot. clear Hdot. revert n.
  induction Hv as [|x v -> _ IH]; intros [|y n]; csimpl; constructor.
  - ring.
  - apply IH.
Qed.





Lemma sample_ref_dirs_row (campos : list vec) :
  is_Some (campos !! 0%nat) →
  is_Some
    (row3 (@PrimDecoder.ref_dirs
             (Samples.decoder Samples.channels Samples.vchannels)
             Samples.embs Samples.geom campos) 0 0).
Proof. intros [c Hc]. destruct campos as [|c' ?]; simplify_eq/=. eauto. Qed.

Lemma sample_primpos_row :
  row3 (@PrimDecoder.primpos
          (Samples.decoder Samples.channels Samples.vchannels)
          Samples.embs Samples.geom) 0 0
  = Some [0 + 0; 0 + 0; 0 + 1].
Proof. reflexivity. Qed.

Lemma reflection_preserves_norm_witness :
  norm2 (PrimDecoder.reflect [3; 4; 0] [0; 0; 1]) = norm2 [3; 4; 0] ∧
  ∃ r d nn,
    row3 (@PrimDecoder.ref_dirs
            (Samples.decoder Samples.channels Samples.vchannels)
            Samples.embs Samples.geom Samples.campos) 0 0 = Some r ∧
    r = PrimDecoder.reflect
          (normalize (zip_with Rminus [0 + 0; 0 + 0; 0 + 1] [1; 2; 8]))
          (normalize (zip_with Rplus d nn)).
Proof.
  destruct (@reflection_preserves_norm
              (Samples.decoder Samples.channels Samples.vchannels)
              Samples.embs Samples.geom Samples.campos) as [Hnorm Hrows].
  split.
  - apply Hnorm; [reflexivity|].
    unfold norm2, sumsq, sum. simpl.
    replace (0 * 0 + (0 * 0 + (1 * 1 + 0))) with 1 by lra.
    apply sqrt_1.
  - destruct (sample_ref_dirs_row Samples.campos) as [r Hr];
      [simpl; eauto|].
    destruct (Hrows 0%nat 0%nat r Hr)
      as (p & c & d & nn & Hp & Hc & _ & _ & Hrest).
    cbv zeta in Hrest. destruct Hrest as [Hreq _].
    rewrite sample_primpos_row in Hp. injection Hp as <-.
    simpl in Hc. injection Hc as <-.
    exists r, d, nn. split; [exact Hr | exact Hreq].
Defined.

(** C6, the claim as stated fails: for a camera placed at the Gaussian
    the view vector is zero, its normalisation is zero, and so is the
    computed reflection direction, whose norm is zero, not one. *)
Lemma reflection_at_camera_is_not_unit :
  ∃ r,
    row3 (@PrimDecoder.ref_dirs
            (Samples.decoder Samples.channels Samples.vchannels)
            Samples.embs Samples.geom Samples.campos_at_gaussian) 0 0
      = Some r ∧
    norm2 r ≠ 1.
Proof.
  destruct (sample_ref_dirs_row Samples.campos_at_gaussian) as [r Hr];
    [simpl; eauto|].
  exists r. split; [exact Hr|].
  destruct (ref_dirs_row _ _ _ _ _ _ Hr)
    as (p & c & d & nn & Hp & Hc & _ & _ & ->).
  rewrite sample_primpos_row in Hp. injection Hp as <-.
  simpl in Hc. injection Hc as <-.
  rewrite norm2_zeros; [lra|].
  apply reflect_zeros, normalize_zeros.
  simpl. repeat constructor; lra.
Qed.

Lemma sample_summary_returns :
  is_Some (@RGCASummary.__call__ Samples.imaging
             Samples.summary_preds Samples.summary_batch).
Proof.
  apply summary_returns;
    unfold RGCASummary.get2, RGCASummary.get3, RGCASummary.get4,
      Samples.summary_preds, Samples.summary_batch;
    try (intros v Hv); simplify_map_eq; eauto.
Qed.

Lemma summary_gt_and_diff_witness :
  ∃ out,
    @RGCASummary.__call__ Samples.imaging
      Samples.summary_preds Samples.summary_batch = Some out ∧
    "gt" ∈ dom out ∧ "diff" ∈ dom out ∧
    out !! "diff"
    = Some (@RGCASummary.to_uint8 Samples.imaging
              (RGCASummary.clamp01
                 (@scale_diff_image Samples.imaging
                    (map4 (clamp (-1) 1)
                       (zip_with (zip3 Rminus)
                          [[[[0.75]]; [[0.5]]; [[0.25]]]]
                          [[[[0.5]]; [[0.5]]; [[0.5]]]]))))).
Proof.
  destruct sample_summary_returns as [out Hout].
  destruct (@summary_gt_and_diff Samples.imaging
              Samples.summary_preds Samples.summary_batch out Hout)
    as (Hgt & Hdiff & Hval).
  assert (Himg : "image" ∈ dom Samples.summary_batch).
  { apply elem_of_dom. unfold Samples.summary_batch.
    rewrite lookup_insert_eq. eauto. }
  exists out. split; [exact Hout|].
  split; [now apply Hgt|]. split; [now apply Hdiff|].
  destruct (Hval (V4 [[[[0.5]]; [[0.5]]; [[0.5]]]]))
    as (rgb & gt & Hrgb & Hv & _ & Hd).
  { unfold Samples.summary_batch. now rewrite lookup_insert_eq. }
  cbv zeta in Hd. destruct Hd as [Hd _].
  injection Hv as <-.
  assert (Hrgb' : Samples.summary_preds !! "rgb"
                  = Some (V4 [[[[0.75]]; [[0.5]]; [[0.25]]]])).
  { unfold Samples.summary_preds. by simplify_map_eq. }
  rewrite Hrgb' in Hrgb. injection Hrgb as <-.
  exact Hd.
Defined.

Lemma sample_setup :
  ∃ v s1, @run_test.setup Samples.env
            (Samples.config Samples.without_ckpt) Samples.start
          = (run_test.Ok v, s1).
Proof. eexists _, _. vm_compute. reflexivity. Qed.

Lemma sample_setup_with_ckpt :
  ∃ s1, @run_test.setup Samples.env
          (Samples.config Samples.with_ckpt) Samples.start
        = (run_test.Ok ("data", "model", "loss"), s1).
Proof. eexists. vm_compute. reflexivity. Qed.

Lemma main_checkpoint_gate_witness :
  (∃ s1, @run_test.main Samples.env
           (Samples.config Samples.without_ckpt) Samples.start
         = (run_test.Raise (run_test.ValueError "No checkpoint provided"),
            s1)) ∧
  (∃ s1 w w',
     @run_test.setup Samples.env
       (Samples.config Samples.with_ckpt) Samples.start
     = (run_test.Ok ("data", "model", "loss"), s1) ∧
     @run_test.load_checkpoint Samples.env "weights" "model"
       (run_test.outside s1) = (run_test.Ok tt, w) ∧
     @run_test.main Samples.env
       (Samples.config Samples.with_ckpt) Samples.start
     = (run_test.Ok tt,
        @run_test.Build_state Samples.env w'
          (run_test.trace
             (@run_test.loaded Samples.env s1 "weights" "model" w)
           ++ @run_test.run_events Samples.env
                (Samples.config Samples.with_ckpt)
                "test data" "test data" "model" "loss" "test data"
                "summary"))).
Proof.
  split.
  - destruct (@main_checkpoint_gate Samples.env
                (Samples.config Samples.without_ckpt) Samples.start)
      as (_ & Hno & _).
    destruct Hno as (_ & _ & Hraise); [reflexivity|].
    destruct sample_setup as (v & s1 & Hs).
    exists s1. exact (Hraise v s1 Hs).
  - destruct sample_setup_with_ckpt as [s1 Hs].
    destruct (@main_checkpoint_gate Samples.env
                (Samples.config Samples.with_ckpt) Samples.start)
      as (_ & _ & Hyes).
    destruct (Hyes ("weights" : @run_test.cfg Samples.env)
                ("data" : @run_test.obj Samples.env)
                ("model" : @run_test.obj Samples.env)
                ("loss" : @run_test.obj Samples.env) s1 eq_refl Hs)
      as (r & w & evs0 & Hload & _ & _ & _ & Hok).
    simpl in Hload. injection Hload as <- <-.
    destruct (Hok eq_refl) as (_ & _ & Hrun).
    eexists s1, _, _. split; [exact Hs|]. split; [reflexivity|].
    exact (Hrun ("test data" : @run_test.cfg Samples.env)
             ("test data" : @run_test.obj Samples.env)
             ("test data" : @run_test.obj Samples.env)
             ("summary" : @run_test.obj Samples.env)
             _ _ _ eq_refl eq_refl eq_refl eq_refl).
Defined.

(** On a machine without a CUDA device [main] ends with the device
    error, although the configuration has no "ckpt" entry. *)
Lemma main_without_device_raises_device_error :
  run_test.test_ (Samples.config Samples.without_ckpt) !! "ckpt" = None ∧
  (@run_test.main Samples.no_device_env
     (Samples.config Samples.without_ckpt) Samples.no_device_start).1
  = run_test.Raise (run_test.Raised "no CUDA device") ∧
  (@run_test.main Samples.no_device_env
     (Samples.config Samples.without_ckpt) Samples.no_device_start).1
  ≠ run_test.Raise (run_test.ValueError "No checkpoint provided").
Proof.
  split; [reflexivity|].
  split; [vm_compute; reflexivity | vm_compute; discriminate].
Qed.

End instances.

(** * Further properties of the code *)

Section camera_frame.
Import torch AutoEncoder.
Local Open Scope R_scope.

(** A matrix with orthonormal columns has orthonormal rows. *)
Lemma orth_rows q1 q2 q3 q4 q5 q6 q7 q8 q9 :
  matmul (transpose [[q1; q2; q3]; [q4; q5; q6]; [q7; q8; q9]])
    [[q1; q2; q3]; [q4; q5; q6]; [q7; q8; q9]] = identity3 →
  q1 * q1 + q2 * q2 + q3 * q3 = 1 ∧ q4 * q4 + q5 * q5 + q6 * q6 = 1 ∧
  q7 * q7 + q8 * q8 + q9 * q9 = 1 ∧ q1 * q4 + q2 * q5 + q3 * q6 = 0 ∧
  q1 * q7 + q2 * q8 + q3 * q9 = 0 ∧ q4 * q7 + q5 * q8 + q6 * q9 = 0.
Proof.
  intros Hq.
  unfold matmul, vecmat, transpose, dot, identity3 in Hq. simpl in Hq.
  injection Hq as E1 E2 E3 E4 E5 E6 E7 E8 E9.
  assert (C1 : q1 * q1 + q4 * q4 + q7 * q7 = 1) by lra.
  assert (C2 : q2 * q2 + q5 * q5 + q8 * q8 = 1) by lra.
  assert (C3 : q3 * q3 + q6 * q6 + q9 * q9 = 1) by lra.
  assert (C4 : q1 * q2 + q4 * q5 + q7 * q8 = 0) by lra.
  assert (C5 : q1 * q3 + q4 * q6 + q7 * q9 = 0) by lra.
  assert (C6 : q2 * q3 + q5 * q6 + q8 * q9 = 0) by lra.
  clear E1 E2 E3 E4 E5 E6 E7 E8 E9.
  repeat split; nsatz.
Qed.

(** The product with the completed head pose, entry by entry. *)
Lemma matmul_head_pose_4x4 r1 r2 r3 r4 r5 r6 r7 r8 r9 s1 s2 s3
    a b c t1 d e f t2 g h i t3 :
  matmul [[r1; r2; r3; s1]; [r4; r5; r6; s2]; [r7; r8; r9; s3]]
    (head_pose_4x4 [[a; b; c; t1]; [d; e; f; t2]; [g; h; i; t3]])
  = [[r1 * a + (r2 * d + (r3 * g + (s1 * 0 + 0)));
      r1 * b + (r2 * e + (r3 * h + (s1 * 0 + 0)));
      r1 * c + (r2 * f + (r3 * i + (s1 * 0 + 0)));
      r1 * t1 + (r2 * t2 + (r3 * t3 + (s1 * 1.0 + 0)))];
     [r4 * a + (r5 * d + (r6 * g + (s2 * 0 + 0)));
      r4 * b + (r5 * e + (r6 * h + (s2 * 0 + 0)));
      r4 * c + (r5 * f + (r6 * i + (s2 * 0 + 0)));
      r4 * t1 + (r5 * t2 + (r6 * t3 + (s2 * 1.0 + 0)))];
     [r7 * a + (r8 * d + (r9 * g + (s3 * 0 + 0)));
      r7 * b + (r8 * e + (r9 * h + (s3 * 0 + 0)));
      r7 * c + (r8 * f + (r9 * i + (s3 * 0 + 0)));
      r7 * t1 + (r8 * t2 + (r9 * t3 + (s3 * 1.0 + 0)))]].
Proof. reflexivity. Qed.

Lemma headrel_Rt_lookup (Rt head_pose : list mat) b (Rtb hp : mat) :
  Rt !! b = Some Rtb → head_pose !! b = Some hp →
  headrel_Rt Rt head_pose !! b = Some (matmul Rtb (head_pose_4x4 hp)).
Proof.
  intros HR Hh. unfold headrel_Rt.
  rewrite lookup_zip_with, HR, list_lookup_fmap, Hh. reflexivity.
Qed.

(** The head-relative extrinsics act on a homogeneous head-frame point
    as the extrinsics act on its image under the head pose. *)
Lemma matvec_headrel_Rt (Rtb hp : mat) (x : vec) :
  is_mat 3 4 Rtb → is_mat 3 4 hp → length x = 3%nat →
  matvec (matmul Rtb (head_pose_4x4 hp)) (x ++ [1])
  = matvec Rtb (matvec hp (x ++ [1]) ++ [1]).
Proof.
  intros HmR Hmh Hx.
  destruct (is_mat_3_4 Rtb HmR)
    as (r1 & r2 & r3 & s1 & r4 & r5 & r6 & s2 & r7 & r8 & r9 & s3 & ->).
  destruct (is_mat_3_4 hp Hmh)
    as (a & b' & c & t1 & d & e & f & t2 & g & h & i & t3 & ->).
  destruct (length_3 x Hx) as (x1 & x2 & x3 & ->).
  rewrite matmul_head_pose_4x4. unfold matvec, dot. simpl.
  f_equal; [|f_equal; [|f_equal]]; lra.
Qed.

Lemma is_mat_headrel_Rt (Rtb hp : mat) :
  is_mat 3 4 Rtb → is_mat 3 4 hp →
  is_mat 3 4 (matmul Rtb (head_pose_4x4 hp)).
Proof.
  intros HmR Hmh.
  destruct (is_mat_3_4 Rtb HmR)
    as (r1 & r2 & r3 & s1 & r4 & r5 & r6 & s2 & r7 & r8 & r9 & s3 & ->).
  destruct (is_mat_3_4 hp Hmh)
    as (a & b' & c & t1 & d & e & f & t2 & g & h & i & t3 & ->).
  rewrite matmul_head_pose_4x4. split; [reflexivity|]. repeat constructor.
Qed.

(** The head pose maps the head-relative position of a point back to the
    point. *)
Lemma head_pose_of_headrel (hp : mat) (p q : vec) :
  is_mat 3 4 hp → orthonormal (rotation hp) → length p = 3%nat →
  headrel hp p = Some q → length q = 3%nat ∧ matvec hp (q ++ [1]) = p.
Proof.
  intros Hmh [_ Ho] Hlen Hq.
  destruct (is_mat_3_4 hp Hmh)
    as (a & b' & c' & t1 & d & e & f & t2 & g & h & i & t3 & ->).
  destruct (length_3 p Hlen) as (x & y & z & ->).
  unfold rotation in Ho. simpl in Ho.
  apply orth_rows in Ho as (N1 & N2 & N3 & N4 & N5 & N6).
  unfold headrel, translation in Hq. simpl in Hq. injection Hq as <-.
  split; [reflexivity|].
  unfold rotation, vecmat, transpose, matvec, dot. simpl.
  assert (P1 : a * (a * (x - t1) + d * (y - t2) + g * (z - t3))
             + b' * (b' * (x - t1) + e * (y - t2) + h * (z - t3))
             + c' * (c' * (x - t1) + f * (y - t2) + i * (z - t3))
             = x - t1).
  { transitivity ((x - t1) * (a * a + b' * b' + c' * c')
                  + (y - t2) * (a * d + b' * e + c' * f)
                  + (z - t3) * (a * g + b' * h + c' * i)); [ring|].
    rewrite N1, N4, N5. ring. }
  assert (P2 : d * (a * (x - t1) + d * (y - t2) + g * (z - t3))
             + e * (b' * (x - t1) + e * (y - t2) + h * (z - t3))
             + f * (c' * (x - t1) + f * (y - t2) + i * (z - t3))
             = y - t2).
  { transitivity ((x - t1) * (a * d + b' * e + c' * f)
                  + (y - t2) * (d * d + e * e + f * f)
                  + (z - t3) * (d * g + e * h + f * i)); [ring|].
    rewrite N2, N4, N6. ring. }
  assert (P3 : g * (a * (x - t1) + d * (y - t2) + g * (z - t3))
             + h * (b' * (x - t1) + e * (y - t2) + h * (z - t3))
             + i * (c' * (x - t1) + f * (y - t2) + i * (z - t3))
             = z - t3).
  { transitivity ((x - t1) * (a * g + b' * h + c' * i)
                  + (y - t2) * (d * g + e * h + f * i)
                  + (z - t3) * (g * g + h * h + i * i)); [ring|].
    rewrite N3, N5, N6. ring. }
  f_equal; [|f_equal; [|f_equal]]; lra.
Qed.

(** X1. The head-relative extrinsics built by [AutoEncoder.forward],
    [Rt @ head_pose_4x4], are again a [3, 4] matrix, and they send every
    homogeneous head-frame point to where [Rt] sends its image under
    the head pose: the two transforms compose. *)
Theorem headrel_Rt_composes (Rt head_pose : list mat) b (Rtb hp : mat) :
  Rt !! b = Some Rtb → head_pose !! b = Some hp →
  is_mat 3 4 Rtb → is_mat 3 4 hp →
  ∃ M, headrel_Rt Rt head_pose !! b = Some M ∧ is_mat 3 4 M ∧
    ∀ x : vec, length x = 3%nat →
      matvec M (x ++ [1]) = matvec Rtb (matvec hp (x ++ [1]) ++ [1]).
Proof.
  intros HR Hh HmR Hmh.
  exists (matmul Rtb (head_pose_4x4 hp)).
  split; [now apply headrel_Rt_lookup|].
  split; [now apply is_mat_headrel_Rt|].
  intros x Hx. now apply matvec_headrel_Rt.
Qed.

(** X2. The two head-relative quantities of [AutoEncoder.forward] agree
    with each other: for a head pose with orthonormal rotation, the head
    pose maps the head-relative camera position back to the camera
    position, so the head-relative extrinsics send the head-relative
    camera position to where the extrinsics send the camera position. *)
Theorem headrel_Rt_sees_headrel_campos
    (Rt head_pose : list mat) (campos hc : list vec) b (Rtb hp : mat)
    (c : vec) :
  headrel_campos head_pose campos = Some hc →
  Rt !! b = Some Rtb → head_pose !! b = Some hp → campos !! b = Some c →
  is_mat 3 4 Rtb → is_mat 3 4 hp → orthonormal (rotation hp) →
  length c = 3%nat →
  ∃ M q, headrel_Rt Rt head_pose !! b = Some M ∧ hc !! b = Some q ∧
    matvec hp (q ++ [1]) = c ∧
    matvec M (q ++ [1]) = matvec Rtb (c ++ [1]).
Proof.
  intros Hhc HR Hh Hc HmR Hmh Ho Hlen.
  destruct (mapM_zip_lookup _ _ _ _ _ _ _ Hhc Hh Hc) as (q & Hq & Hqb).
  simpl in Hq.
  destruct (head_pose_of_headrel hp c q Hmh Ho Hlen Hq) as [Lq Eq].
  exists (matmul Rtb (head_pose_4x4 hp)), q.
  split; [now apply headrel_Rt_lookup|]. split; [exact Hqb|].
  split; [exact Eq|].
  rewrite matvec_headrel_Rt by assumption. now rewrite Eq.
Qed.
End camera_frame.

Section compositing.
Import torch AutoEncoder.
Local Open Scope R_scope.

Lemma at2_zip2_Some f (s t : mat) i j x y :
  at2 s i j = Some x → at2 t i j = Some y →
  at2 (zip2 f s t) i j = Some (f x y).
Proof.
  unfold at2, zip2. intros Hs Ht. rewrite lookup_zip_with.
  destruct (s !! i) as [rs|]; simpl in *; [|discriminate].
  destruct (t !! i) as [rt|]; simpl in *; [|discriminate].
  rewrite lookup_zip_with, Hs, Ht. reflexivity.
Qed.

(** X3. The training-time compositing of [AutoEncoder.forward],
    [rgb + (1.0 - alpha) * bg] with a one-channel alpha broadcast over
    the colour channels: a pixel keeps its rendered colour where alpha
    is one, and everywhere in a frame whose background has been
    multiplied by 0.0 (what the code does for frames that are not fully
    lit). *)
Theorem over_background_pixel (rgb bg : image) (plane : mat) c i j r a x :
  px3 rgb c i j = Some r → at2 plane i j = Some a →
  px3 bg c i j = Some x →
  px3 (over_background rgb [plane] bg) c i j
    = Some (r + (1.0 - a) * x) ∧
  px3 (over_background rgb [plane] (map3 (λ x, x * 0.0) bg)) c i j
    = Some r ∧
  (a = 1 → px3 (over_background rgb [plane] bg) c i j = Some r).
Proof.
  intros Hr Ha Hx.
  assert (Hgen : ∀ (bg' : image) x', px3 bg' c i j = Some x' →
            px3 (over_background rgb [plane] bg') c i j
            = Some (r + (1.0 - a) * x')).
  { intros bg' x' Hx'. unfold over_background. simpl.
    apply px3_zip3; [exact Hr|].
    unfold px3 in Hx' |- *. rewrite list_lookup_fmap.
    destruct (bg' !! c) as [p|]; simpl in *; [|discriminate].
    change (at2 (zip2 Rmult (fmap (M:=list) (λ a0, 1.0 - a0) <$> plane) p)
              i j = Some ((1.0 - a) * x')).
    apply at2_zip2_Some; [|exact Hx'].
    unfold at2 in Ha |- *. rewrite list_lookup_fmap.
    destruct (plane !! i) as [row|]; simpl in *; [|discriminate].
    rewrite list_lookup_fmap, Ha. reflexivity. }
  split; [now apply Hgen|]. split.
  - rewrite (Hgen _ (x * 0.0)) by (rewrite px3_map3, Hx; reflexivity).
    f_equal. lra.
  - intros ->. rewrite (Hgen _ x Hx). f_equal. lra.
Qed.
End compositing.

Section forward_shape.
Import torch.
Context `{AutoEncoder.Self} `{Rasterizer} `{Random} `{SH} `{Shading}.
Context `{Encoder.Self} `{GeomDecoder.Self} `{PrimDecoder.Self}.
Local Open Scope R_scope.

(** X4. The keys of the dictionary returned by [AutoEncoder.forward]:
    always the nineteen of [forward_keys]; "image_weight" and "mesh_nml"
    exactly in training mode; "learn_blur_weights" exactly when the
    learnable blur is enabled; and no other key. *)
Theorem forward_key_set training head_pose campos rv color li lp nl K Rt
    bg lit cam g preds g' :
  AutoEncoder.forward training head_pose campos rv color li lp nl K Rt
    bg lit cam g = Some (preds, g') →
  ∀ k, is_Some (preds !! k) ↔
    k ∈ AutoEncoder.forward_keys
    ∨ (training = true ∧ k ∈ ["image_weight"; "mesh_nml"])
    ∨ (AutoEncoder.learn_blur_enabled = true ∧ k = "learn_blur_weights").
Proof.
  unfold AutoEncoder.forward. intros Hf.
  destruct (AutoEncoder.headrel_campos head_pose campos) as [hc|];
    [|discriminate]. cbn [mbind option_bind] in Hf.
  destruct (AutoEncoder.headrel_light_pos head_pose lp) as [hlp|];
    [|discriminate]. cbn [mbind option_bind] in Hf.
  destruct (Encoder.forward training rv color g) as [enc g1] eqn:Henc.
  destruct (enc !! "embs") as [v|] eqn:Hembs; [|discriminate].
  cbn [mbind option_bind] in Hf.
  destruct v as [embs | |]; try discriminate.
  cbn [as_V2 mbind option_bind] in Hf.
  destruct (GeomDecoder.forward embs !! "face_geom") as [v|] eqn:Hgeom;
    [|discriminate]. cbn [mbind option_bind] in Hf.
  destruct v as [| geom |]; try discriminate.
  cbn [as_V3 mbind option_bind] in Hf.
  destruct (PrimDecoder.forward _ _ _ _ _ _ _ _ _) as [d|] eqn:Hd;
    [|discriminate]. cbn [mbind option_bind] in Hf.
  destruct (AutoEncoder.render _ _ _ _ _) as [[[rgb alpha] depth]|];
    [|discriminate]. cbn [mbind option_bind] in Hf.
  match type of Hf with
  | (?c ≫= _) = _ => destruct c as [rgb'|]; [|discriminate]
  end.
  cbn [mbind option_bind] in Hf. injection Hf as <- <-.
  unfold PrimDecoder.forward in Hd.
  destruct (PrimDecoder.spec_color _ _ _ _ _ _ _ _) as [sc|];
    [|discriminate].
  cbn [mbind option_bind] in Hd. injection Hd as <-.
  unfold Encoder.forward in Henc. injection Henc as <- _.
  clear Hembs Hgeom.
  intros k. unfold AutoEncoder.forward_keys.
  destruct AutoEncoder.learn_blur_enabled, training;
    try destruct (AutoEncoder._rasterize_facew _ _ _ _).
  all: repeat first [ rewrite lookup_insert_is_Some'
                    | rewrite lookup_union_is_Some ].
  all: split.
  1,3,5,7:
    intros Hk; repeat (destruct Hk as [Hk|Hk]);
    try (by destruct (lookup_empty_is_Some (A:=value) _ Hk));
    subst k;
    first [ by (left; repeat constructor)
          | by (right; left; split; [reflexivity|repeat constructor])
          | by (right; right; split; reflexivity) ].
  all: intros [Hk | [[Ht Hk] | [Ht Hk]]]; try discriminate Ht.
  all: repeat (apply elem_of_cons in Hk as [->|Hk]);
    try (apply elem_of_nil in Hk; contradiction);
    try subst k; some_disjunct.
Qed.

(** X5. In training mode [AutoEncoder.forward] cannot composite over a
    background without the per-frame lighting flags: called with a
    background and [is_fully_lit_frame = None] it raises. *)
Theorem forward_training_needs_lit_flags head_pose campos rv color li lp
    nl K Rt bg cam g :
  AutoEncoder.forward true head_pose campos rv color li lp nl K Rt
    (Some bg) None cam g = None.
Proof.
  unfold AutoEncoder.forward.
  destruct (AutoEncoder.headrel_campos head_pose campos) as [hc|];
    [|reflexivity]. cbn [mbind option_bind].
  destruct (AutoEncoder.headrel_light_pos head_pose lp) as [hlp|];
    [|reflexivity]. cbn [mbind option_bind].
  destruct (Encoder.forward true rv color g) as [enc g1].
  destruct (enc !! "embs") as [v|]; [|reflexivity].
  cbn [mbind option_bind].
  destruct v as [embs | |]; try reflexivity.
  cbn [as_V2 mbind option_bind].
  destruct (GeomDecoder.forward embs !! "face_geom") as [v|];
    [|reflexivity]. cbn [mbind option_bind].
  destruct v as [| geom |]; try reflexivity.
  cbn [as_V3 mbind option_bind].
  destruct (PrimDecoder.forward _ _ _ _ _ _ _ _ _) as [d|];
    [|reflexivity]. cbn [mbind option_bind].
  destruct (AutoEncoder.render _ _ _ _ _) as [[[rgb alpha] depth]|];
    reflexivity.
Qed.
End forward_shape.

Section decoder_shape.
Import torch PrimDecoder.
Context `{PrimDecoder.Self} `{Shading}.
Local Open Scope R_scope.

(** X6. [PrimDecoder.forward] needs [lightrot] when an environment map
    is given, and only then: with a map and no rotation it raises;
    without a map the rotation is ignored. *)
Theorem decoder_envmap_needs_lightrot embs geom campos li hlp lsh nl :
  (∀ e, forward embs geom campos li hlp lsh nl (Some e) None = None) ∧
  (∀ rot rot', forward embs geom campos li hlp lsh nl None rot
               = forward embs geom campos li hlp lsh nl None rot').
Proof.
  split.
  - intros e. unfold forward, spec_color. reflexivity.
  - intros rot rot'. unfold forward, spec_color. reflexivity.
Qed.

Lemma n_color_le_total : (n_color_sh_coeffs ≤ (diff_sh_degree + 1) ^ 2)%nat.
Proof.
  unfold n_color_sh_coeffs. apply Nat.pow_le_mono_l.
  pose proof sh_degrees. lia.
Qed.

Lemma n_color_pos : (0 < n_color_sh_coeffs)%nat.
Proof.
  unfold n_color_sh_coeffs.
  assert (1 ^ 2 ≤ (color_sh_degree + 1) ^ 2)%nat
    by (apply Nat.pow_le_mono_l; lia).
  simpl in *. lia.
Qed.

Lemma diff_shs_of_rows (p : vec) :
  length p = n_diff_coeffs →
  length (diff_shs_of p) = 3%nat ∧
  ∀ c, (c < 3)%nat →
    ∃ row, diff_shs_of p !! c = Some row ∧
      length row = ((diff_sh_degree + 1) ^ 2)%nat ∧
      row = take n_color_sh_coeffs (drop (c * n_color_sh_coeffs) p)
            ++ drop (n_color_sh_coeffs * 3) p.
Proof.
  intros Hp. pose proof n_color_le_total as Hle.
  pose proof n_color_pos as Hpos.
  unfold n_diff_coeffs, n_mono_sh_coeffs in Hp.
  set (nc := n_color_sh_coeffs) in *.
  assert (Hlen : length (take (nc * 3) p) = (nc * 3)%nat)
    by (rewrite length_take; lia).
  assert (Hdiv : (length (take (nc * 3) p) / nc = 3)%nat).
  { rewrite Hlen, Nat.mul_comm. apply Nat.div_mul. lia. }
  unfold diff_shs_of. fold nc. split.
  - rewrite length_zip_with, length_replicate. unfold chunk.
    rewrite length_fmap, length_seq, Hdiv. reflexivity.
  - intros c Hc. eexists. split; [|split]; [| |reflexivity].
    + rewrite lookup_zip_with, chunk_lookup by (rewrite Hdiv; exact Hc).
      rewrite lookup_replicate_2 by exact Hc. cbn [mbind option_bind].
      f_equal. f_equal. rewrite !take_drop_commute, take_take.
      f_equal. f_equal. apply Nat.min_l. nia.
    + rewrite length_app, length_take, !length_drop. nia.
Qed.

(** X7. The diffuse coefficients decoded by [PrimDecoder.forward]: each
    Gaussian's flat row of [n_diff_coeffs] network outputs becomes three
    rows, one per colour channel, each of [(diff_sh_degree + 1)^2]
    entries: the channel's own colour coefficients followed by the
    monochrome coefficients shared by the three channels. *)
Theorem diff_shs_layout embs b n (sb : list mat) (sn : mat) :
  diff_shs embs !! b = Some sb → sb !! n = Some sn →
  ∃ p, row3 (diff_shs_flat embs) b n = Some p ∧
    length p = n_diff_coeffs ∧ length sn = 3%nat ∧
    ∀ c, (c < 3)%nat →
      ∃ row, sn !! c = Some row ∧
        length row = ((diff_sh_degree + 1) ^ 2)%nat ∧
        row = take n_color_sh_coeffs (drop (c * n_color_sh_coeffs) p)
              ++ drop (n_color_sh_coeffs * 3) p.
Proof.
  unfold diff_shs, row3. rewrite list_lookup_fmap. intros Hsb Hsn.
  destruct (diff_shs_flat embs !! b) as [fb|] eqn:Hfb; [|discriminate].
  simpl in Hsb. injection Hsb as <-. rewrite list_lookup_fmap in Hsn.
  destruct (fb !! n) as [p|] eqn:Hp; [|discriminate].
  simpl in Hsn. injection Hsn as <-. exists p. simpl.
  split; [exact Hp|].
  assert (Hlen : length p = n_diff_coeffs).
  { unfold diff_shs_flat in Hfb. rewrite list_lookup_fmap in Hfb.
    destruct ((take n_diff_coeffs <$> f_vnocond embs) !! b) as [t|];
      [|discriminate].
    simpl in Hfb. injection Hfb as <-. unfold view_last in Hp.
    now apply chunk_row_length in Hp. }
  split; [exact Hlen|]. now apply diff_shs_of_rows.
Qed.

Lemma times_spec_vis_inv embs campos (pre : list mat) b n k x :
  at3 (times_spec_vis embs campos pre) b n k = Some x →
  ∃ y v, at3 pre b n k = Some y ∧ 0 <= v <= 1 ∧ x = y * v.
Proof.
  unfold times_spec_vis. rewrite at3_row3. unfold row3 at 1.
  rewrite lookup_zip_with. intros Hx.
  destruct (pre !! b) as [pb|] eqn:Hpb; simpl in Hx; [|discriminate].
  destruct (spec_vis embs campos !! b) as [vb|] eqn:Hvb; simpl in Hx;
    [|discriminate].
  rewrite lookup_zip_with in Hx.
  destruct (pb !! n) as [pn|] eqn:Hpn; simpl in Hx; [|discriminate].
  destruct (vb !! n) as [r|] eqn:Hr; simpl in Hx; [|discriminate].
  assert (Hrow : row3 (spec_vis embs campos) b n = Some r).
  { unfold row3. rewrite Hvb. exact Hr. }
  unfold at3, at2. rewrite Hpb. simpl. rewrite Hpn. simpl.
  apply spec_vis_row in Hrow as [-> | [y ->]].
  - simpl in Hx. rewrite lookup_zip_with in Hx.
    destruct (pn !! k); discriminate.
  - simpl in Hx. rewrite list_lookup_fmap in Hx.
    destruct (pn !! k) as [z|]; [|discriminate].
    simpl in Hx. injection Hx as <-.
    exists z, (sigmoid y). split; [reflexivity|].
    split; [pose proof (sigmoid_bounds y); lra | reflexivity].
Qed.

(** X8. With an environment map, every component of the specular colour
    returned by [PrimDecoder.forward] is at most one: the sample is
    clamped to at most 1.0 and then multiplied by a visibility between
    0 and 1. *)
Theorem envmap_specular_at_most_one embs geom campos li hlp lsh nl e rot d
    sc :
  forward embs geom campos li hlp lsh nl (Some e) rot = Some d →
  d !! "spec_color" = Some (V3 sc) →
  ∀ b n k x, at3 sc b n k = Some x → x <= 1.
Proof.
  intros Hd Hsc b n k x Hx.
  destruct (decoder_entries _ _ _ _ _ _ _ _ _ _ Hd)
    as (sc' & Hspec & Hkey & _).
  rewrite Hkey in Hsc. injection Hsc as <-.
  unfold spec_color in Hspec.
  destruct rot as [r|]; [|discriminate]. simpl in Hspec.
  unfold spec_color_envmap in Hspec.
  match type of Hspec with
  | (?c ≫= _) = _ => destruct c as [sampled|]; [|discriminate]
  end.
  simpl in Hspec. injection Hspec as <-.
  apply times_spec_vis_inv in Hx as (y & v & Hy & Hv & ->).
  rewrite at3_bmap3 in Hy.
  destruct (at3 _ b n k) as [z|]; [|discriminate].
  simpl in Hy. injection Hy as <-.
  pose proof (clamp_max_le 1.0 z) as Hle.
  destruct (Rle_dec (clamp_max 1.0 z) 0); nra.
Qed.

Lemma dot_axpy c (v : vec) : ∀ n : vec, length v = length n →
  dot (zip_with Rminus v ((λ x, c * x) <$> n)) n = dot v n - c * sumsq n.
Proof.
  unfold sumsq, dot, sum.
  induction v as [|x v IH]; intros [|y n] Hlen; simplify_eq/=; [ring|].
  rewrite (IH n) by assumption. ring.
Qed.

Lemma axpy_back c c' (v : vec) : ∀ n : vec, length v = length n →
  c' = - c →
  zip_with Rminus (zip_with Rminus v ((λ x, c * x) <$> n))
    ((λ x, c' * x) <$> n) = v.
Proof.
  intros n Hlen ->. revert n Hlen.
  induction v as [|x v IH]; intros [|y n] Hlen; simplify_eq/=;
    [reflexivity|].
  f_equal; [ring | now apply IH].
Qed.

(** X9. The mirror direction [v - 2 (v . n) n] of
    [PrimDecoder.forward], about a unit normal [n]: its component along
    the normal is that of [v] with the sign flipped, and mirroring twice
    gives [v] back. *)
Theorem reflect_involution (v n : vec) :
  length v = length n → norm2 n = 1 →
  dot (reflect v n) n = - dot v n ∧ reflect (reflect v n) n = v.
Proof.
  intros Hlen Hn.
  pose proof (norm2_sq n) as Hsq. rewrite Hn in Hsq.
  assert (Hdot : dot (reflect v n) n = - dot v n).
  { unfold reflect. rewrite dot_axpy by exact Hlen. rewrite <- Hsq. lra. }
  split; [exact Hdot|].
  unfold reflect at 1. rewrite Hdot. unfold reflect.
  apply axpy_back; [exact Hlen | lra].
Qed.
End decoder_shape.

Section summary_shape.
Import torch RGCASummary.
Context `{Imaging}.
Local Open Scope R_scope.

Lemma Int_part_byte x : (0 <= Int_part (clamp 0 255 x) <= 255)%Z.
Proof.
  pose proof (clamp_bounds 0 255 x ltac:(lra)) as [Hlo Hhi].
  destruct (base_Int_part (clamp 0 255 x)) as [Hle Hgt].
  split.
  - apply Z.lt_succ_r, lt_IZR. rewrite succ_IZR. lra.
  - apply le_IZR. lra.
Qed.

(** X10. Every image returned by [RGCASummary.__call__] is a valid
    8-bit image: each entry of each grid is an integer between 0 and
    255, whatever the predictions and the image helpers produced. *)
Theorem summary_outputs_are_bytes preds batch out k grid :
  __call__ preds batch = Some out → out !! k = Some grid →
  Forall (Forall (Forall (λ z, (0 <= z <= 255)%Z))) grid.
Proof.
  unfold __call__. intros Hc Hk.
  destruct (images preds batch) as [diag|]; [|discriminate].
  simpl in Hc. injection Hc as <-. rewrite lookup_fmap in Hk.
  destruct (diag !! k) as [t|]; [|discriminate].
  simpl in Hk. injection Hk as <-. unfold to_uint8.
  apply Forall_fmap, Forall_forall. intros plane _.
  apply Forall_fmap, Forall_forall. intros row _.
  apply Forall_fmap, Forall_forall. intros x _.
  apply Int_part_byte.
Qed.

Lemma call_has_depth_nml preds batch out :
  __call__ preds batch = Some out → is_Some (out !! "depth_nml").
Proof.
  unfold __call__. intros Hc.
  destruct (images preds batch) as [diag|] eqn:Hi; [|discriminate].
  simpl in Hc. injection Hc as <-. unfold images in Hi.
  repeat match type of Hi with
         | (?c ≫= _) = _ =>
             destruct c; [cbn [mbind option_bind] in Hi | discriminate]
         end.
  injection Hi as <-. rewrite lookup_fmap, lookup_insert_eq. simpl. eauto.
Qed.

(** X11. The keys of the dictionary returned by
    [RGCASummary.__call__]: always the eleven of [fixed_keys]; "gt" and
    "diff" exactly when the batch has an image; "weight" exactly when
    the predictions have "image_weight", and "mesh_nml" exactly when
    they have "mesh_nml"; no other key.  The weight image is passed on
    as it is, without clamping or colour conversion. *)
Theorem summary_key_set preds batch out :
  __call__ preds batch = Some out →
  (∀ k, is_Some (out !! k) ↔
     k ∈ fixed_keys
     ∨ (is_Some (batch !! "image") ∧ k ∈ ["gt"; "diff"])
     ∨ (is_Some (preds !! "image_weight") ∧ k = "weight")
     ∨ (is_Some (preds !! "mesh_nml") ∧ k = "mesh_nml")) ∧
  (∀ w, preds !! "image_weight" = Some (V4 w) →
     out !! "weight" = Some (to_uint8 w)).
Proof.
  unfold __call__. intros Hc.
  destruct (images preds batch) as [diag|] eqn:Hi; [|discriminate].
  simpl in Hc. injection Hc as <-.
  unfold images in Hi.
  destruct (slabs preds) as [d0|] eqn:Hs; [|discriminate].
  cbn [mbind option_bind] in Hi.
  destruct (get3 preds "headrel_light_sh") as [lsh|]; [|discriminate].
  cbn [mbind option_bind] in Hi.
  destruct (get4 preds "rgb") as [rgb|]; [|discriminate].
  cbn [mbind option_bind] in Hi.
  destruct (when_present batch "image" _ _) as [d1|] eqn:H1;
    [|discriminate]. cbn [mbind option_bind] in Hi.
  destruct (get4 preds "alpha") as [alpha|]; [|discriminate].
  cbn [mbind option_bind] in Hi.
  destruct (when_present preds "image_weight" _ _) as [d2|] eqn:H2;
    [|discriminate]. cbn [mbind option_bind] in Hi.
  destruct (when_present preds "mesh_nml" _ _) as [d3|] eqn:H3;
    [|discriminate]. cbn [mbind option_bind] in Hi.
  destruct (get4 preds "depth") as [depth|]; [|discriminate].
  cbn [mbind option_bind] in Hi.
  destruct (batch !! "focal") as [focal|]; [|discriminate].
  cbn [mbind option_bind] in Hi.
  destruct (batch !! "princpt") as [princpt|]; [|discriminate].
  cbn [mbind option_bind] in Hi. injection Hi as <-.
  unfold slabs in Hs.
  repeat match type of Hs with
         | (?c ≫= _) = _ =>
             destruct c; [cbn [mbind option_bind] in Hs | discriminate]
         end.
  injection Hs as <-.
  apply when_present_inv in H1, H2, H3.
  split.
  - intros k. rewrite lookup_fmap, fmap_is_Some. unfold fixed_keys.
    destruct H3 as [[E3 ->] | (t3 & E3 & ->)];
      destruct H2 as [[E2 ->] | (t2 & E2 & ->)];
      destruct H1 as [[E1 ->] | (gt & E1 & ->)];
      rewrite E1, E2, E3.
    all: repeat rewrite lookup_insert_is_Some'.
    all: split.
    1,3,5,7,9,11,13,15:
      intros Hk; repeat (destruct Hk as [Hk|Hk]);
      try (by destruct (lookup_empty_is_Some (A:=list image) _ Hk));
      subst k;
      first [ by (left; repeat constructor)
            | by (right; left; split; [eauto|repeat constructor])
            | by (right; right; left; split; [eauto|reflexivity])
            | by (right; right; right; split; [eauto|reflexivity]) ].
    all: intros [Hk | [[Ht Hk] | [[Ht Hk] | [Ht Hk]]]];
      try (by destruct Ht).
    all: repeat (apply elem_of_cons in Hk as [->|Hk]);
      try (apply elem_of_nil in Hk; contradiction);
      try subst k; some_disjunct.
  - intros w Hw. rewrite lookup_fmap.
    destruct H2 as [[E2 ->] | (t2 & E2 & ->)]; [congruence|].
    rewrite E2 in Hw. injection Hw as <-.
    destruct H3 as [[E3 ->] | (t3 & E3 & ->)]; by simplify_map_eq.
Qed.

Lemma get2_is_Some (d : gmap string value) k t :
  get2 d k = Some t → is_Some (d !! k).
Proof. unfold get2. destruct (d !! k); [eauto | discriminate]. Qed.
Lemma get3_is_Some (d : gmap string value) k t :
  get3 d k = Some t → is_Some (d !! k).
Proof. unfold get3. destruct (d !! k); [eauto | discriminate]. Qed.
Lemma get4_is_Some (d : gmap string value) k t :
  get4 d k = Some t → is_Some (d !! k).
Proof. unfold get4. destruct (d !! k); [eauto | discriminate]. Qed.

(** X12. [RGCASummary.__call__] reads ten entries of the predictions
    and the camera intrinsics of the batch on every call: it raises
    when one of the keys of [required_keys] is missing from the
    predictions, or "focal" or "princpt" from the batch. *)
Theorem summary_needs_its_inputs preds batch :
  is_Some (__call__ preds batch) →
  Forall (λ k, is_Some (preds !! k)) required_keys ∧
  is_Some (batch !! "focal") ∧ is_Some (batch !! "princpt").
Proof.
  unfold __call__, images, slabs. intros [out Hc].
  destruct (get3 preds "diff_color") as [dc|] eqn:Hdc; [|discriminate].
  cbn [mbind option_bind] in Hc.
  destruct (get3 preds "spec_color") as [sc|] eqn:Hsc; [|discriminate].
  cbn [mbind option_bind] in Hc.
  destruct (get3 preds "opacity") as [op|] eqn:Hop; [|discriminate].
  cbn [mbind option_bind] in Hc.
  destruct (get3 preds "spec_nml") as [sn|] eqn:Hsn; [|discriminate].
  cbn [mbind option_bind] in Hc.
  destruct (get2 preds "sigma") as [sg|] eqn:Hsg; [|discriminate].
  cbn [mbind option_bind] in Hc.
  destruct (get3 preds "spec_vis") as [sv|] eqn:Hsv; [|discriminate].
  cbn [mbind option_bind] in Hc.
  destruct (get3 preds "headrel_light_sh") as [ls|] eqn:Hls;
    [|discriminate]. cbn [mbind option_bind] in Hc.
  destruct (get4 preds "rgb") as [rgb|] eqn:Hrgb; [|discriminate].
  cbn [mbind option_bind] in Hc.
  destruct (when_present batch "image" _ _) as [d1|];
    [|discriminate]. cbn [mbind option_bind] in Hc.
  destruct (get4 preds "alpha") as [al|] eqn:Hal; [|discriminate].
  cbn [mbind option_bind] in Hc.
  destruct (when_present preds "image_weight" _ _) as [d2|];
    [|discriminate]. cbn [mbind option_bind] in Hc.
  destruct (when_present preds "mesh_nml" _ _) as [d3|];
    [|discriminate]. cbn [mbind option_bind] in Hc.
  destruct (get4 preds "depth") as [de|] eqn:Hde; [|discriminate].
  cbn [mbind option_bind] in Hc.
  destruct (batch !! "focal") as [fo|]; [|discriminate].
  cbn [mbind option_bind] in Hc.
  destruct (batch !! "princpt") as [pr|]; [|discriminate].
  apply get3_is_Some in Hdc, Hsc, Hop, Hsn, Hsv, Hls.
  apply get2_is_Some in Hsg. apply get4_is_Some in Hrgb, Hal, Hde.
  split; [|eauto]. unfold required_keys. repeat constructor; assumption.
Qed.

(** X13. The grid of normals over which [RGCASummary.__call__] displays
    the light: rows 0..127 hold the hemisphere with non-negative third
    component, rows 128..255 the opposite one, with the same mask.
    Inside the unit disc the mask is one and both normals are unit
    vectors; outside it the mask is zero and the third component is
    zero. *)
Theorem light_grid_normals (i j : nat) :
  (i < 128)%nat → (j < 128)%nat →
  ∃ (p q : vec) (m : R),
    (nml !! i) ≫= (.!! j) = Some p ∧
    (nml !! (128 + i)%nat) ≫= (.!! j) = Some q ∧
    at2 mask i j = Some m ∧ at2 mask (128 + i) j = Some m ∧
    p = pixelcoords i j ++ [- nz i j] ∧
    q = pixelcoords i j ++ [nz i j] ∧
    (zsq i j < 1.0 → m = 1 ∧ norm2 p = 1 ∧ norm2 q = 1) ∧
    (¬ zsq i j < 1.0 → m = 0 ∧ nz i j = 0).
Proof.
  intros Hi Hj.
  assert (Hgrid : ∀ {A} (f : nat → nat → A),
            length (grid128 f) = 128%nat ∧
            (grid128 f !! i) ≫= (.!! j) = Some (f i j)).
  { intros A f. unfold grid128. split.
    - rewrite length_fmap. apply length_seq.
    - rewrite list_lookup_fmap, lookup_seq_lt by exact Hi.
      cbn [fmap option_fmap option_map mbind option_bind].
      rewrite list_lookup_fmap, lookup_seq_lt by exact Hj. reflexivity. }
  eexists _, _, _. unfold nml, mask, at2.
  destruct (Hgrid vec (λ i j, pixelcoords i j ++ [- nz i j])) as [L1 E1].
  destruct (Hgrid vec (λ i j, pixelcoords i j ++ [nz i j])) as [L2 E2].
  destruct (Hgrid R (λ i j, if Rlt_dec (zsq i j) 1.0 then 1 else 0))
    as [L3 E3].
  rewrite lookup_app_l by lia. rewrite lookup_app_r by lia.
  rewrite L1. replace (128 + i - 128)%nat with i by lia.
  rewrite lookup_app_l by lia. rewrite lookup_app_r by lia.
  rewrite L3. replace (128 + i - 128)%nat with i by lia.
  split; [exact E1|]. split; [exact E2|]. split; [exact E3|].
  split; [exact E3|]. split; [reflexivity|]. split; [reflexivity|].
  assert (Hz : 0 <= zsq i j).
  { unfold zsq, pixelcoords, sum. simpl. nra. }
  assert (Hn : ∀ s, s * s = 1.0 - zsq i j →
            norm2 (pixelcoords i j ++ [s]) = 1).
  { intros s Hs. unfold norm2. rewrite <- sqrt_1. f_equal.
    unfold zsq, sumsq, pixelcoords, sum in *. simpl in *. lra. }
  split.
  - intros Hlt. destruct (Rlt_dec (zsq i j) 1.0); [|contradiction].
    split; [reflexivity|].
    assert (Hs : nz i j * nz i j = 1.0 - zsq i j).
    { unfold nz, clamp_min. rewrite Rmax_left by lra.
      rewrite <- Rmult_opp_opp, Ropp_involutive.
      apply sqrt_sqrt. lra. }
    split; apply Hn; lra.
  - intros Hge. destruct (Rlt_dec (zsq i j) 1.0); [contradiction|].
    split; [reflexivity|].
    unfold nz, clamp_min. rewrite Rmax_right by lra.
    replace 0.0 with 0 by lra. rewrite sqrt_0. lra.
Qed.
End summary_shape.

Section driver_order.
Import run_test.
Context `{Env}.

(** X14. A run of [run_test.main] starts at most one test, as its last
    observable action: the trace either holds no test event, or ends
    with switching off [learn_blur_enabled], switching off
    [cal_enabled], building the summary function and the test of that
    same model; the summary function is built in a world in which both
    attributes have been set to False. *)
Theorem test_is_last_and_learning_is_off config s :
  ∃ evs, trace (main config s).2 = trace s ++ evs ∧
    (quiet evs ∨
     ∃ pre m l tl sf w w',
       evs = pre ++ test_tail config m l tl sf ∧ quiet pre ∧
       load_from_config (summary config) None
         (set_attr m "cal_enabled" false
            (set_attr m "learn_blur_enabled" false w))
       = (Ok sf, w')).
Proof.
  destruct (setup_appends config s) as (evs0 & Ht0 & Hall0).
  unfold main.
  destruct (setup config s) as [[[[bf model] loss_fn]|e] s1] eqn:Hs;
    simpl in Ht0.
  2:{ rewrite (bind_Raise _ _ _ _ _ Hs). simpl. eauto. }
  rewrite (bind_Ok _ _ _ _ _ Hs).
  destruct (test_ config !! "ckpt") as [ckpt|] eqn:Hc.
  2:{ rewrite (bind_Raise _ _ _ _ _ (load_ckpt_absent _ _ _ Hc)).
      simpl. eauto. }
  destruct (load_ckpt_present config model s1 ckpt Hc)
    as (r & w & Hload & Hl).
  set (s2 := {| outside := w; trace := _ |}) in Hl.
  assert (Hq : quiet (evs0 ++ [EvLog "loading checkpoint";
                               EvLoadCheckpoint ckpt model])).
  { apply Forall_app. split; [exact Hall0|].
    repeat constructor; simpl; tauto. }
  destruct r as [[]|e].
  2:{ rewrite (bind_Raise _ _ _ _ _ Hl). simpl. rewrite Ht0.
      rewrite <- app_assoc. eauto. }
  rewrite (bind_Ok _ _ _ _ _ Hl).
  destruct (run_trace config bf model loss_fn s2)
    as (evs2 & Ht2 & Hcase).
  exists ((evs0 ++ [EvLog "loading checkpoint";
                    EvLoadCheckpoint ckpt model]) ++ evs2).
  split.
  { rewrite Ht2. unfold s2. simpl. rewrite Ht0.
    rewrite <- !app_assoc. reflexivity. }
  destruct Hcase as [Hq2 | (pre & tl & sf & w2 & w3 & -> & Hpre & Hsf)].
  - left. apply Forall_app. split; assumption.
  - right. eexists _, model, loss_fn, tl, sf, w2, w3. rewrite app_assoc.
    split; [reflexivity|]. split; [|exact Hsf].
    apply Forall_app. split; assumption.
Qed.
End driver_order.

Section render_errors.
Import torch AutoEncoder.
Context `{Rasterizer}.
Variables (width height : Z).
Local Open Scope R_scope.

Lemma stack_Some_uniform ts ts' :
  stack ts = Some ts' →
  ts ≠ [] ∧ Forall (λ u, dims u = dims (hd [] ts)) ts.
Proof.
  destruct ts as [|t rest]; simpl; [discriminate|].
  destruct (decide _) as [Hall|]; [|discriminate]. intros _.
  split; [discriminate|]. constructor; [reflexivity | exact Hall].
Qed.

Lemma render_output_inv K Rt preds b out :
  render_output width height K Rt preds b = Some out →
  is_Some (K !! b) ∧ is_Some (Rt !! b) ∧
  Forall (λ k, is_Some (preds !! k))
    ["primpos"; "primqvec"; "primscale"; "opacity"; "color"].
Proof.
  unfold render_output, prim. intros Ho.
  destruct (K !! b) as [Kb|]; [|discriminate]. cbn [mbind option_bind] in Ho.
  repeat match type of Ho with
         | (at2 ?m ?i ?j ≫= _) = _ =>
             destruct (at2 m i j);
             [cbn [mbind option_bind] in Ho | discriminate]
         end.
  destruct (Rt !! b) as [Rtb|]; [|discriminate].
  cbn [mbind option_bind] in Ho.
  split; [eauto|]. split; [eauto|].
  repeat match type of Ho with
         | ((preds !! ?k ≫= _) ≫= _) = _ =>
             let H := fresh "Hk" in
             destruct (preds !! k) as [[| |]|] eqn:H; try discriminate;
             cbn [mbind option_bind as_V3] in Ho;
             match type of Ho with
             | (?t !! b ≫= _) = _ =>
                 destruct (t !! b);
                 [cbn [mbind option_bind] in Ho | discriminate]
             end
         end.
  repeat constructor; eauto.
Qed.

(** X15. [AutoEncoder.render] raises on an empty batch.  Whenever it
    returns, the batch is non-empty, [Rt] has an entry for every batch
    element, the predictions hold the five Gaussian tensors it reads,
    and the images stacked into rgb all have the size of the first
    one. *)
Theorem render_needs_its_inputs K Rt preds :
  render width height [] Rt preds = None ∧
  ∀ rgb alpha depth,
    render width height K Rt preds = Some (rgb, alpha, depth) →
    (0 < length K)%nat ∧ (length K ≤ length Rt)%nat ∧
    Forall (λ k, is_Some (preds !! k))
      ["primpos"; "primqvec"; "primscale"; "opacity"; "color"] ∧
    Forall (λ r, dims r = dims (hd [] rgb)) rgb.
Proof.
  split; [reflexivity|].
  intros rgb alpha depth Hr. unfold render in Hr.
  destruct (render_loop _ _ _ _ _ _ _ _ _) as [[[rgbs Ts] depths]|] eqn:Hl;
    [|discriminate]. simpl in Hr.
  destruct (stack rgbs) as [rgb0|] eqn:S1; [|discriminate]. simpl in Hr.
  destruct (stack depths) as [depth0|] eqn:S2; [|discriminate].
  simpl in Hr.
  destruct (stack Ts) as [sT|] eqn:S3; [|discriminate].
  simpl in Hr. injection Hr as <- <- <-.
  pose proof (stack_inv _ _ S1) as ->.
  apply stack_Some_uniform in S1 as [N1 U1].
  apply render_loop_inv in Hl
    as (rs & ts & ds & -> & -> & -> & Lr & Lt & Ld & Hi).
  rewrite length_seq in Lr. simpl in *.
  assert (HB : (0 < length K)%nat)
    by (destruct rs; [congruence | simpl in Lr; lia]).
  assert (Hall : ∀ b, (b < length K)%nat →
            is_Some (Rt !! b) ∧
            Forall (λ k, is_Some (preds !! k))
              ["primpos"; "primqvec"; "primscale"; "opacity"; "color"]).
  { intros b Hb.
    destruct (Hi b b) as (r & T & d & (out & Ho & _) & _);
      [now apply lookup_seq|].
    apply render_output_inv in Ho as (_ & HRt & Hkeys). auto. }
  split; [exact HB|]. split; [|split].
  - destruct (decide (length K ≤ length Rt)%nat) as [|Hn]; [assumption|].
    destruct (Hall (length Rt)) as [[x Hx] _]; [lia|].
    apply lookup_lt_Some in Hx. lia.
  - exact (proj2 (Hall 0%nat HB)).
  - exact U1.
Qed.
End render_errors.

Section geometry.
Import torch GeomDecoder.
Context `{GeomDecoder.Self}.
Local Open Scope R_scope.

(** X16. [GeomDecoder.forward] returns one vertex list per latent code
    under the key "face_geom": coordinate [k] of vertex [v] is entry
    [3 v + k] of the network output, times [verts_std], plus the same
    coordinate of the mean vertex. *)
Theorem face_geom_entries (embs : list vec) b v k (row : vec) (vm : mat)
    (mrow : vec) x m :
  geommod embs !! b = Some row → verts_mean !! 0%nat = Some vm →
  (v < length row / 3)%nat → (k < 3)%nat →
  row !! (v * 3 + k)%nat = Some x →
  vm !! v = Some mrow → mrow !! k = Some m →
  ∃ g, forward embs !! "face_geom" = Some (V3 g) ∧
       length g = length (geommod embs) ∧
       at3 g b v k = Some (x * verts_std + m).
Proof.
  intros Hrow Hvm Hv Hk Hx Hmrow Hm. unfold forward. eexists.
  split; [by simplify_map_eq|]. split; [now rewrite !length_fmap|].
  unfold at3. rewrite !list_lookup_fmap, Hrow. simpl.
  unfold at2, zip2, map2. rewrite lookup_zip_with, list_lookup_fmap.
  rewrite chunk_lookup by exact Hv. simpl. rewrite Hmrow. simpl.
  rewrite lookup_zip_with, list_lookup_fmap.
  rewrite lookup_take, decide_True by exact Hk.
  rewrite lookup_drop, Hx. simpl. rewrite Hm. reflexivity.
Qed.
End geometry.

Section face_weights.
Import torch FaceWeight.
Context `{FaceWeight.Self} `{PrimDecoder.Self}.
Local Open Scope R_scope.

Lemma px3_mul_channels_inv (x m : image) c i j v :
  px3 (mul_channels x m) c i j = Some v →
  ∃ a y c', px3 x c i j = Some a ∧ px3 m c' i j = Some y ∧ v = a * y.
Proof.
  unfold mul_channels. intros Hv.
  assert (Hzip : px3 (zip3 Rmult x m) c i j = Some v →
            ∃ a y c', px3 x c i j = Some a ∧ px3 m c' i j = Some y ∧
                      v = a * y).
  { intros Hz. apply px3_zip3_inv in Hz as (a & y & Ha & Hy & ->).
    exists a, y, c. auto. }
  destruct m as [|p [|q m]]; [now apply Hzip | | now apply Hzip].
  unfold px3 in Hv |- *. rewrite list_lookup_fmap in Hv.
  destruct (x !! c) as [plane|]; simpl in *; [|discriminate].
  unfold zip2 in Hv. rewrite lookup_zip_with in Hv.
  destruct (plane !! i) as [row|]; simpl in *; [|discriminate].
  destruct (p !! i) as [prow|] eqn:Hp; simpl in *; [|discriminate].
  rewrite lookup_zip_with in Hv.
  destruct (row !! j) as [a|]; simpl in *; [|discriminate].
  destruct (prow !! j) as [y|] eqn:Hy; simpl in *; [|discriminate].
  injection Hv as <-. exists a, y, 0%nat. simpl. rewrite Hp. simpl.
  repeat split; auto.
Qed.

Lemma px_mul_channels_inv (x m : list image) b c i j v :
  px (zip_with mul_channels x m) b c i j = Some v →
  ∃ a y c' mb, px x b c i j = Some a ∧ m !! b = Some mb ∧
    px3 mb c' i j = Some y ∧ v = a * y.
Proof.
  unfold px. rewrite lookup_zip_with. intros Hv.
  destruct (x !! b) as [xb|]; simpl in *; [|discriminate].
  destruct (m !! b) as [mb|]; simpl in *; [|discriminate].
  apply px3_mul_channels_inv in Hv as (a & y & c' & Ha & Hy & ->).
  exists a, y, c', mb. auto.
Qed.

(** A pixel of the back-face indicator is one where the third component
    of the normal is at most zero, and zero elsewhere. *)
Lemma non_backfacing_px (pixels : list (list mat)) b c i j y :
  (non_backfacing (chan_first 3 <$> pixels) !! b) ≫= (λ nb, px3 nb c i j)
    = Some y →
  ∃ z, px (chan_first 3 <$> pixels) b 2 i j = Some z ∧
       y = if Rle_dec z 0 then 1 else 0.
Proof.
  unfold non_backfacing, px. rewrite !list_lookup_fmap.
  destruct (pixels !! b) as [pb|];
    cbn [fmap option_fmap option_map mbind option_bind]; [|discriminate].
  rewrite px3_map3. unfold px3, chan_first.
  cbn [seq fmap list_fmap drop take lookup list_lookup mbind option_bind].
  destruct c as [|c];
    cbn [lookup list_lookup mbind option_bind fmap option_fmap option_map];
    [|discriminate].
  destruct (_ !! i) as [row|];
    cbn [mbind option_bind fmap option_fmap option_map]; [|discriminate].
  destruct (row !! j) as [z|];
    cbn [mbind option_bind fmap option_fmap option_map]; [|discriminate].
  intros [= <-]. eauto.
Qed.

(** X17. [AutoEncoder._rasterize_facew] indexes the background
    unconditionally: called without one it raises, whatever the
    predictions and the renderer. *)
Theorem facew_needs_background K Rt preds :
  _rasterize_facew K Rt None preds = None.
Proof.
  unfold _rasterize_facew.
  destruct (preds !! "geom") as [v|]; [|reflexivity]. simpl.
  destruct (as_V3 v) as [geom|]; [|reflexivity]. simpl.
  destruct (mesh_renderer _ _ _ _ !! "render") as [render|];
    [|reflexivity]. simpl.
  destruct (mapM _ render) as [w|]; [|reflexivity]. simpl.
  destruct (mesh_renderer _ _ _ _ !! "mask"); reflexivity.
Qed.

Lemma facew_inv K Rt bg preds weight nml :
  _rasterize_facew K Rt bg preds = Some (weight, nml) →
  ∃ geom render w0 mask background,
    preds !! "geom" = Some (V3 geom) ∧
    mesh_renderer geom (tex geom) K Rt !! "render" = Some render ∧
    mapM (λ r : image, expand_weight (drop 3 r)) render = Some w0 ∧
    mesh_renderer geom (tex geom) K Rt !! "mask" = Some mask ∧
    bg = Some background ∧
    nml = mesh_nml Rt render ∧
    weight =
      zip_with mul_channels
        (zip_with mul_channels
           (map4 blend (zip_with mul_channels (map4 blend w0) mask))
           (non_backfacing nml))
        (bg_mask background).
Proof.
  unfold _rasterize_facew. intros Hf.
  destruct (preds !! "geom") as [v|]; [|discriminate]. simpl in Hf.
  destruct v as [|geom|]; try discriminate. simpl in Hf.
  destruct (mesh_renderer _ _ _ _ !! "render") as [render|] eqn:Hr;
    [|discriminate]. simpl in Hf.
  destruct (mapM _ render) as [w0|] eqn:Hw; [|discriminate]. simpl in Hf.
  destruct (mesh_renderer _ _ _ _ !! "mask") as [mask|] eqn:Hm;
    [|discriminate]. simpl in Hf.
  destruct bg as [background|]; [|discriminate]. simpl in Hf.
  injection Hf as <- <-.
  exists geom, render, w0, mask, background. auto 10.
Qed.

(** X18. The image weight returned by [AutoEncoder._rasterize_facew] is
    zero at every pixel whose camera-space mesh normal (the second
    result) has a positive third component: back-facing pixels carry no
    weight, in all three channels. *)
Theorem facew_zero_where_backfacing K Rt bg preds weight nml b c i j x z :
  _rasterize_facew K Rt bg preds = Some (weight, nml) →
  px weight b c i j = Some x → px nml b 2 i j = Some z → 0 < z →
  x = 0.
Proof.
  intros Hf Hx Hz Hpos.
  apply facew_inv in Hf
    as (geom & render & w0 & mask & background & _ & _ & _ & _ & _ & -> & ->).
  apply px_mul_channels_inv in Hx as (a & y & c' & mb & Ha & _ & _ & ->).
  apply px_mul_channels_inv in Ha
    as (a' & y' & c'' & nb & _ & Hnb & Hy' & ->).
  destruct (non_backfacing_px (nml_img Rt render) b c'' i j y')
    as (z' & Hz' & ->).
  { unfold mesh_nml in Hnb. rewrite Hnb. exact Hy'. }
  unfold mesh_nml in Hz. rewrite Hz in Hz'. injection Hz' as <-.
  destruct (Rle_dec z 0); [lra|]. ring.
Qed.



End face_weights.

(** * The further properties on the one-Gaussian configuration *)
Section more_instances.
Import torch.
Local Open Scope R_scope.

Lemma sample_is_mat_3_4 (a b c t1 d e f t2 g h i t3 : R) :
  AutoEncoder.is_mat 3 4 [[a; b; c; t1]; [d; e; f; t2]; [g; h; i; t3]].
Proof. split; [reflexivity | repeat constructor]. Qed.

Lemma headrel_Rt_composes_witness :
  ∃ M, AutoEncoder.headrel_Rt Samples.Rt Samples.head_pose !! 0%nat
       = Some M ∧
       matvec M ([1; 2; 3] ++ [1])
       = matvec [[1; 0; 0; 0]; [0; 1; 0; 0]; [0; 0; 1; 0]]
           (matvec [[0; -1; 0; 1]; [1; 0; 0; 2]; [0; 0; 1; 3]]
              ([1; 2; 3] ++ [1]) ++ [1]).
Proof.
  destruct (headrel_Rt_composes Samples.Rt Samples.head_pose 0
              [[1; 0; 0; 0]; [0; 1; 0; 0]; [0; 0; 1; 0]]
              [[0; -1; 0; 1]; [1; 0; 0; 2]; [0; 0; 1; 3]]
              eq_refl eq_refl
              (sample_is_mat_3_4 _ _ _ _ _ _ _ _ _ _ _ _)
              (sample_is_mat_3_4 _ _ _ _ _ _ _ _ _ _ _ _))
    as (M & HM & _ & Hx).
  exists M. split; [exact HM|]. apply Hx. reflexivity.
Defined.

Lemma sample_headrel_campos :
  ∃ hc, AutoEncoder.headrel_campos Samples.head_pose Samples.campos
        = Some hc.
Proof. eexists. reflexivity. Qed.

Lemma headrel_Rt_sees_headrel_campos_witness :
  ∃ hc M q,
    AutoEncoder.headrel_campos Samples.head_pose Samples.campos = Some hc ∧
    AutoEncoder.headrel_Rt Samples.Rt Samples.head_pose !! 0%nat = Some M ∧
    hc !! 0%nat = Some q ∧
    matvec [[0; -1; 0; 1]; [1; 0; 0; 2]; [0; 0; 1; 3]] (q ++ [1])
    = [1; 2; 8] ∧
    matvec M (q ++ [1])
    = matvec [[1; 0; 0; 0]; [0; 1; 0; 0]; [0; 0; 1; 0]] ([1; 2; 8] ++ [1]).
Proof.
  destruct sample_headrel_campos as [hc Hhc].
  pose proof sample_head_pose_orthonormal as Ho.
  apply Forall_cons in Ho as [[_ Ho] _].
  destruct (headrel_Rt_sees_headrel_campos
              Samples.Rt Samples.head_pose Samples.campos hc 0
              [[1; 0; 0; 0]; [0; 1; 0; 0]; [0; 0; 1; 0]]
              [[0; -1; 0; 1]; [1; 0; 0; 2]; [0; 0; 1; 3]]
              [1; 2; 8] Hhc eq_refl eq_refl eq_refl
              (sample_is_mat_3_4 _ _ _ _ _ _ _ _ _ _ _ _)
              (sample_is_mat_3_4 _ _ _ _ _ _ _ _ _ _ _ _)
              Ho eq_refl)
    as (M & q & HM & Hq & Hback & Hsee).
  exists hc, M, q. auto.
Defined.

Lemma over_background_pixel_witness :
  px3 (AutoEncoder.over_background [[[0.5]]] [[[0.25]]] [[[1]]]) 0 0 0
    = Some (0.5 + (1.0 - 0.25) * 1) ∧
  px3 (AutoEncoder.over_background [[[0.5]]] [[[0.25]]]
         (map3 (λ x, x * 0.0) [[[1]]])) 0 0 0
    = Some 0.5.
Proof.
  destruct (over_background_pixel [[[0.5]]] [[[1]]] [[0.25]] 0 0 0
              0.5 0.25 1 eq_refl eq_refl eq_refl) as (Hgen & Hzero & _).
  split; [exact Hgen | exact Hzero].
Defined.

Lemma forward_key_set_witness :
  ∃ preds g',
    @AutoEncoder.forward Samples.autoencoder Samples.rasterizer
      Samples.random Samples.sh Samples.shading Samples.encoder
      Samples.geomdecoder
      (Samples.decoder Samples.channels Samples.vchannels)
      false Samples.head_pose Samples.campos Samples.registration_vertices
      Samples.color Samples.light_intensity Samples.light_pos
      Samples.n_lights Samples.K Samples.Rt None None None 0%nat
    = Some (preds, g') ∧
    is_Some (preds !! "rgb") ∧ ¬ is_Some (preds !! "image_weight").
Proof.
  destruct sample_forward_returns as [[preds g'] Hf].
  pose proof (@forward_key_set Samples.autoencoder
                Samples.rasterizer Samples.random Samples.sh Samples.shading
                Samples.encoder Samples.geomdecoder
                (Samples.decoder Samples.channels Samples.vchannels)
                false Samples.head_pose Samples.campos
                Samples.registration_vertices Samples.color
                Samples.light_intensity Samples.light_pos Samples.n_lights
                Samples.K Samples.Rt None None None 0%nat preds g' Hf)
    as Hkeys.
  exists preds, g'. split; [exact Hf|]. split.
  - apply Hkeys. left. unfold AutoEncoder.forward_keys. repeat constructor.
  - intros Hw. apply Hkeys in Hw as [Hw | [[Ht _] | [Ht _]]];
      [|discriminate Ht..].
    unfold AutoEncoder.forward_keys in Hw.
    repeat (apply elem_of_cons in Hw as [Hw|Hw]; [discriminate Hw|]).
    now apply elem_of_nil in Hw.
Defined.

Lemma diff_shs_layout_witness :
  ∃ p, row3 (@PrimDecoder.diff_shs_flat
               (Samples.decoder Samples.channels Samples.vchannels)
               Samples.embs) 0 0 = Some p ∧
    length p = 3%nat ∧
    length [[1]; [1]; [1]] = 3%nat.
Proof.
  destruct (@diff_shs_layout
              (Samples.decoder Samples.channels Samples.vchannels)
              Samples.embs 0 0 [[[1]; [1]; [1]]] [[1]; [1]; [1]]
              eq_refl eq_refl)
    as (p & Hp & Hlen & H3 & _).
  exists p. auto.
Defined.

Lemma sample_envmap_specular :
  ∃ d sc x,
    @PrimDecoder.forward
      (Samples.decoder Samples.channels Samples.vchannels) Samples.shading
      Samples.embs Samples.geom Samples.campos Samples.light_intensity
      Samples.headrel_light_pos Samples.headrel_light_sh Samples.n_lights
      (Some tt) (Some Samples.lightrot) = Some d ∧
    d !! "spec_color" = Some (V3 sc) ∧ at3 sc 0 0 0 = Some x.
Proof.
  destruct sample_decoder_envmap_returns as [d Hd].
  destruct (decoder_entries _ _ _ _ _ _ _ _ _ _ Hd)
    as (sc & Hspec & Hkey & _).
  exists d, sc.
  assert (Hx : is_Some (at3 sc 0 0 0)).
  { revert Hspec. unfold PrimDecoder.spec_color. cbn [mbind option_bind].
    unfold PrimDecoder.spec_color_envmap. intros Hspec.
    match type of Hspec with
    | (?c ≫= _) = _ => destruct c as [sampled|] eqn:Hs; [|discriminate]
    end.
    cbn [mbind option_bind] in Hspec. injection Hspec as <-.
    vm_compute in Hs. injection Hs as <-.
    apply (bool_decide_unpack _). vm_compute. exact I. }
  destruct Hx as [x Hx]. exists x. auto.
Qed.

Lemma envmap_specular_at_most_one_witness :
  ∃ d sc x,
    @PrimDecoder.forward
      (Samples.decoder Samples.channels Samples.vchannels) Samples.shading
      Samples.embs Samples.geom Samples.campos Samples.light_intensity
      Samples.headrel_light_pos Samples.headrel_light_sh Samples.n_lights
      (Some tt) (Some Samples.lightrot) = Some d ∧
    d !! "spec_color" = Some (V3 sc) ∧ at3 sc 0 0 0 = Some x ∧ x <= 1.
Proof.
  destruct sample_envmap_specular as (d & sc & x & Hd & Hsc & Hx).
  exists d, sc, x. split; [exact Hd|]. split; [exact Hsc|].
  split; [exact Hx|].
  exact (@envmap_specular_at_most_one
           (Samples.decoder Samples.channels Samples.vchannels)
           Samples.shading
           Samples.embs Samples.geom Samples.campos Samples.light_intensity
           Samples.headrel_light_pos Samples.headrel_light_sh
           Samples.n_lights tt (Some Samples.lightrot) d sc Hd Hsc
           0%nat 0%nat 0%nat x Hx).
Defined.

Lemma sample_unit_normal : norm2 [0; 0; 1] = 1.
Proof.
  unfold norm2. transitivity (sqrt 1); [|apply sqrt_1]. f_equal.
  unfold sumsq, sum. simpl. lra.
Qed.

Lemma reflect_involution_witness :
  dot (PrimDecoder.reflect [1; 2; 3] [0; 0; 1]) [0; 0; 1]
    = - dot [1; 2; 3] [0; 0; 1] ∧
  PrimDecoder.reflect (PrimDecoder.reflect [1; 2; 3] [0; 0; 1]) [0; 0; 1]
    = [1; 2; 3].
Proof.
  exact (reflect_involution [1; 2; 3] [0; 0; 1] eq_refl sample_unit_normal).
Defined.

Lemma summary_outputs_are_bytes_witness :
  ∃ out grid,
    @RGCASummary.__call__ Samples.imaging
      Samples.summary_preds Samples.summary_batch = Some out ∧
    out !! "depth_nml" = Some grid ∧
    Forall (Forall (Forall (λ z, (0 <= z <= 255)%Z))) grid.
Proof.
  destruct sample_summary_returns as [out Hout].
  destruct (@call_has_depth_nml Samples.imaging _ _ _ Hout) as [grid Hg].
  exists out, grid. split; [exact Hout|]. split; [exact Hg|].
  exact (@summary_outputs_are_bytes Samples.imaging
           Samples.summary_preds Samples.summary_batch out "depth_nml" grid
           Hout Hg).
Defined.

Lemma summary_key_set_witness :
  ∃ out,
    @RGCASummary.__call__ Samples.imaging
      Samples.summary_preds Samples.summary_batch = Some out ∧
    is_Some (out !! "render") ∧ ¬ is_Some (out !! "weight").
Proof.
  destruct sample_summary_returns as [out Hout].
  destruct (@summary_key_set Samples.imaging
              Samples.summary_preds Samples.summary_batch out Hout)
    as [Hkeys _].
  exists out. split; [exact Hout|]. split.
  - apply Hkeys. left. unfold RGCASummary.fixed_keys. repeat constructor.
  - intros Hw. apply Hkeys in Hw as [Hw | [[_ Hw] | [[Hp _] | [_ Hw]]]].
    + unfold RGCASummary.fixed_keys in Hw.
      repeat (apply elem_of_cons in Hw as [Hw|Hw]; [discriminate Hw|]).
      now apply elem_of_nil in Hw.
    + repeat (apply elem_of_cons in Hw as [Hw|Hw]; [discriminate Hw|]).
      now apply elem_of_nil in Hw.
    + unfold Samples.summary_preds in Hp. simplify_map_eq.
      now destruct Hp.
    + discriminate Hw.
Defined.

Lemma light_grid_normals_witness :
  ∃ (p q : vec) (m : R),
    (RGCASummary.nml !! 0%nat) ≫= (.!! 0%nat) = Some p ∧
    (RGCASummary.nml !! 128%nat) ≫= (.!! 0%nat) = Some q ∧
    at2 RGCASummary.mask 0 0 = Some m ∧
    p = RGCASummary.pixelcoords 0 0 ++ [- RGCASummary.nz 0 0] ∧
    q = RGCASummary.pixelcoords 0 0 ++ [RGCASummary.nz 0 0] ∧
    (¬ RGCASummary.zsq 0 0 < 1.0 → m = 0 ∧ RGCASummary.nz 0 0 = 0).
Proof.
  destruct (light_grid_normals 0 0 (Nat.lt_0_succ 127) (Nat.lt_0_succ 127))
    as (p & q & m & Hp & Hq & Hm & _ & Ep & Eq & _ & Hout).
  exists p, q, m. auto 10.
Defined.

Lemma face_geom_entries_witness :
  ∃ g, @GeomDecoder.forward Samples.geomdecoder Samples.embs !! "face_geom"
       = Some (V3 g) ∧
       at3 g 0 0 1 = Some (0 * 1 + 0).
Proof.
  destruct (@face_geom_entries Samples.geomdecoder Samples.embs
              0 0 1 [0; 0; 0] [[0; 0; 0]] [0; 0; 0] 0 0
              eq_refl eq_refl (le_n 1) (le_S _ _ (le_n 2))
              eq_refl eq_refl eq_refl)
    as (g & Hg & _ & Hat).
  exists g. auto.
Defined.

Lemma sample_facew :
  ∃ weight nml x z,
    @FaceWeight._rasterize_facew Samples.faceweight
      (Samples.decoder Samples.channels Samples.vchannels)
      Samples.K Samples.Rt (Some Samples.background) Samples.geom_preds
    = Some (weight, nml) ∧
    px weight 0 0 0 0 = Some x ∧ px nml 0 2 0 0 = Some z ∧ 0 < z.
Proof.
  eexists _, _, _, _. split; [reflexivity|].
  split; [reflexivity|]. split; [reflexivity|].
  cbn. lra.
Qed.

Lemma facew_zero_where_backfacing_witness :
  ∃ weight nml x z,
    @FaceWeight._rasterize_facew Samples.faceweight
      (Samples.decoder Samples.channels Samples.vchannels)
      Samples.K Samples.Rt (Some Samples.background) Samples.geom_preds
    = Some (weight, nml) ∧
    px weight 0 0 0 0 = Some x ∧ px nml 0 2 0 0 = Some z ∧ 0 < z ∧ x = 0.
Proof.
  destruct sample_facew as (weight & nml & x & z & Hf & Hx & Hz & Hpos).
  exists weight, nml, x, z. split; [exact Hf|]. split; [exact Hx|].
  split; [exact Hz|]. split; [exact Hpos|].
  exact (@facew_zero_where_backfacing Samples.faceweight
           (Samples.decoder Samples.channels Samples.vchannels)
           Samples.K Samples.Rt (Some Samples.background) Samples.geom_preds
           weight nml 0%nat 0%nat 0%nat 0%nat x z Hf Hx Hz Hpos).
Defined.



Lemma summary_needs_its_inputs_witness :
  Forall (λ k, is_Some (Samples.summary_preds !! k))
    RGCASummary.required_keys ∧
  is_Some (Samples.summary_batch !! "focal") ∧
  is_Some (Samples.summary_batch !! "princpt").
Proof.
  exact (@summary_needs_its_inputs Samples.imaging
           Samples.summary_preds Samples.summary_batch
           sample_summary_returns).
Defined.

Lemma render_needs_its_inputs_witness :
  (0 < length Samples.K)%nat ∧ (length Samples.K ≤ length Samples.Rt)%nat ∧
  Forall (λ k, is_Some (Samples.prims !! k))
    ["primpos"; "primqvec"; "primscale"; "opacity"; "color"] ∧
  Forall (λ r : image, dims r = dims (hd [] [[[[1]]; [[1]]; [[2]]]]))
    [[[[1]]; [[1]]; [[2]]]].
Proof.
  exact (proj2 (render_needs_its_inputs (H:=Samples.rasterizer) 1 1
                  Samples.K Samples.Rt Samples.prims)
           _ _ _ sample_render).
Defined.
End more_instances.
